(** * Daily reporter: deduplication, freshness and collection rules

    A shallow embedding of the TypeScript sources of the daily reporter
    (date parser, history store, similarity, URL normaliser, collector
    prompts, SDK executor, orchestrator) together with the properties that
    its specification states about them.

    Conventions.
    - A JavaScript string is the list of its UTF-16 code units ([jsstring]);
      [str "abc"] writes an ASCII literal.
    - A [Date] is [option Z]: [Some t] is the time value in milliseconds since
      the epoch, [None] is the Invalid Date (time value NaN).
    - What the JavaScript runtime provides (Date parsing and formatting, the
      WHATWG URL class, JSON.parse, toLowerCase) is a type-class parameter of
      the definitions that call it; [Reference] gives executable instances.
    - Code that can throw returns [option]: [None] is the exception. *)

From Stdlib Require Import PrimFloat.
From Stdlib Require Uint63.
From Stdlib Require Import Ascii String Qcanon.
From stdpp Require Import gmap strings sets numbers list.

Local Open Scope Z_scope.

#[local] Set Warnings "-clear-no-such-hyp".
#[local] Set Warnings "-register-all".

(* ===================================================================== *)
(** * Part I: definitions                                                 *)
(* ===================================================================== *)

(** ** JavaScript strings *)

Module JS.

Abbreviation jsstring := (list N).

Definition str (s : string) : jsstring :=
  N_of_ascii <$> list_ascii_of_string s.

(** Truthiness of a string value: every string but the empty one. *)
Definition truthy (s : jsstring) : bool :=
  match s with [] => false | _ => true end.

(** Truthiness of [string | null | undefined]. *)
Definition truthyOpt (o : option jsstring) : bool :=
  match o with Some s => truthy s | None => false end.

(** [a ?? b] on an optional value. *)
Definition nullish {A} (o : option A) (d : A) : A := default d o.

Fixpoint startsWith (p s : jsstring) : bool :=
  match p, s with
  | [], _ => true
  | c :: p', d :: s' => if decide (c = d) then startsWith p' s' else false
  | _ :: _, [] => false
  end.

(** [s.includes(p)] *)
Fixpoint includes (s p : jsstring) : bool :=
  startsWith p s ||
  match s with
  | [] => false
  | _ :: s' => includes s' p
  end.

Definition endsWith (p s : jsstring) : bool :=
  startsWith (reverse p) (reverse s).

(** [s.padStart(n, "0")] *)
Definition padStart0 (n : nat) (s : jsstring) : jsstring :=
  replicate (n - length s) 48%N ++ s.

Definition isDigit (c : N) : bool := bool_decide (48 ≤ c ≤ 57)%N.
Definition isUpper (c : N) : bool := bool_decide (65 ≤ c ≤ 90)%N.
Definition isLower (c : N) : bool := bool_decide (97 ≤ c ≤ 122)%N.
Definition isAlnum (c : N) : bool := isDigit c || isUpper c || isLower c.

(** White space and line terminators: the class [\s] and what [trim] strips. *)
Definition isSpace (c : N) : bool :=
  bool_decide (c ∈ [9; 10; 11; 12; 13; 32; 160; 5760; 8232; 8233; 8239; 8287;
                    12288; 65279]%N)
  || bool_decide (8192 ≤ c ≤ 8202)%N.

Fixpoint trimStart (s : jsstring) : jsstring :=
  match s with
  | c :: s' => if isSpace c then trimStart s' else s
  | [] => []
  end.
Definition trimEnd (s : jsstring) : jsstring := reverse (trimStart (reverse s)).
Definition trim (s : jsstring) : jsstring := trimEnd (trimStart s).

(** [parseInt(s, 10)] on a string of decimal digits. *)
Definition parseDigits (s : jsstring) : Z :=
  foldl (λ acc c, 10 * acc + (Z.of_N c - 48)) 0 s.

End JS.
Export JS.

(** ** Regular expressions

    The patterns of the sources are regular-expression literals; they are
    embedded as syntax trees and run by a backtracking matcher that follows
    the ECMAScript semantics for the constructs the sources use (literals,
    classes, sequence, alternative, greedy and lazy star, capture groups, the
    end anchor, and the [i] flag on ASCII letters). *)

Module RegExp.

(** A character class: code-unit ranges, possibly complemented. *)
Record cset := CSet { cs_neg : bool; cs_ranges : list (N * N) }.

Inductive regex :=
  | Eps
  | Lit (c : N)
  | Cls (s : cset)
  | Cat (r1 r2 : regex)
  | Alt (r1 r2 : regex)
  | Star (greedy : bool) (r : regex)
  | Grp (i : nat) (r : regex)
  | Eol.

Definition Plus (r : regex) : regex := Cat r (Star true r).
Definition Opt (r : regex) : regex := Alt r Eps.
Fixpoint Lits (s : jsstring) : regex :=
  match s with [] => Eps | c :: s' => Cat (Lit c) (Lits s') end.
Fixpoint Rep (n : nat) (r : regex) : regex :=
  match n with O => Eps | S n' => Cat r (Rep n' r) end.

Definition digit : cset := CSet false [(48, 57)]%N.
Definition alnum : cset := CSet false [(97, 122); (65, 90); (48, 57)]%N.
(** [\w] *)
Definition word : cset := CSet false [(97, 122); (65, 90); (48, 57); (95, 95)]%N.
(** [\s] *)
Definition space : cset :=
  CSet false [(9, 13); (32, 32); (160, 160); (5760, 5760); (8192, 8202);
              (8232, 8233); (8239, 8239); (8287, 8287); (12288, 12288);
              (65279, 65279)]%N.
(** [[\s\S]] *)
Definition anychar : cset := CSet true [].
Definition oneOf (cs : list N) : cset := CSet false ((λ c, (c, c)) <$> cs).

Definition inRanges (c : N) (rs : list (N * N)) : bool :=
  existsb (λ r, bool_decide (r.1 ≤ c ≤ r.2)%N) rs.

Definition upperASCII (c : N) : N := if isLower c then (c - 32)%N else c.
Definition lowerASCII (c : N) : N := if isUpper c then (c + 32)%N else c.

Definition litMatches (ic : bool) (p c : N) : bool :=
  if ic then bool_decide (upperASCII p = upperASCII c) else bool_decide (p = c).

Definition csetMatches (ic : bool) (s : cset) (c : N) : bool :=
  let hit := inRanges c (cs_ranges s)
             || (ic && (inRanges (upperASCII c) (cs_ranges s)
                        || inRanges (lowerASCII c) (cs_ranges s))) in
  if cs_neg s then negb hit else hit.

(** Capture registers: index 0 is unused by the matcher, index [i] holds the
    text of group [i]. *)
Abbreviation captures := (list (option jsstring)).

Section Matcher.
Context {R : Type}.
Variable ic : bool.

(** [run r s caps k]: match [r] at the front of [s], then continue with
    [k] on the rest; alternatives are tried in priority order. *)
Fixpoint run (r : regex) (s : jsstring) (caps : captures)
    (k : jsstring → captures → option R) {struct r} : option R :=
  match r with
  | Eps => k s caps
  | Lit p =>
      match s with
      | c :: s' => if litMatches ic p c then k s' caps else None
      | [] => None
      end
  | Cls cs =>
      match s with
      | c :: s' => if csetMatches ic cs c then k s' caps else None
      | [] => None
      end
  | Cat r1 r2 => run r1 s caps (λ s' caps', run r2 s' caps' k)
  | Alt r1 r2 =>
      match run r1 s caps k with
      | Some x => Some x
      | None => run r2 s caps k
      end
  | Star greedy r' =>
      (fix star (n : nat) (s : jsstring) (caps : captures)
           (k : jsstring → captures → option R) {struct n} : option R :=
         match n with
         | O => k s caps
         | S n' =>
             let again :=
               run r' s caps (λ s' caps',
                 if decide (length s' < length s)%nat
                 then star n' s' caps' k else None) in
             if greedy
             then match again with Some x => Some x | None => k s caps end
             else match k s caps with Some x => Some x | None => again end
         end) (length s) s caps k
  | Grp i r' =>
      run r' s caps (λ s' caps',
        k s' (<[i := Some (take (length s - length s') s)]> caps'))
  | Eol => match s with [] => k s caps | _ => None end
  end.
End Matcher.

(** A successful match: where it starts, the matched text and the groups. *)
Record MatchResult := {
  m_index : nat;
  m_text : jsstring;
  m_groups : captures;
}.

Definition matchAt (ic : bool) (ngroups : nat) (r : regex) (s : jsstring)
    : option (jsstring * captures) :=
  run ic r s (replicate (S ngroups) None)
    (λ s' caps, Some (take (length s - length s') s, caps)).

(** [RegExp.prototype.exec] without the [g] flag, from position [i]. *)
Fixpoint execFrom (ic : bool) (ngroups : nat) (r : regex) (i : nat)
    (s : jsstring) : option MatchResult :=
  match matchAt ic ngroups r s with
  | Some (t, caps) => Some {| m_index := i; m_text := t; m_groups := caps |}
  | None =>
      match s with
      | [] => None
      | _ :: s' => execFrom ic ngroups r (S i) s'
      end
  end.

(** A regular expression object: its tree, group count and [i] flag. *)
Record RegExp := {
  re_tree : regex;
  re_groups : nat;
  re_ignoreCase : bool;
}.

(** [s.match(re)] for a pattern without the [g] flag. *)
Definition stringMatch (s : jsstring) (re : RegExp) : option MatchResult :=
  execFrom (re_ignoreCase re) (re_groups re) (re_tree re) 0 s.

(** [match[i]]: [None] is [undefined]. *)
Definition group (m : MatchResult) (i : nat) : option jsstring :=
  mjoin (m_groups m !! i).

(** [s.matchAll(re)] for a pattern with the [g] flag: successive matches, an
    empty match advancing by one code unit. *)
Fixpoint matchAllFrom (fuel : nat) (re : RegExp) (i : nat) (s : jsstring)
    : list MatchResult :=
  match fuel with
  | O => []
  | S fuel' =>
      match execFrom (re_ignoreCase re) (re_groups re) (re_tree re) i s with
      | None => []
      | Some m =>
          let consumed := (m_index m - i + Nat.max 1 (length (m_text m)))%nat in
          m :: matchAllFrom fuel' re (i + consumed) (drop consumed s)
      end
  end.

Definition matchAll (s : jsstring) (re : RegExp) : list MatchResult :=
  matchAllFrom (S (length s)) re 0 s.

End RegExp.

(** ** Dates *)

Module Date.

(** A Date object: its time value, [None] for the Invalid Date. *)
Abbreviation Date := (option Z).

Definition msPerDay : Z := 86400000.
Definition maxTime : Z := 8640000000000000.

(** [new Date(v)] for a number [v]: time values outside the range of Date
    give the Invalid Date. *)
Definition TimeClip (v : Z) : Date :=
  if decide (Z.abs v ≤ maxTime) then Some v else None.

Definition ofNumber (v : option Z) : Date := v ≫= TimeClip.

(** [a > b] and [a >= b] on numbers that may be NaN. *)
Definition gt (a b : option Z) : bool :=
  match a, b with Some x, Some y => bool_decide (y < x) | _, _ => false end.
Definition ge (a b : option Z) : bool :=
  match a, b with Some x, Some y => bool_decide (y ≤ x) | _, _ => false end.

(** The fields read and written by the local-time getters and setters. *)
Inductive DateField := Seconds | Minutes | Hours | DayOfMonth | Month.

(** What the runtime decides: how a string parses, how a time prints, the
    local time zone, and the local-time field arithmetic. *)
Class DateRuntime := {
  (** [new Date(s).getTime()] *)
  Date_parse : jsstring → Date;
  (** [toISOString] of a valid time value *)
  Date_toISOString : Z → jsstring;
  (** offset of local time from UTC, in milliseconds, at a time value *)
  Date_LocalTZA : Z → Z;
  (** [getSeconds], [getMinutes], [getHours], [getDate], [getMonth] *)
  Date_get : DateField → Z → Z;
  (** [setSeconds], [setMinutes], [setHours], [setDate], [setMonth] *)
  Date_set : DateField → Z → Z → Date;
}.

Section WithRuntime.
Context `{DateRuntime}.

(** [d.getDay()]: the day of the week in local time, 0 for Sunday. *)
Definition getDay (d : Date) : option Z :=
  (λ t, ((t + Date_LocalTZA t) `div` msPerDay + 4) `mod` 7) <$> d.

(** [d.toISOString()]; it throws a RangeError on the Invalid Date. *)
Definition toISOString (d : Date) : option jsstring :=
  Date_toISOString <$> d.

(** [d.setF(d.getF() - v)] *)
Definition shiftField (f : DateField) (v : Z) (d : Date) : Date :=
  t ← d; Date_set f t (Date_get f t - v).
End WithRuntime.

End Date.
Export Date.

(** ** Shared types (types/index.ts) *)

Module Types.

Inductive DateConfidence := high | medium | low | unknown.
Inductive SourceTier := Tier1 | Tier2 | Tier3.
(** [DM_other] stands for any value outside the declared union, which only
    the [default] branch of a switch can see. *)
Inductive DateMethod :=
  html_meta | html_parse | url_parse | search_result | api | DM_other.
Inductive DateSource := published_at | url_date | relative_time | first_seen_at.
Inductive FreshnessPriority := prio_high | prio_normal | prio_low.

#[export] Instance DateConfidence_eq_dec : EqDecision DateConfidence.
Proof. solve_decision. Defined.
#[export] Instance DateSource_eq_dec : EqDecision DateSource.
Proof. solve_decision. Defined.
#[export] Instance FreshnessPriority_eq_dec : EqDecision FreshnessPriority.
Proof. solve_decision. Defined.
#[export] Instance SourceTier_eq_dec : EqDecision SourceTier.
Proof. solve_decision. Defined.

Record RawArticle := {
  url : jsstring;
  title : jsstring;
  summary : option jsstring;
  source : jsstring;
  fetchedAt : option jsstring;
  collectedAt : option jsstring;
  publishedAt : option jsstring;
  rawContent : option jsstring;
  dateMetaContent : option jsstring;
}.

Record DateMethodConfig := {
  dm_type : DateMethod;
  dm_selector : option jsstring;
  dm_pattern : option jsstring;
}.

Record HistoryEntry := {
  he_id : option Z;
  he_url : jsstring;
  he_normalizedUrl : jsstring;
  he_title : jsstring;
  he_firstSeenAt : jsstring;
  he_lastSeenAt : jsstring;
  he_publishedAt : option jsstring;
  (** declared [DateConfidence]; [None] is a NULL column read back *)
  he_dateConfidence : option DateConfidence;
  he_source : jsstring;
  he_titleHash : option jsstring;
  he_contentHash : option jsstring;
}.

Inductive ErrorType := err_timeout | err_network | err_parse | err_rate_limit | err_unknown.

Record CollectionError := {
  ce_sourceId : jsstring;
  ce_errorType : ErrorType;
  ce_message : jsstring;
  ce_timestamp : jsstring;
  ce_retryCount : Z;
}.

End Types.
Export Types.

(** ** Date parser (deduplicator/date-parser.ts) *)

Module DateParser.
Import RegExp.

Record DateParseResult := {
  date : option jsstring;
  confidence : DateConfidence;
  dsource : DateSource;
  rawText : option jsstring;
}.

Record FreshnessResult := {
  isFresh : bool;
  priority : FreshnessPriority;
  dateSource : option DateSource;
  reason : jsstring;
}.

(** [new RegExp(pattern)] for a pattern given as text is the runtime's;
    [None] is its SyntaxError. *)
Class RegExpRuntime := {
  RegExp_compile : jsstring → option RegExp;
}.

Definition seq (rs : list regex) : regex := foldr Cat Eps rs.

(** [/\/(\d{4})[-\/](\d{2})[-\/](\d{2})/],
    [/[?&]date=(\d{4})[-\/](\d{2})[-\/](\d{2})/],
    [/\/articles?\/(\d{4})(\d{2})(\d{2})/] *)
Definition URL_DATE_PATTERNS : list RegExp :=
  let d n := Rep n (Cls digit) in
  let sep := Cls (oneOf [45; 47]%N) in
  [ {| re_tree := seq [Lit 47; Grp 1 (d 4%nat); sep; Grp 2 (d 2%nat); sep;
                       Grp 3 (d 2%nat)];
       re_groups := 3; re_ignoreCase := false |};
    {| re_tree := seq [Cls (oneOf [63; 38]%N); Lits (str "date=");
                       Grp 1 (d 4%nat); sep; Grp 2 (d 2%nat); sep;
                       Grp 3 (d 2%nat)];
       re_groups := 3; re_ignoreCase := false |};
    {| re_tree := seq [Lits (str "/article"); Opt (Lit 115); Lit 47;
                       Grp 1 (d 4%nat); Grp 2 (d 2%nat); Grp 3 (d 2%nat)];
       re_groups := 3; re_ignoreCase := false |} ].

Inductive TimeUnit :=
  | seconds | minutes | hours | days | weeks | months
  | yesterday | today | last_week.

(** The relative-time patterns: Japanese first, then English with the
    [i] flag. A counted pattern has one group, a keyword pattern none. *)
Definition counted (ic : bool) (tail : list regex) : RegExp :=
  {| re_tree := seq (Grp 1 (Plus (Cls digit)) :: Star true (Cls space) :: tail);
     re_groups := 1; re_ignoreCase := ic |}.
Definition keyword (ic : bool) (body : list regex) : RegExp :=
  {| re_tree := seq body; re_groups := 0; re_ignoreCase := ic |}.

Definition RELATIVE_TIME_PATTERNS_ja : list (RegExp * TimeUnit) :=
  [ (counted false [Lits [31186; 21069]%N], seconds);
    (counted false [Lits [20998; 21069]%N], minutes);
    (counted false [Lits [26178; 38291; 21069]%N], hours);
    (counted false [Lits [26085; 21069]%N], days);
    (counted false [Lits [36913; 38291; 21069]%N], weeks);
    (counted false [Lits [12534; 26376; 21069]%N], months);
    (counted false [Lits [12363; 26376; 21069]%N], months);
    (keyword false [Lits [26152; 26085]%N], yesterday);
    (keyword false [Lits [20170; 26085]%N], today);
    (keyword false [Lits [20808; 36913]%N], last_week) ].

Definition RELATIVE_TIME_PATTERNS_en : list (RegExp * TimeUnit) :=
  let ago w := [Lits (str w); Opt (Lit 115); Star true (Cls space);
                Lits (str "ago")] in
  [ (counted true (ago "second"), seconds);
    (counted true (ago "minute"), minutes);
    (counted true (ago "hour"), hours);
    (counted true (ago "day"), days);
    (counted true (ago "week"), weeks);
    (counted true (ago "month"), months);
    (keyword true [Lits (str "yesterday")], yesterday);
    (keyword true [Lits (str "today")], today);
    (keyword true [Lits (str "last"); Star true (Cls space);
                   Lits (str "week")], last_week) ].

Section WithRuntime.
Context `{DateRuntime} `{RegExpRuntime}.

Definition parseISODate (dateString : option jsstring) : DateParseResult :=
  if negb (truthyOpt dateString) then
    {| date := None; confidence := unknown; dsource := published_at;
       rawText := None |}
  else
    match Date_parse (nullish dateString []) with
    | None =>
        {| date := None; confidence := unknown; dsource := published_at;
           rawText := dateString |}
    | Some t =>
        {| date := Some (Date_toISOString t); confidence := high;
           dsource := published_at; rawText := dateString |}
    end.

(** The loop of [parseDateFromUrl] over the patterns. *)
Fixpoint parseDateFromPatterns (url : jsstring) (patterns : list RegExp)
    : DateParseResult :=
  match patterns with
  | [] =>
      {| date := None; confidence := unknown; dsource := url_date;
         rawText := None |}
  | regex :: rest =>
      match stringMatch url regex with
      | None => parseDateFromPatterns url rest
      | Some m =>
          let year := group m 1 in
          let month := group m 2 in
          let day := group m 3 in
          if negb (truthyOpt year) || negb (truthyOpt month)
             || negb (truthyOpt day)
          then parseDateFromPatterns url rest
          else
            let y := nullish year [] in
            let mo := nullish month [] in
            let d := nullish day [] in
            let dateStr := y ++ str "-" ++ padStart0 2 mo ++ str "-"
                           ++ padStart0 2 d ++ str "T00:00:00.000Z" in
            match Date_parse dateStr with
            | Some t =>
                {| date := Some (Date_toISOString t); confidence := medium;
                   dsource := url_date;
                   rawText := Some (y ++ str "/" ++ mo ++ str "/" ++ d) |}
            | None => parseDateFromPatterns url rest
            end
      end
  end.

(** [None]: the custom pattern does not compile and [new RegExp] throws. *)
Definition parseDateFromUrl (url : jsstring) (pattern : option jsstring)
    : option DateParseResult :=
  patterns ←
    (if truthyOpt pattern
     then re ← RegExp_compile (nullish pattern []); Some [re]
     else Some URL_DATE_PATTERNS);
  Some (parseDateFromPatterns url patterns).

Definition calculateDateFromRelative (value : Z) (unit : TimeUnit)
    (referenceDate : Date) : Date :=
  let date := referenceDate in
  match unit with
  | seconds => shiftField Seconds value date
  | minutes => shiftField Minutes value date
  | hours => shiftField Hours value date
  | days => shiftField DayOfMonth value date
  | weeks => shiftField DayOfMonth (value * 7) date
  | months => shiftField Month value date
  | yesterday => shiftField DayOfMonth 1 date
  | today => date
  | last_week => shiftField DayOfMonth 7 date
  end.

(** The two nested loops of [parseRelativeTime], flattened; the outer
    [option] is the RangeError of [toISOString] on an Invalid Date. *)
Fixpoint parseRelativeLoop (text : jsstring) (referenceDate : Date)
    (patterns : list (RegExp * TimeUnit)) : option DateParseResult :=
  match patterns with
  | [] =>
      Some {| date := None; confidence := unknown; dsource := relative_time;
              rawText := Some text |}
  | (pattern, unit) :: rest =>
      match stringMatch text pattern with
      | None => parseRelativeLoop text referenceDate rest
      | Some m =>
          let value :=
            if truthyOpt (group m 1)
            then parseDigits (nullish (group m 1) []) else 1 in
          let date := calculateDateFromRelative value unit referenceDate in
          iso ← toISOString date;
          Some {| date := Some iso; confidence := low;
                  dsource := relative_time; rawText := Some text |}
      end
  end.

Definition parseRelativeTime (text : jsstring) (referenceDate : Date)
    : option DateParseResult :=
  parseRelativeLoop text referenceDate
    (RELATIVE_TIME_PATTERNS_ja ++ RELATIVE_TIME_PATTERNS_en).

Record MultiLayerOptions := {
  ml_publishedAt : option jsstring;
  ml_url : option jsstring;
  ml_relativeTimeText : option jsstring;
  ml_urlDatePattern : option jsstring;
  ml_referenceDate : Date;
}.

Definition hasDate (r : DateParseResult) : bool := truthyOpt (date r).

Definition parseDateMultiLayer (options : MultiLayerOptions)
    : option DateParseResult :=
  let fallback :=
    {| date := None; confidence := unknown; dsource := first_seen_at;
       rawText := None |} in
  let layer3 :=
    if truthyOpt (ml_relativeTimeText options) then
      result ← parseRelativeTime (nullish (ml_relativeTimeText options) [])
                  (ml_referenceDate options);
      Some (if hasDate result then result else fallback)
    else Some fallback in
  let layer2 :=
    if truthyOpt (ml_url options) then
      result ← parseDateFromUrl (nullish (ml_url options) [])
                  (ml_urlDatePattern options);
      if hasDate result then Some result else layer3
    else layer3 in
  if truthyOpt (ml_publishedAt options) then
    let result := parseISODate (ml_publishedAt options) in
    if hasDate result then Some result else layer2
  else layer2.

(** [d.getTime() - h * 60 * 60 * 1000] as a new Date *)
Definition hoursBefore (h : Z) (now : Date) : Date :=
  ofNumber ((λ t, t - h * 60 * 60 * 1000) <$> now).

Definition calculateWindowStart (lastSuccessAt : option jsstring)
    (now : Date) : Date :=
  let isMonday := bool_decide (getDay now = Some 1) in
  if truthyOpt lastSuccessAt then
    let lastSuccess := Date_parse (nullish lastSuccessAt []) in
    if isMonday then
      let threeDaysAgo := hoursBefore 72 now in
      if gt lastSuccess threeDaysAgo then lastSuccess else threeDaysAgo
    else lastSuccess
  else if isMonday then hoursBefore 72 now
  else hoursBefore 24 now.

Record FreshnessOptions := {
  fo_publishedAt : option jsstring;
  fo_urlDate : option jsstring;
  fo_relativeTimeParsed : option jsstring;
  fo_firstSeenAt : option jsstring;
  fo_windowStart : Date;
}.

(** One priority level of [checkFreshness]: a present, parseable date
    decides; anything else falls through to [next]. *)
Definition freshnessLevel (value : option jsstring) (windowStartTime : option Z)
    (prio : FreshnessPriority) (src : DateSource)
    (label within before : jsstring) (next : FreshnessResult)
    : FreshnessResult :=
  if truthyOpt value then
    let text := nullish value [] in
    match Date_parse text with
    | Some t =>
        if ge (Some t) windowStartTime then
          {| isFresh := true; priority := prio; dateSource := Some src;
             reason := label ++ text ++ within |}
        else
          {| isFresh := false; priority := prio; dateSource := Some src;
             reason := label ++ text ++ before |}
    | None => next
    end
  else next.

Definition checkFreshness (options : FreshnessOptions) : FreshnessResult :=
  let windowStartTime := fo_windowStart options in
  freshnessLevel (fo_publishedAt options) windowStartTime prio_high
    published_at (str "Published at ") (str " is within window")
    (str " is before window start")
  (freshnessLevel (fo_urlDate options) windowStartTime prio_normal
    url_date (str "URL date ") (str " is within window")
    (str " is before window start")
  (freshnessLevel (fo_relativeTimeParsed options) windowStartTime prio_normal
    relative_time (str "Relative time ") (str " is within window")
    (str " is before window start")
  (freshnessLevel (fo_firstSeenAt options) windowStartTime prio_low
    first_seen_at (str "First seen at ")
    (str " is within window (fallback)")
    (str " is before window start (fallback)")
    {| isFresh := true; priority := prio_low; dateSource := None;
       reason := str "All dates unknown, including with low priority" |}))).

Record MethodOptions := {
  mo_metaContent : option jsstring;
  mo_htmlContent : option jsstring;
  mo_url : option jsstring;
  mo_searchResultText : option jsstring;
  mo_apiResponse : option jsstring;
  mo_dateSelector : option jsstring;
  mo_datePattern : option jsstring;
  mo_referenceDate : Date;
}.

(** [a ?? b] where [b] may itself be absent *)
Definition orElse {A} (a b : option A) : option A :=
  match a with Some _ => a | None => b end.

Definition parseDateByMethod (method : DateMethod) (options : MethodOptions)
    : option DateParseResult :=
  match method with
  | html_meta | api =>
      Some (parseISODate (orElse (mo_metaContent options)
                                 (mo_apiResponse options)))
  | url_parse =>
      if truthyOpt (mo_url options)
      then parseDateFromUrl (nullish (mo_url options) [])
             (mo_datePattern options)
      else Some {| date := None; confidence := unknown; dsource := url_date;
                   rawText := None |}
  | html_parse | search_result =>
      let text := orElse (mo_searchResultText options)
                         (mo_htmlContent options) in
      if truthyOpt text
      then parseRelativeTime (nullish text []) (mo_referenceDate options)
      else Some {| date := None; confidence := unknown;
                   dsource := relative_time; rawText := None |}
  | DM_other =>
      Some {| date := None; confidence := unknown; dsource := first_seen_at;
              rawText := None |}
  end.
End WithRuntime.

End DateParser.

(** ** History store (deduplicator/history-store.ts)

    The [history] table is the list of its rows in rowid order together with
    the AUTOINCREMENT counter; each statement is the function it computes
    on that state. *)

Module HistoryStore.

Record HistoryRow := {
  id : Z;
  url : jsstring;
  normalized_url : jsstring;
  title : jsstring;
  first_seen_at : jsstring;
  last_seen_at : jsstring;
  published_at : option jsstring;
  date_confidence : option DateConfidence;
  source : jsstring;
  title_hash : option jsstring;
  content_hash : option jsstring;
}.

Record Database := {
  rows : list HistoryRow;
  (** largest rowid ever handed out *)
  lastRowid : Z;
}.

Definition emptyDatabase : Database := {| rows := []; lastRowid := 0 |}.

Definition rowToEntry (row : HistoryRow) : HistoryEntry :=
  {| he_id := Some (id row);
     he_url := url row;
     he_normalizedUrl := normalized_url row;
     he_title := title row;
     he_firstSeenAt := first_seen_at row;
     he_lastSeenAt := last_seen_at row;
     he_publishedAt := published_at row;
     he_dateConfidence := date_confidence row;
     he_source := source row;
     he_titleHash := title_hash row;
     he_contentHash := content_hash row |}.

(** [SELECT * FROM history WHERE normalized_url = ?], first row *)
Definition selectByNormalizedUrl (db : Database) (normalizedUrl : jsstring)
    : option HistoryRow :=
  head (filter (λ row, normalized_url row = normalizedUrl) (rows db)).

Definition findByNormalizedUrl (db : Database) (normalizedUrl : jsstring)
    : option HistoryEntry :=
  rowToEntry <$> selectByNormalizedUrl db normalizedUrl.

Definition findExistingUrls (db : Database) (normalizedUrls : list jsstring)
    : gset jsstring :=
  match normalizedUrls with
  | [] => ∅
  | _ =>
      list_to_set
        (normalized_url <$>
           filter (λ row, normalized_url row ∈ normalizedUrls) (rows db))
  end.

(** SQL [COALESCE(a, b)]: the first argument that is not NULL *)
Definition COALESCE {A} (a b : option A) : option A :=
  match a with Some _ => a | None => b end.

(** The UPDATE statement of [upsert] on one row. *)
Definition updateRow (entry : HistoryEntry) (row : HistoryRow) : HistoryRow :=
  if decide (normalized_url row = he_normalizedUrl entry) then
    {| id := id row;
       url := url row;
       normalized_url := normalized_url row;
       title := title row;
       first_seen_at := first_seen_at row;
       last_seen_at := he_lastSeenAt entry;
       published_at := COALESCE (he_publishedAt entry) (published_at row);
       date_confidence :=
         COALESCE (he_dateConfidence entry) (date_confidence row);
       source := source row;
       title_hash := COALESCE (he_titleHash entry) (title_hash row);
       content_hash := COALESCE (he_contentHash entry) (content_hash row) |}
  else row.

(** The INSERT statement of [upsert]. *)
Definition insertRow (db : Database) (entry : HistoryEntry) : Database :=
  let rowid := lastRowid db + 1 in
  {| rows := rows db ++
       [ {| id := rowid;
            url := he_url entry;
            normalized_url := he_normalizedUrl entry;
            title := he_title entry;
            first_seen_at := he_firstSeenAt entry;
            last_seen_at := he_lastSeenAt entry;
            published_at := he_publishedAt entry;
            date_confidence := he_dateConfidence entry;
            source := he_source entry;
            title_hash := he_titleHash entry;
            content_hash := he_contentHash entry |} ];
     lastRowid := rowid |}.

Definition withLastSeenAt (e : HistoryEntry) (lastSeenAt : jsstring)
    : HistoryEntry :=
  {| he_id := he_id e; he_url := he_url e;
     he_normalizedUrl := he_normalizedUrl e; he_title := he_title e;
     he_firstSeenAt := he_firstSeenAt e; he_lastSeenAt := lastSeenAt;
     he_publishedAt := he_publishedAt e;
     he_dateConfidence := he_dateConfidence e; he_source := he_source e;
     he_titleHash := he_titleHash e; he_contentHash := he_contentHash e |}.

Definition withId (e : HistoryEntry) (i : Z) : HistoryEntry :=
  {| he_id := Some i; he_url := he_url e;
     he_normalizedUrl := he_normalizedUrl e; he_title := he_title e;
     he_firstSeenAt := he_firstSeenAt e; he_lastSeenAt := he_lastSeenAt e;
     he_publishedAt := he_publishedAt e;
     he_dateConfidence := he_dateConfidence e; he_source := he_source e;
     he_titleHash := he_titleHash e; he_contentHash := he_contentHash e |}.

(** [upsert(entry)]: the database afterwards and the entry returned. *)
Definition upsert (db : Database) (entry : HistoryEntry)
    : Database * HistoryEntry :=
  match findByNormalizedUrl db (he_normalizedUrl entry) with
  | Some existing =>
      ({| rows := updateRow entry <$> rows db; lastRowid := lastRowid db |},
       withLastSeenAt existing (he_lastSeenAt entry))
  | None =>
      let db' := insertRow db entry in
      (db', withId entry (lastRowid db'))
  end.

Fixpoint bulkUpsert (db : Database) (entries : list HistoryEntry)
    : Database * list HistoryEntry :=
  match entries with
  | [] => (db, [])
  | entry :: rest =>
      let '(db1, r) := upsert db entry in
      let '(db2, rs) := bulkUpsert db1 rest in
      (db2, r :: rs)
  end.

End HistoryStore.

(** ** Similarity (deduplicator/similarity.ts) *)

Module Similarity.

(** [String.prototype.toLowerCase] is the runtime's (it follows the Unicode
    case mapping). *)
Class TextRuntime := {
  String_toLowerCase : jsstring → jsstring;
}.

(** [.replace(/[Ａ-Ｚａ-ｚ０-９]/g, c => fromCharCode(c - 0xfee0))] *)
Definition halfWidth (c : N) : N :=
  if bool_decide (65313 ≤ c ≤ 65338)%N || bool_decide (65345 ≤ c ≤ 65370)%N
     || bool_decide (65296 ≤ c ≤ 65305)%N
  then (c - 65248)%N else c.

(** [.replace(/　/g, ' ')] *)
Definition ideographicSpace (c : N) : N :=
  if bool_decide (c = 12288%N) then 32%N else c.

(** [.replace(/\s+/g, ' ')]; [inRun] records that the previous code unit was
    white space, whose run has already been replaced. *)
Fixpoint collapseFrom (inRun : bool) (s : jsstring) : jsstring :=
  match s with
  | [] => []
  | c :: s' =>
      if isSpace c
      then (if inRun then collapseFrom true s' else 32%N :: collapseFrom true s')
      else c :: collapseFrom false s'
  end.
Definition collapseSpaces (s : jsstring) : jsstring := collapseFrom false s.

Section WithRuntime.
Context `{TextRuntime}.

Definition normalizeText (text : jsstring) : jsstring :=
  trim (collapseSpaces
          (ideographicSpace <$> (halfWidth <$> String_toLowerCase text))).

(** [normalized.match(/[a-zA-Z0-9]+/g) || []]: the maximal runs of ASCII
    letters and digits; [cur] is the run being read, reversed. *)
Fixpoint wordsFrom (cur : jsstring) (s : jsstring) : list jsstring :=
  match s with
  | [] => match cur with [] => [] | _ => [reverse cur] end
  | c :: s' =>
      if isAlnum c then wordsFrom (c :: cur) s'
      else match cur with
           | [] => wordsFrom [] s'
           | _ => reverse cur :: wordsFrom [] s'
           end
  end.
Definition words (s : jsstring) : list jsstring := wordsFrom [] s.

(** [japanese.substring(i, i + 2)] for [i] from 0 to [length - 2] *)
Fixpoint bigrams (s : jsstring) : list jsstring :=
  match s with
  | a :: (b :: _) as s' => [a; b] :: bigrams s'
  | _ => []
  end.

Definition tokenize (text : jsstring) : gset jsstring :=
  let normalized := normalizeText text in
  let tokens1 : gset jsstring :=
    list_to_set (String_toLowerCase <$> words normalized) in
  let japanese :=
    filter (λ c, isAlnum c = false ∧ isSpace c = false) normalized in
  let tokens2 : gset jsstring := tokens1 ∪ list_to_set (bigrams japanese) in
  if decide (length japanese = 1%nat) then tokens2 ∪ {[ japanese ]}
  else tokens2.

(** The quotient of the two sizes is an exact rational here; the double
    the source computes is its rounding. *)
Definition calculateJaccardSimilarity (text1 text2 : jsstring) : Qc :=
  let tokens1 := tokenize text1 in
  let tokens2 := tokenize text2 in
  if bool_decide (size tokens1 = 0%nat) && bool_decide (size tokens2 = 0%nat)
  then 1%Qc
  else if bool_decide (size tokens1 = 0%nat)
          || bool_decide (size tokens2 = 0%nat)
  then 0%Qc
  else
    let intersection : gset jsstring := filter (λ x, x ∈ tokens2) tokens1 in
    let union : gset jsstring := tokens1 ∪ tokens2 in
    (Qc_of_Z (Z.of_nat (size intersection))
     / Qc_of_Z (Z.of_nat (size union)))%Qc.
End WithRuntime.

End Similarity.

(** ** Freshness stage of the deduplicator (deduplicator/index.ts) *)

Module Deduplicator.
Import DateParser.

(** An article after the similarity stages:
    [RawArticle & { normalizedUrl; similarityScore? }] *)
Record DedupArticle := {
  raw : RawArticle;
  normalizedUrl : jsstring;
  similarityScore : option Qc;
}.

(** [FilteredArticle]: the spread article, with [publishedAt] overwritten,
    and the fields the freshness stage adds. *)
Record FilteredArticle := {
  fa_article : DedupArticle;
  fa_isNew : bool;
  fa_publishedAt : option jsstring;
  fa_dateConfidence : DateConfidence;
  fa_dateSource : DateSource;
  fa_urlDate : option jsstring;
  fa_relativeTimeParsed : option jsstring;
  fa_freshnessPriority : FreshnessPriority;
}.

Section WithRuntime.
Context `{DateRuntime} `{RegExpRuntime}.

(** The date of one article, by the three branches of the [map] callback.
    [None]: a parser threw. *)
Definition resolveDate (article : DedupArticle)
    (dateMethodMap : option (gmap jsstring DateMethodConfig)) (now : Date)
    : option DateParseResult :=
  let methodConfig := dateMethodMap ≫= (λ m, m !! source (raw article)) in
  if truthyOpt (publishedAt (raw article)) then
    match Date_parse (nullish (publishedAt (raw article)) []) with
    | None =>
        Some {| date := None; confidence := unknown;
                dsource := first_seen_at; rawText := None |}
    | Some t =>
        Some {| date := Some (Date_toISOString t); confidence := high;
                dsource := published_at; rawText := None |}
    end
  else
    match methodConfig with
    | Some methodConfig =>
        parseDateByMethod (dm_type methodConfig)
          {| mo_url := Some (url (raw article));
             mo_metaContent := dateMetaContent (raw article);
             mo_searchResultText := dateMetaContent (raw article);
             mo_dateSelector := dm_selector methodConfig;
             mo_datePattern := dm_pattern methodConfig;
             mo_referenceDate := now;
             mo_htmlContent := None;
             mo_apiResponse := None |}
    | None =>
        parseDateMultiLayer
          {| ml_publishedAt := None;
             ml_url := Some (url (raw article));
             ml_relativeTimeText := None;
             ml_urlDatePattern := None;
             ml_referenceDate := now |}
    end.

Definition dateIf (dateResult : DateParseResult) (src : DateSource)
    : option jsstring :=
  if decide (dsource dateResult = src) then date dateResult else None.

Definition freshnessOf (dateResult : DateParseResult) (windowStart : Date)
    : FreshnessResult :=
  checkFreshness
    {| fo_publishedAt := dateIf dateResult published_at;
       fo_urlDate := dateIf dateResult url_date;
       fo_relativeTimeParsed := dateIf dateResult relative_time;
       fo_firstSeenAt := None;
       fo_windowStart := windowStart |}.

(** The [map] callback of [filterByFreshness]. *)
Definition classify (windowStart : Date)
    (dateMethodMap : option (gmap jsstring DateMethodConfig)) (now : Date)
    (article : DedupArticle) : option FilteredArticle :=
  dateResult ← resolveDate article dateMethodMap now;
  let freshnessResult := freshnessOf dateResult windowStart in
  Some {| fa_article := article;
          fa_isNew := isFresh freshnessResult;
          fa_publishedAt := date dateResult;
          fa_dateConfidence := confidence dateResult;
          fa_dateSource := dsource dateResult;
          fa_urlDate := dateIf dateResult url_date;
          fa_relativeTimeParsed := dateIf dateResult relative_time;
          fa_freshnessPriority := priority freshnessResult |}.

(** The [filter] callback of [filterByFreshness]. *)
Definition keep (article : FilteredArticle) : bool :=
  fa_isNew article || bool_decide (fa_dateConfidence article = unknown).

(** [now] is the clock reading [new Date()] taken on entry. *)
Definition filterByFreshness (articles : list DedupArticle)
    (windowStart : Date)
    (dateMethodMap : option (gmap jsstring DateMethodConfig)) (now : Date)
    : option (list FilteredArticle) :=
  filteredArticles ← mapM (classify windowStart dateMethodMap now) articles;
  Some (filter (λ a, keep a = true) filteredArticles).
End WithRuntime.

End Deduplicator.

(** ** Collection prompts: parsing a response (collector/prompts.ts) *)

Module Prompts.
Import RegExp.


(** A value produced by [JSON.parse]. *)
Inductive JSON :=
  | JNull
  | JBool (b : bool)
  | JNum (n : Qc)
  | JStr (s : jsstring)
  | JArr (items : list JSON)
  | JObj (fields : list (jsstring * JSON)).

(** [JSON.parse] and the printing of numbers are the runtime's; a parse error
    carries the message of its SyntaxError. *)
Class JsonRuntime := {
  JSON_parse : jsstring → JSON + jsstring;
  Number_toString : Qc → jsstring;
}.

Record ParseResult := {
  articles : list RawArticle;
  parseError : option jsstring;
  rawPreview : option jsstring;
}.

(** [obj[key]]; [None] is [undefined]. Arrays carry none of the keys read
    here. *)
Definition getProp (v : JSON) (key : jsstring) : option JSON :=
  match v with
  | JObj fields => snd <$> head (filter (λ kv, kv.1 = key) fields)
  | _ => None
  end.

(** [typeof a === 'object' && a !== null] *)
Definition isObject (v : JSON) : bool :=
  match v with JArr _ | JObj _ => true | _ => false end.

(** Truthiness of a JSON value *)
Definition truthyJSON (v : JSON) : bool :=
  match v with
  | JNull => false
  | JBool b => b
  | JNum n => negb (bool_decide (n = 0%Qc))
  | JStr s => truthy s
  | JArr _ | JObj _ => true
  end.

Definition join (sep : jsstring) (parts : list jsstring) : jsstring :=
  match parts with
  | [] => []
  | p :: ps => p ++ concat ((λ q, sep ++ q) <$> ps)
  end.

Section WithRuntime.
Context `{JsonRuntime} `{DateRuntime}.

(** [String(v)] *)
Fixpoint toString (v : JSON) : jsstring :=
  match v with
  | JNull => str "null"
  | JBool true => str "true"
  | JBool false => str "false"
  | JNum n => Number_toString n
  | JStr s => s
  | JArr items =>
      join (str ",")
        ((λ item, match item with JNull => [] | _ => toString item end)
           <$> items)
  | JObj _ => str "[object Object]"
  end.

(** [String(article[key] ?? '')] *)
Definition stringOr (article : JSON) (key : jsstring) : jsstring :=
  match getProp article key with
  | None | Some JNull => []
  | Some v => toString v
  end.

(** [article[key] ? String(article[key]) : undefined] *)
Definition stringIf (article : JSON) (key : jsstring) : option jsstring :=
  match getProp article key with
  | Some v => if truthyJSON v then Some (toString v) else None
  | None => None
  end.

(** The [map] callback of [normalizeArticles]; [t] is its reading of the
    clock. *)
Definition toRawArticle (sourceId : jsstring) (t : Z) (article : JSON)
    : RawArticle :=
  {| title := stringOr article (str "title");
     url := stringOr article (str "url");
     summary := stringIf article (str "summary");
     publishedAt := stringIf article (str "publishedAt");
     dateMetaContent := stringIf article (str "dateMetaContent");
     source := sourceId;
     collectedAt := Some (Date_toISOString t);
     fetchedAt := None;
     rawContent := None |}.

(** [clock i] is the time read by the [i]-th call of the [map] callback. *)
Definition normalizeArticles (clock : nat → Z) (articlesInput : list JSON)
    (sourceId : jsstring) : list RawArticle :=
  filter (λ a, truthy (title a) && truthy (url a) = true)
    (imap (λ i article, toRawArticle sourceId (clock i) article)
       (filter (λ a, isObject a = true) articlesInput)).

Definition getArticlesArray (parsed : JSON) : option (list JSON) :=
  match parsed with
  | JArr items => Some items
  | JObj _ =>
      match getProp parsed (str "articles") with
      | Some (JArr items) => Some items
      | _ => None
      end
  | _ => None
  end.

Definition pushCandidate (candidates : list jsstring)
    (value : option jsstring) : list jsstring :=
  match value with
  | None => candidates
  | Some v =>
      let trimmed := trim v in
      if negb (truthy trimmed) || bool_decide (trimmed ∈ candidates)
      then candidates else candidates ++ [trimmed]
  end.

Definition fence : regex := Lits (str "```").
Definition lazyBody : list regex :=
  [Star true (Cls space); Grp 1 (Star false (Cls anychar));
   Star true (Cls space); fence].

(** [/```json\s*([\s\S]*?)\s*```/gi] *)
Definition jsonFence : RegExp :=
  {| re_tree := DateParser.seq (Lits (str "```json") :: lazyBody);
     re_groups := 1; re_ignoreCase := true |}.

(** [/```(?:\w+)?\s*([\s\S]*?)\s*```/g] *)
Definition anyFence : RegExp :=
  {| re_tree := DateParser.seq (fence :: Opt (Plus (Cls word)) :: lazyBody);
     re_groups := 1; re_ignoreCase := false |}.

Definition looksLikeJson (s : jsstring) : bool :=
  startsWith (str "{") s || startsWith (str "[") s.

(** [s.indexOf(c)] and [s.lastIndexOf(c)] for one code unit *)
Fixpoint indexOf (c : N) (s : jsstring) : option nat :=
  match s with
  | [] => None
  | d :: s' => if decide (c = d) then Some 0%nat else S <$> indexOf c s'
  end.
Definition lastIndexOf (c : N) (s : jsstring) : option nat :=
  (λ i, (length s - 1 - i)%nat) <$> indexOf c (reverse s).

Definition extractJsonCandidates (result : jsstring) : list jsstring :=
  let c1 := foldl (λ cs m, pushCandidate cs (group m 1)) []
              (matchAll result jsonFence) in
  let c2 := foldl (λ cs m,
              let block := trim <$> group m 1 in
              if from_option looksLikeJson false block
              then pushCandidate cs block else cs) c1
              (matchAll result anyFence) in
  let trimmed := trim result in
  let c3 := if looksLikeJson trimmed
            then pushCandidate c2 (Some trimmed) else c2 in
  match indexOf 123 result, lastIndexOf 125 result with
  | Some firstBrace, Some lastBrace =>
      if decide (firstBrace < lastBrace)%nat
      then pushCandidate c3
             (Some (take (S lastBrace - firstBrace) (drop firstBrace result)))
      else c3
  | _, _ => c3
  end.

(** [result.replace(/\s+/g, ' ').trim().slice(0, 120)] *)
Definition buildRawPreview (result : jsstring) : jsstring :=
  take 120 (trim (Similarity.collapseSpaces result)).

(** The loop of [parseCollectionResult] over the candidates. *)
Fixpoint parseCandidates (clock : nat → Z) (candidates : list jsstring)
    (sourceId : jsstring) (parseError : jsstring)
    : list RawArticle + jsstring :=
  match candidates with
  | [] => inr parseError
  | candidate :: rest =>
      match JSON_parse candidate with
      | inl parsed =>
          match getArticlesArray parsed with
          | None =>
              parseCandidates clock rest sourceId
                (str "Response does not contain articles array")
          | Some articlesArray =>
              inl (normalizeArticles clock articlesArray sourceId)
          end
      | inr message => parseCandidates clock rest sourceId message
      end
  end.

Definition parseCollectionResult (clock : nat → Z) (result : jsstring)
    (sourceId : jsstring) : ParseResult :=
  match parseCandidates clock (extractJsonCandidates result) sourceId
          (str "Response does not contain parseable JSON") with
  | inl articles =>
      {| articles := articles; parseError := None; rawPreview := None |}
  | inr parseError =>
      {| articles := []; parseError := Some parseError;
         rawPreview := Some (buildRawPreview result) |}
  end.
End WithRuntime.

End Prompts.

(** ** SDK executor: retries by tier (collector/sdk-executor.ts) *)

Module Executor.

Record SourceRateConfig := {
  timeout : Z;
  retryInterval : Z;
  maxRetries : Z;
}.

Record RateControlConfig := {
  maxConcurrency : Z;
  defaultTimeout : Z;
  defaultRetryInterval : Z;
  defaultMaxRetries : Z;
  perSource : gmap jsstring SourceRateConfig;
}.

Definition getSourceRateConfig (sourceId : jsstring)
    (rateControl : RateControlConfig) : SourceRateConfig :=
  let perSource := perSource rateControl !! sourceId in
  {| timeout := nullish (timeout <$> perSource) (defaultTimeout rateControl);
     retryInterval :=
       nullish (retryInterval <$> perSource) (defaultRetryInterval rateControl);
     maxRetries :=
       nullish (maxRetries <$> perSource) (defaultMaxRetries rateControl) |}.

Definition getRetriesByTier (tier : SourceTier) (configuredRetries : Z) : Z :=
  match tier with
  | Tier1 => Z.max configuredRetries 3
  | Tier2 => Z.max configuredRetries 1
  | Tier3 => 0
  end.

(** The [maxRetries] that [executeWebFetch] and [executeWebSearch] hand to
    [executeWithRetry]. *)
Definition effectiveMaxRetries (sourceId : jsstring) (tier : SourceTier)
    (rateControl : RateControlConfig) : Z :=
  getRetriesByTier tier (maxRetries (getSourceRateConfig sourceId rateControl)).

(** The floor the specification gives each tier. *)
Definition tierFloor (tier : SourceTier) : Z :=
  match tier with Tier1 => 3 | Tier2 => 1 | Tier3 => 0 end.

End Executor.

(** ** Orchestrator: abort-heavy sources (index.ts) *)

Module Orchestrator.
Import Similarity.

Definition abortPhrases : list jsstring :=
  [str "aborted by user"; str "process aborted"; str "operation aborted"].

Section WithRuntime.
Context `{TextRuntime}.

(** The test of the loop body: the error counts towards its source. *)
Definition isAbortHeavy (error : CollectionError) : bool :=
  if bool_decide (ce_retryCount error < 1) then false
  else
    let normalizedMessage := String_toLowerCase (ce_message error) in
    includes normalizedMessage (str "aborted by user")
    || includes normalizedMessage (str "process aborted")
    || includes normalizedMessage (str "operation aborted").

(** [sourceIds.add(id)] on a Set kept in insertion order *)
Definition setAdd (sourceIds : list jsstring) (x : jsstring) : list jsstring :=
  if bool_decide (x ∈ sourceIds) then sourceIds else sourceIds ++ [x].

Definition findAbortHeavySourceIds (errors : list CollectionError)
    : list jsstring :=
  foldl (λ sourceIds error,
           if isAbortHeavy error then setAdd sourceIds (ce_sourceId error)
           else sourceIds)
    [] errors.
End WithRuntime.

End Orchestrator.

(** ** URL normaliser (deduplicator/url-normalizer.ts)

    A URL object is the record of its components as the URL standard keeps
    them; [href] is the serialiser of the standard. Parsing and the setters
    are the runtime's. *)

Module UrlNormalizer.
Import Similarity.

Record URL := {
  scheme : jsstring;
  username : jsstring;
  password : jsstring;
  (** serialised host; [None] is the null host *)
  host : option jsstring;
  (** decimal digits; [None] is the default port *)
  port : option jsstring;
  (** serialised path, as [pathname] returns it *)
  path : jsstring;
  query : option jsstring;
  fragment : option jsstring;
}.

Definition protocol (u : URL) : jsstring := scheme u ++ str ":".
Definition hostname (u : URL) : jsstring := nullish (host u) [].
Definition pathname (u : URL) : jsstring := path u.
Definition search (u : URL) : jsstring :=
  match query u with
  | None | Some [] => []
  | Some q => str "?" ++ q
  end.

Definition credentials (u : URL) : jsstring :=
  if truthy (username u) || truthy (password u)
  then username u
       ++ (if truthy (password u) then str ":" ++ password u else [])
       ++ str "@"
  else [].

(** [u.toString()], which is [u.href] *)
Definition href (u : URL) : jsstring :=
  scheme u ++ str ":"
  ++ match host u with
     | Some h =>
         str "//" ++ credentials u ++ h
         ++ match port u with Some p => str ":" ++ p | None => [] end
     | None => if startsWith (str "//") (path u) then str "/." else []
     end
  ++ path u
  ++ match query u with Some q => str "?" ++ q | None => [] end
  ++ match fragment u with Some f => str "#" ++ f | None => [] end.

Class UrlRuntime := {
  (** [new URL(s)]; [None] is its TypeError *)
  URL_parse : jsstring → option URL;
  URL_setProtocol : URL → jsstring → URL;
  URL_setHostname : URL → jsstring → URL;
  URL_setSearch : URL → jsstring → URL;
  URL_setHash : URL → jsstring → URL;
  URL_setPathname : URL → jsstring → URL;
  (** [new URLSearchParams(s)] as the list of its entries *)
  URLSearchParams_parse : jsstring → list (jsstring * jsstring);
  (** [params.toString()] *)
  URLSearchParams_toString : list (jsstring * jsstring) → jsstring;
  (** [None] is the URIError *)
  decodeURIComponent : jsstring → option jsstring;
  encodeURIComponent : jsstring → option jsstring;
}.

Record UrlNormalizationOptions := {
  removeParams : list jsstring;
  normalizeTrailingSlash : bool;
  lowercaseHost : bool;
}.

Definition DEFAULT_NORMALIZATION_OPTIONS : UrlNormalizationOptions :=
  {| removeParams :=
       str <$> ["utm_source"; "utm_medium"; "utm_campaign"; "utm_content";
                "utm_term"; "ref"; "source"; "via"; "fbclid"; "gclid";
                "mc_cid"; "mc_eid"; "_ga"; "_gl"; "yclid"; "msclkid"]%string;
     normalizeTrailingSlash := true;
     lowercaseHost := true |}.

(** Order of strings by code units, as [<] compares them. *)
Fixpoint strLt (a b : jsstring) : bool :=
  match a, b with
  | _, [] => false
  | [], _ :: _ => true
  | x :: a', y :: b' =>
      if decide (x < y)%N then true
      else if decide (y < x)%N then false
      else strLt a' b'
  end.

(** [String([k, v])] *)
Definition entryKey (kv : jsstring * jsstring) : jsstring :=
  kv.1 ++ str "," ++ kv.2.

(** [entries.sort()]: the default comparison orders the entries by their
    string forms and keeps equal ones in their order. *)
Fixpoint insertEntry (x : jsstring * jsstring)
    (l : list (jsstring * jsstring)) : list (jsstring * jsstring) :=
  match l with
  | [] => [x]
  | y :: l' =>
      if strLt (entryKey y) (entryKey x) then y :: insertEntry x l'
      else x :: y :: l'
  end.
Definition sortEntries (l : list (jsstring * jsstring))
    : list (jsstring * jsstring) :=
  foldr insertEntry [] l.

(** [searchParams.delete(param)] for every [param] of the option *)
Definition deleteParams (params : list jsstring)
    (entries : list (jsstring * jsstring)) : list (jsstring * jsstring) :=
  foldl (λ es param, filter (λ kv, kv.1 ≠ param) es) entries params.

(** [path.replace(/\/+/g, '/')] *)
Fixpoint collapseSlashes (s : jsstring) : jsstring :=
  match s with
  | [] => []
  | c :: s' =>
      if decide (c = 47%N) then
        match s' with
        | d :: _ => if decide (d = 47%N) then collapseSlashes s'
                    else c :: collapseSlashes s'
        | [] => [c]
        end
      else c :: collapseSlashes s'
  end.

(** [path.replace(/\/+$/, '')] *)
Fixpoint dropLeadingSlashes (s : jsstring) : jsstring :=
  match s with
  | c :: s' => if decide (c = 47%N) then dropLeadingSlashes s' else s
  | [] => []
  end.
Definition stripTrailingSlashes (s : jsstring) : jsstring :=
  reverse (dropLeadingSlashes (reverse s)).

(** [/\.[a-zA-Z0-9]+$/.test(path)]: read from the end, letters and digits,
    at least one, then a dot. *)
Fixpoint extensionFrom (seen : bool) (rev : jsstring) : bool :=
  match rev with
  | c :: rev' =>
      if isAlnum c then extensionFrom true rev'
      else seen && bool_decide (c = 46%N)
  | [] => false
  end.
Definition hasExtension (s : jsstring) : bool := extensionFrom false (reverse s).

(** [s.split('/')] *)
Fixpoint splitSlash (cur : jsstring) (s : jsstring) : list jsstring :=
  match s with
  | [] => [reverse cur]
  | c :: s' =>
      if decide (c = 47%N) then reverse cur :: splitSlash [] s'
      else splitSlash (c :: cur) s'
  end.
Definition split (s : jsstring) : list jsstring := splitSlash [] s.

(** [parts.join('/')] *)
Fixpoint joinSlash (parts : list jsstring) : jsstring :=
  match parts with
  | [] => []
  | [p] => p
  | p :: ps => p ++ 47%N :: joinSlash ps
  end.

Section WithRuntime.
Context `{UrlRuntime} `{TextRuntime}.

Definition decodeAndReencode (path : jsstring) : jsstring :=
  match decodeURIComponent path with
  | Some decoded =>
      match mapM encodeURIComponent (split decoded) with
      | Some segments => joinSlash segments
      | None => path
      end
  | None => path
  end.

(** The rewriting of the path: slashes, escapes, trailing slash. *)
Definition normalizePath (options : UrlNormalizationOptions)
    (pathname : jsstring) : jsstring :=
  let normalizedPath := collapseSlashes pathname in
  let normalizedPath := decodeAndReencode normalizedPath in
  if normalizeTrailingSlash options then
    if hasExtension normalizedPath then stripTrailingSlashes normalizedPath
    else if bool_decide (normalizedPath ≠ str "/")
    then stripTrailingSlashes normalizedPath
    else normalizedPath
  else normalizedPath.

(** The statements of [normalizeUrl] on the parsed URL, in order. *)
Definition forceHttps (u : URL) : URL :=
  if bool_decide (protocol u = str "http:")
  then URL_setProtocol u (str "https:") else u.

Definition lowerHost (options : UrlNormalizationOptions) (u : URL) : URL :=
  if lowercaseHost options
  then URL_setHostname u (String_toLowerCase (hostname u)) else u.

Definition stripWww (u : URL) : URL :=
  if startsWith (str "www.") (hostname u)
  then URL_setHostname u (drop 4 (hostname u)) else u.

Definition sortedParams (options : UrlNormalizationOptions) (u : URL)
    : list (jsstring * jsstring) :=
  sortEntries
    (deleteParams (removeParams options) (URLSearchParams_parse (search u))).

Definition cleanSearch (options : UrlNormalizationOptions) (u : URL) : URL :=
  URL_setSearch u (URLSearchParams_toString (sortedParams options u)).

Definition dropHash (u : URL) : URL := URL_setHash u [].

Definition cleanPath (options : UrlNormalizationOptions) (u : URL) : URL :=
  URL_setPathname u (normalizePath options (pathname u)).

Definition normalizeParsed (options : UrlNormalizationOptions) (u : URL)
    : URL :=
  cleanPath options
    (dropHash (cleanSearch options (stripWww (lowerHost options
       (forceHttps u))))).

(** [result.endsWith('?') ? result.slice(0, -1) : result] *)
Definition dropFinalQuestion (result : jsstring) : jsstring :=
  if endsWith (str "?") result then take (length result - 1) result
  else result.

(** [None]: the URL does not parse and the function throws. *)
Definition normalizeUrl (url : jsstring) (options : UrlNormalizationOptions)
    : option jsstring :=
  parsedUrl ← URL_parse url;
  Some (dropFinalQuestion (href (normalizeParsed options parsedUrl))).

Definition extractDomain (url : jsstring) : option jsstring :=
  parsedUrl ← URL_parse url;
  let hostname := String_toLowerCase (hostname parsedUrl) in
  Some (if startsWith (str "www.") hostname then drop 4 hostname
        else hostname).

Definition isSameDomain (url1 url2 : jsstring) : bool :=
  match extractDomain url1, extractDomain url2 with
  | Some d1, Some d2 => bool_decide (d1 = d2)
  | _, _ => false
  end.

Definition isValidUrl (url : jsstring) : bool :=
  match URL_parse url with
  | Some parsedUrl =>
      bool_decide (protocol parsedUrl = str "http:")
      || bool_decide (protocol parsedUrl = str "https:")
  | None => false
  end.
End WithRuntime.

(** *** What the URL standard guarantees

    The laws below state, for URL objects with scheme http or https, how the
    setters act on the components and that a URL object is read back from
    its [href]. [host_parse] is the host parser followed by the host
    serialiser, [path_parse] the path states of the parser followed by the
    path serialiser, [query_encode] the percent-encoding of a query. *)

Definition withScheme (u : URL) (s : jsstring) (p : option jsstring) : URL :=
  {| scheme := s; username := username u; password := password u;
     host := host u; port := p; path := path u; query := query u;
     fragment := fragment u |}.
Definition withHost (u : URL) (h : jsstring) : URL :=
  {| scheme := scheme u; username := username u; password := password u;
     host := Some h; port := port u; path := path u; query := query u;
     fragment := fragment u |}.
Definition withPath (u : URL) (p : jsstring) : URL :=
  {| scheme := scheme u; username := username u; password := password u;
     host := host u; port := port u; path := p; query := query u;
     fragment := fragment u |}.
Definition withQuery (u : URL) (q : option jsstring) : URL :=
  {| scheme := scheme u; username := username u; password := password u;
     host := host u; port := port u; path := path u; query := q;
     fragment := fragment u |}.
Definition withFragment (u : URL) (f : option jsstring) : URL :=
  {| scheme := scheme u; username := username u; password := password u;
     host := host u; port := port u; path := path u; query := query u;
     fragment := f |}.

(** The port after a change of scheme to https: the default port becomes
    null. *)
Definition httpsPort (p : option jsstring) : option jsstring :=
  if decide (p = Some (str "443")) then None else p.

(** A leading question mark of the value given to the [search] setter is
    not part of the query. *)
Definition dropQuestion (v : jsstring) : jsstring :=
  match v with
  | c :: v' => if decide (c = 63%N) then v' else v
  | [] => []
  end.

Class UrlLaws `{UrlRuntime} `{TextRuntime} := {
  host_parse : jsstring → option jsstring;
  path_parse : jsstring → jsstring;
  query_encode : jsstring → jsstring;
  (** the invariant of the URL objects with scheme http or https *)
  URL_wf : URL → Prop;

  wf_scheme u :
    URL_wf u → scheme u = str "http" ∨ scheme u = str "https";
  wf_parse s u :
    URL_parse s = Some u →
    scheme u = str "http" ∨ scheme u = str "https" → URL_wf u;
  parse_href u : URL_wf u → URL_parse (href u) = Some u;

  setProtocol_https u :
    URL_wf u → scheme u = str "http" →
    URL_setProtocol u (str "https:")
    = withScheme u (str "https") (httpsPort (port u));
  setHostname_spec u v :
    URL_wf u →
    URL_setHostname u v
    = match host_parse v with Some h => withHost u h | None => u end;
  setSearch_spec u v :
    URL_wf u →
    URL_setSearch u v
    = withQuery u (if decide (v = [])
                   then None else Some (query_encode (dropQuestion v)));
  setHash_empty u : URL_wf u → URL_setHash u [] = withFragment u None;
  setPathname_spec u v :
    URL_wf u → URL_setPathname u v = withPath u (path_parse v);

  wf_withScheme u :
    URL_wf u → scheme u = str "http" →
    URL_wf (withScheme u (str "https") (httpsPort (port u)));
  wf_withHost u v h :
    URL_wf u → host_parse v = Some h → URL_wf (withHost u h);
  wf_withQuery u v :
    URL_wf u → URL_wf (withQuery u (Some (query_encode v)));
  wf_withoutQuery u : URL_wf u → URL_wf (withQuery u None);
  wf_withoutFragment u : URL_wf u → URL_wf (withFragment u None);
  wf_withPath u v : URL_wf u → URL_wf (withPath u (path_parse v));

  (** the host of a URL object is in the form the host parser gives, which
      has no upper-case letter *)
  wf_host u :
    URL_wf u →
    ∃ h, host u = Some h ∧ host_parse h = Some h ∧ String_toLowerCase h = h;
  (** so is its path *)
  wf_path u : URL_wf u → path_parse (path u) = path u;

  (** the entries of the query of a URL object are read back from their
      serialisation *)
  searchParams_roundtrip u (entries : list (jsstring * jsstring)) :
    URL_wf u →
    entries ⊆ URLSearchParams_parse (search u) →
    URLSearchParams_toString entries ≠ [] →
    URLSearchParams_parse
      (str "?" ++ query_encode (URLSearchParams_toString entries))
    = entries;
  searchParams_empty (entries : list (jsstring * jsstring)) :
    URLSearchParams_toString entries = [] ↔ entries = [];
  searchParams_parse_empty : URLSearchParams_parse [] = [];
  query_encode_nonempty (entries : list (jsstring * jsstring)) :
    URLSearchParams_toString entries ≠ [] →
    query_encode (URLSearchParams_toString entries) ≠ [];
  searchParams_no_question (entries : list (jsstring * jsstring)) :
    head (URLSearchParams_toString entries) ≠ Some 63%N;

  (** neither a path nor a serialised query ends in a question mark *)
  path_no_final_question u :
    URL_wf u → path u ≠ [] ∧ last (path u) ≠ Some 63%N;
  query_no_final_question (entries : list (jsstring * jsstring)) :
    last (query_encode (URLSearchParams_toString entries)) ≠ Some 63%N;
}.

End UrlNormalizer.

(** ** Reference runtime

    Executable instances of the runtime classes, for running the
    definitions on concrete inputs. Dates are read and printed in the
    format of [toISOString], in UTC. *)

Module Reference.

(** Days from 1970-01-01 to the civil date [y]-[m]-[d] (proleptic
    Gregorian calendar; [m] from 1). *)
Definition daysFromCivil (y m d : Z) : Z :=
  let y' := if decide (m ≤ 2) then y - 1 else y in
  let era := y' `div` 400 in
  let yoe := y' - era * 400 in
  let mp := (m + 9) `mod` 12 in
  let doy := (153 * mp + 2) `div` 5 + d - 1 in
  let doe := yoe * 365 + yoe `div` 4 - yoe `div` 100 + doy in
  era * 146097 + doe - 719468.

(** The civil date (year, month from 1, day) of a day number. *)
Definition civilFromDays (z : Z) : Z * Z * Z :=
  let z' := z + 719468 in
  let era := z' `div` 146097 in
  let doe := z' - era * 146097 in
  let yoe := (doe - doe `div` 1460 + doe `div` 36524 - doe `div` 146096)
               `div` 365 in
  let doy := doe - (365 * yoe + yoe `div` 4 - yoe `div` 100) in
  let mp := (5 * doy + 2) `div` 153 in
  let d := doy - (153 * mp + 2) `div` 5 + 1 in
  let m := if decide (mp < 10) then mp + 3 else mp - 9 in
  let y := yoe + era * 400 in
  (if decide (m ≤ 2) then y + 1 else y, m, d).

Definition daysInMonth (y m : Z) : Z :=
  daysFromCivil (if decide (m = 12) then y + 1 else y)
                (if decide (m = 12) then 1 else m + 1) 1
  - daysFromCivil y m 1.

(** [Some n] when [s] is a run of decimal digits. *)
Definition digitsValue (s : jsstring) : option Z :=
  if forallb isDigit s && negb (bool_decide (s = []))
  then Some (parseDigits s) else None.

(** Reads [YYYY-MM-DDTHH:mm:ss.sssZ]. *)
Definition parseISO (s : jsstring) : Date :=
  if bool_decide (length s = 24%nat)
     && bool_decide (s !! 4%nat = Some 45%N)
     && bool_decide (s !! 7%nat = Some 45%N)
     && bool_decide (s !! 10%nat = Some 84%N)
     && bool_decide (s !! 13%nat = Some 58%N)
     && bool_decide (s !! 16%nat = Some 58%N)
     && bool_decide (s !! 19%nat = Some 46%N)
     && bool_decide (s !! 23%nat = Some 90%N)
  then
    y ← digitsValue (take 4 s);
    m ← digitsValue (take 2 (drop 5 s));
    d ← digitsValue (take 2 (drop 8 s));
    hh ← digitsValue (take 2 (drop 11 s));
    mm ← digitsValue (take 2 (drop 14 s));
    ss ← digitsValue (take 2 (drop 17 s));
    ms ← digitsValue (take 3 (drop 20 s));
    if bool_decide (1 ≤ m ≤ 12) && bool_decide (1 ≤ d ≤ daysInMonth y m)
       && bool_decide (hh ≤ 23) && bool_decide (mm ≤ 59)
       && bool_decide (ss ≤ 59)
    then TimeClip (daysFromCivil y m d * msPerDay
                   + hh * 3600000 + mm * 60000 + ss * 1000 + ms)
    else None
  else None.

Definition digitOf (n : Z) : N := Z.to_N (48 + n `mod` 10).

(** The decimal digits of [n], padded with zeros to [width] places. *)
Fixpoint pad (width : nat) (n : Z) : jsstring :=
  match width with
  | O => []
  | S w => pad w (n `div` 10) ++ [digitOf n]
  end.

(** Prints a time value as [toISOString] does; years outside 0..9999 take
    the expanded form with a sign and six digits. *)
Definition printISO (t : Z) : jsstring :=
  let day := t `div` msPerDay in
  let rest := t `mod` msPerDay in
  let '(y, m, d) := civilFromDays day in
  let year :=
    if decide (0 ≤ y ≤ 9999) then pad 4 y
    else (if decide (y < 0) then 45%N else 43%N) :: pad 6 (Z.abs y) in
  year ++ str "-" ++ pad 2 m ++ str "-" ++ pad 2 d ++ str "T"
  ++ pad 2 (rest `div` 3600000) ++ str ":"
  ++ pad 2 ((rest `div` 60000) `mod` 60) ++ str ":"
  ++ pad 2 ((rest `div` 1000) `mod` 60) ++ str "."
  ++ pad 3 (rest `mod` 1000) ++ str "Z".

Definition getUTC (f : DateField) (t : Z) : Z :=
  let rest := t `mod` msPerDay in
  let '(y, m, d) := civilFromDays (t `div` msPerDay) in
  match f with
  | Seconds => (rest `div` 1000) `mod` 60
  | Minutes => (rest `div` 60000) `mod` 60
  | Hours => rest `div` 3600000
  | DayOfMonth => d
  | Month => m - 1
  end.

Definition setUTC (f : DateField) (t v : Z) : Date :=
  let rest := t `mod` msPerDay in
  let '(y, m, d) := civilFromDays (t `div` msPerDay) in
  TimeClip
    match f with
    | Seconds => t + (v - getUTC Seconds t) * 1000
    | Minutes => t + (v - getUTC Minutes t) * 60000
    | Hours => t + (v - getUTC Hours t) * 3600000
    | DayOfMonth => t + (v - d) * msPerDay
    | Month =>
        (daysFromCivil (y + v `div` 12) (v `mod` 12 + 1) 1 + d - 1) * msPerDay
        + rest
    end.

#[export] Instance utcDates : DateRuntime := {
  Date_parse := parseISO;
  Date_toISOString := printISO;
  Date_LocalTZA := λ _, 0;
  Date_get := getUTC;
  Date_set := setUTC;
}.

(** Custom patterns, given as text: the table knows the text of the first
    built-in URL pattern and treats any other text as not compiling. *)
#[export] Instance tableRegExp : DateParser.RegExpRuntime := {
  RegExp_compile := λ pattern,
    if bool_decide (pattern = str "\/(\d{4})[-\/](\d{2})[-\/](\d{2})")
    then head DateParser.URL_DATE_PATTERNS else None;
}.

(** Lower case on the ASCII letters; other code units are left alone. *)
#[export] Instance asciiText : Similarity.TextRuntime := {
  String_toLowerCase := fmap RegExp.lowerASCII;
}.

(** *** URLs

    The reference URL runtime follows the URL standard on the URLs
    [http(s)://host/path?query#fragment] whose host is a domain of ASCII
    letters, digits, hyphens and dots with a last label that starts with a
    letter. It reports every other input as unparseable: other schemes,
    credentials, ports, IP addresses and internationalised hosts are not
    covered. In a query string an escape of a byte above 7F is left as it
    is written. *)

Import UrlNormalizer.

(** The hexadecimal digit of the low four bits, in upper case. *)
Definition hexDigit (n : N) : N :=
  let m := (n `mod` 16)%N in
  if decide (m < 10)%N then (48 + m)%N else (55 + m)%N.

Definition hexValue (c : N) : option N :=
  if isDigit c then Some (c - 48)%N
  else if bool_decide (65 ≤ c ≤ 70)%N then Some (c - 55)%N
  else if bool_decide (97 ≤ c ≤ 102)%N then Some (c - 87)%N
  else None.

(** [%XX] for a byte *)
Definition percentByte (b : N) : jsstring :=
  [37%N; hexDigit (b `div` 16); hexDigit (b `mod` 16)].

Definition isHighSurrogate (c : N) : bool := bool_decide (55296 ≤ c ≤ 56319)%N.
Definition isLowSurrogate (c : N) : bool := bool_decide (56320 ≤ c ≤ 57343)%N.

(** The UTF-8 bytes of a code point. *)
Definition utf8 (cp : N) : list N :=
  if decide (cp < 128)%N then [cp]
  else if decide (cp < 2048)%N then
    [(192 + cp `div` 64)%N; (128 + cp `mod` 64)%N]
  else if decide (cp < 65536)%N then
    [(224 + cp `div` 4096)%N; (128 + (cp `div` 64) `mod` 64)%N;
     (128 + cp `mod` 64)%N]
  else
    [(240 + cp `div` 262144)%N; (128 + (cp `div` 4096) `mod` 64)%N;
     (128 + (cp `div` 64) `mod` 64)%N; (128 + cp `mod` 64)%N].

Definition percentUtf8 (cp : N) : jsstring := utf8 cp ≫= percentByte.

(** The code points of a string; a lone surrogate reads as U+FFFD. *)
Fixpoint codePoints (s : jsstring) : list N :=
  match s with
  | [] => []
  | c :: rest =>
      if isHighSurrogate c then
        match rest with
        | d :: rest' =>
            if isLowSurrogate d
            then (65536 + (c - 55296) * 1024 + (d - 56320))%N
                 :: codePoints rest'
            else 65533%N :: codePoints rest
        | [] => [65533%N]
        end
      else if isLowSurrogate c then 65533%N :: codePoints rest
      else c :: codePoints rest
  end.

(** Percent-encoding of a code point: an ASCII one that [keep] accepts
    stays, every other one is written as the escapes of its UTF-8 bytes. *)
Definition encodePoint (keep : N → bool) (cp : N) : jsstring :=
  if decide (cp < 128)%N then (if keep cp then [cp] else percentByte cp)
  else percentUtf8 cp.

Definition percentEncode (keep : N → bool) (s : jsstring) : jsstring :=
  codePoints s ≫= encodePoint keep.

Definition isControlOrSpace (c : N) : bool := bool_decide (c ≤ 32 ∨ c = 127)%N.

(** The percent-encode sets of the URL standard, as the ASCII code units
    they leave alone. *)
Definition keepInFragment (c : N) : bool :=
  negb (isControlOrSpace c || bool_decide (c ∈ [34; 60; 62; 96]%N)).
Definition keepInQuery (c : N) : bool :=
  negb (isControlOrSpace c || bool_decide (c ∈ [34; 35; 60; 62; 39]%N)).
Definition keepInPath (c : N) : bool :=
  negb (isControlOrSpace c
        || bool_decide (c ∈ [34; 35; 60; 62; 63; 94; 96; 123; 125]%N)).
(** [A-Za-z0-9] and [- _ . ! ~ * ' ( )] *)
Definition keepInComponent (c : N) : bool :=
  isAlnum c || bool_decide (c ∈ [45; 95; 46; 33; 126; 42; 39; 40; 41]%N).
(** [A-Za-z0-9] and [* - . _] *)
Definition keepInForm (c : N) : bool :=
  isAlnum c || bool_decide (c ∈ [42; 45; 46; 95]%N).

Definition wellFormed (s : jsstring) : bool :=
  (fix go (s : jsstring) : bool :=
     match s with
     | [] => true
     | c :: rest =>
         if isHighSurrogate c then
           match rest with
           | d :: rest' => isLowSurrogate d && go rest'
           | [] => false
           end
         else negb (isLowSurrogate c) && go rest
     end) s.

Definition refEncodeURIComponent (s : jsstring) : option jsstring :=
  if wellFormed s then Some (percentEncode keepInComponent s) else None.

(** The code units of a code point. *)
Definition unitsOf (cp : N) : jsstring :=
  if decide (cp < 65536)%N then [cp]
  else [(55296 + (cp - 65536) `div` 1024)%N; (56320 + (cp - 65536) `mod` 1024)%N].

Definition isContinuation (b : N) : bool := bool_decide (128 ≤ b ≤ 191)%N.

(** One code point from the front of UTF-8 bytes, strictly: no overlong
    form, no surrogate, nothing above 10FFFF. *)
Definition decodeUtf8Step (bytes : list N) : option (N * list N) :=
  match bytes with
  | [] => None
  | b :: r =>
      if decide (b < 128)%N then Some (b, r)
      else if bool_decide (194 ≤ b ≤ 223)%N then
        match r with
        | c1 :: r' =>
            if isContinuation c1
            then Some (((b - 192) * 64 + (c1 - 128))%N, r') else None
        | _ => None
        end
      else if bool_decide (224 ≤ b ≤ 239)%N then
        match r with
        | c1 :: c2 :: r' =>
            let cp := ((b - 224) * 4096 + (c1 - 128) * 64 + (c2 - 128))%N in
            if isContinuation c1 && isContinuation c2
               && bool_decide (2048 ≤ cp)%N
               && negb (bool_decide (55296 ≤ cp ≤ 57343)%N)
            then Some (cp, r') else None
        | _ => None
        end
      else if bool_decide (240 ≤ b ≤ 244)%N then
        match r with
        | c1 :: c2 :: c3 :: r' =>
            let cp := ((b - 240) * 262144 + (c1 - 128) * 4096
                       + (c2 - 128) * 64 + (c3 - 128))%N in
            if isContinuation c1 && isContinuation c2 && isContinuation c3
               && bool_decide (65536 ≤ cp ≤ 1114111)%N
            then Some (cp, r') else None
        | _ => None
        end
      else None
  end.

Fixpoint decodeUtf8 (fuel : nat) (bytes : list N) : option jsstring :=
  match bytes with
  | [] => Some []
  | _ =>
      match fuel with
      | O => None
      | S fuel' =>
          '(cp, rest) ← decodeUtf8Step bytes;
          units ← decodeUtf8 fuel' rest;
          Some (unitsOf cp ++ units)
      end
  end.

(** The escapes at the front of a string, as bytes, and what follows them. *)
Fixpoint escapeRun (s : jsstring) : option (list N * jsstring) :=
  match s with
  | c :: rest =>
      if decide (c = 37%N) then
        match rest with
        | a :: b :: rest' =>
            x ← hexValue a; y ← hexValue b;
            '(bytes, after) ← escapeRun rest';
            Some ((16 * x + y)%N :: bytes, after)
        | _ => None
        end
      else Some ([], s)
  | [] => Some ([], [])
  end.

(** [decodeURIComponent]: every run of escapes must be the UTF-8 form of
    code points. *)
Fixpoint decodeComponent (fuel : nat) (s : jsstring) : option jsstring :=
  match fuel with
  | O => None
  | S fuel' =>
      match s with
      | [] => Some []
      | c :: rest =>
          if decide (c = 37%N) then
            '(bytes, after) ← escapeRun s;
            units ← decodeUtf8 (length bytes) bytes;
            tail ← decodeComponent fuel' after;
            Some (units ++ tail)
          else
            tail ← decodeComponent fuel' rest;
            Some (c :: tail)
      end
  end.

Definition refDecodeURIComponent (s : jsstring) : option jsstring :=
  decodeComponent (S (length s)) s.

(** [s.split(c)] for one code unit *)
Fixpoint splitAt (sep : N) (cur : jsstring) (s : jsstring) : list jsstring :=
  match s with
  | [] => [reverse cur]
  | c :: s' =>
      if decide (c = sep) then reverse cur :: splitAt sep [] s'
      else splitAt sep (c :: cur) s'
  end.
Definition splitOn (sep : N) (s : jsstring) : list jsstring := splitAt sep [] s.

Fixpoint joinWith (sep : N) (parts : list jsstring) : jsstring :=
  match parts with
  | [] => []
  | [p] => p
  | p :: ps => p ++ sep :: joinWith sep ps
  end.

Fixpoint takeUntil (stop : N → bool) (s : jsstring) : jsstring :=
  match s with
  | c :: s' => if stop c then [] else c :: takeUntil stop s'
  | [] => []
  end.
Fixpoint dropUntil (stop : N → bool) (s : jsstring) : jsstring :=
  match s with
  | c :: s' => if stop c then s else dropUntil stop s'
  | [] => []
  end.

(** Form decoding: [+] is a space, an escape of an ASCII byte is that
    byte, anything else stands for itself. *)
Fixpoint formDecode (s : jsstring) : jsstring :=
  match s with
  | [] => []
  | c :: rest =>
      if decide (c = 43%N) then 32%N :: formDecode rest
      else if decide (c = 37%N) then
        match rest with
        | a :: b :: rest' =>
            match hexValue a, hexValue b with
            | Some x, Some y =>
                if decide (16 * x + y < 128)%N
                then (16 * x + y)%N :: formDecode rest'
                else c :: formDecode rest
            | _, _ => c :: formDecode rest
            end
        | _ => c :: formDecode rest
        end
      else c :: formDecode rest
  end.

Definition isEq (c : N) : bool := bool_decide (c = 61%N).

Definition refSearchParamsParse (s : jsstring) : list (jsstring * jsstring) :=
  (λ piece, (formDecode (takeUntil isEq piece),
             formDecode (drop 1 (dropUntil isEq piece))))
  <$> filter (λ piece, piece ≠ []) (splitOn 38 (dropQuestion s)).

(** Form encoding: the code units of [keepInForm] stay, a space becomes
    [+], everything else is escaped. *)
Definition formEscape (s : jsstring) : jsstring :=
  (λ c, if decide (c = 32%N) then 43%N else c)
  <$> percentEncode (λ c, keepInForm c || bool_decide (c = 32%N)) s.

Definition refSearchParamsToString (entries : list (jsstring * jsstring))
    : jsstring :=
  joinWith 38 ((λ kv, formEscape kv.1 ++ 61%N :: formEscape kv.2) <$> entries).

(** ASCII tab and newline are removed from whatever is parsed. *)
Definition stripTabNewline (s : jsstring) : jsstring :=
  filter (λ c, c ∉ [9; 10; 13]%N) s.

Definition isAuthorityEnd (c : N) : bool :=
  bool_decide (c ∈ [47; 63; 35; 92]%N).
Definition isPathEnd (c : N) : bool := bool_decide (c ∈ [63; 35]%N).
Definition isHash (c : N) : bool := bool_decide (c = 35%N).
Definition isColon (c : N) : bool := bool_decide (c = 58%N).
Definition isDot (c : N) : bool := bool_decide (c = 46%N).

Definition hostChar (c : N) : bool :=
  isLower c || isDigit c || bool_decide (c = 45%N) || bool_decide (c = 46%N).

Definition lastLabel (h : jsstring) : jsstring :=
  reverse (takeUntil isDot (reverse h)).

(** A domain in lower case whose last label starts with a letter and which
    has no punycode label. *)
Definition domainLike (h : jsstring) : bool :=
  forallb hostChar h
  && match lastLabel h with c :: _ => isLower c | [] => false end
  && negb (includes h (str "xn--")).

(** The host parser on the covered hosts, with the host in lower case as
    its serialisation. *)
Definition refHostParse (v : jsstring) : option jsstring :=
  let h := RegExp.lowerASCII <$> takeUntil isAuthorityEnd (stripTabNewline v) in
  if domainLike h then Some h else None.

Definition lowered (s : jsstring) : jsstring := RegExp.lowerASCII <$> s.

Definition isSingleDot (seg : jsstring) : bool :=
  bool_decide (lowered seg ∈ [str "."; str "%2e"]).
Definition isDoubleDot (seg : jsstring) : bool :=
  bool_decide (lowered seg ∈ [str ".."; str ".%2e"; str "%2e."; str "%2e%2e"]).

(** The path states of the parser on the segments of the input: each
    segment is percent-encoded, a double-dot segment removes the one before
    it, a single-dot segment is dropped, and either leaves an empty segment
    when it is the last one. *)
Fixpoint resolveDots (out : list jsstring) (segs : list jsstring)
    : list jsstring :=
  match segs with
  | [] => out
  | seg :: rest =>
      let buffer := percentEncode keepInPath seg in
      let isLast := bool_decide (rest = []) in
      if isDoubleDot buffer then
        let out' := take (length out - 1) out in
        resolveDots (if isLast then out' ++ [[]] else out') rest
      else if isSingleDot buffer then
        resolveDots (if isLast then out ++ [[]] else out) rest
      else resolveDots (out ++ [buffer]) rest
  end.

Definition backslashToSlash (c : N) : N :=
  if decide (c = 92%N) then 47%N else c.

Definition dropSlash (s : jsstring) : jsstring :=
  match s with
  | c :: s' => if decide (c = 47%N) then s' else s
  | [] => []
  end.

(** The path of a URL with a special scheme, serialised. *)
Definition refPathParse (v : jsstring) : jsstring :=
  47%N :: joinWith 47
    (resolveDots []
       (splitOn 47 (dropSlash (backslashToSlash <$> stripTabNewline v)))).

Definition refQueryEncode (v : jsstring) : jsstring :=
  percentEncode keepInQuery (stripTabNewline v).
Definition refFragmentEncode (v : jsstring) : jsstring :=
  percentEncode keepInFragment (stripTabNewline v).

(** Leading and trailing C0 controls and spaces are not part of a URL. *)
Fixpoint dropControls (s : jsstring) : jsstring :=
  match s with
  | c :: s' => if bool_decide (c ≤ 32)%N then dropControls s' else s
  | [] => []
  end.
Definition trimControls (s : jsstring) : jsstring :=
  reverse (dropControls (reverse (dropControls s))).

Definition isWebScheme (s : jsstring) : bool :=
  bool_decide (s = str "http") || bool_decide (s = str "https").

(** The query and the fragment, from what follows the path. *)
Definition refQueryOf (r : jsstring) : option jsstring :=
  if startsWith (str "?") r
  then Some (refQueryEncode (takeUntil isHash (drop 1 r))) else None.

Definition refFragmentOf (r : jsstring) : option jsstring :=
  let r' := dropUntil isHash r in
  if startsWith (str "#") r' then Some (refFragmentEncode (drop 1 r'))
  else None.

(** What follows [scheme://]: host, path, query, fragment. *)
Definition refParseHier (sch : jsstring) (r : jsstring) : option URL :=
  h ← refHostParse r;
  let r1 := dropUntil isAuthorityEnd r in
  let r2 := dropUntil isPathEnd r1 in
  Some {| scheme := sch; username := []; password := [];
          host := Some h; port := None;
          path := refPathParse (takeUntil isPathEnd r1);
          query := refQueryOf r2;
          fragment := refFragmentOf r2 |}.

Definition refParse (s : jsstring) : option URL :=
  let input := stripTabNewline (trimControls s) in
  let sch := lowered (takeUntil isColon input) in
  let rest := dropUntil isColon input in
  if isWebScheme sch && startsWith (str "://") rest
  then refParseHier sch (drop 3 rest) else None.

Definition defaultPort (sch : jsstring) : option jsstring :=
  if decide (sch = str "https") then Some (str "443") else Some (str "80").

Definition refSetProtocol (u : URL) (v : jsstring) : URL :=
  let sch := lowered (takeUntil isColon (stripTabNewline v)) in
  if isWebScheme sch && isWebScheme (scheme u)
  then withScheme u sch
         (if decide (port u = defaultPort sch) then None else port u)
  else u.

Definition refSetHostname (u : URL) (v : jsstring) : URL :=
  match refHostParse v with
  | Some h => withHost u h
  | None => u
  end.

Definition refSetSearch (u : URL) (v : jsstring) : URL :=
  withQuery u (if decide (v = []) then None
               else Some (refQueryEncode (dropQuestion v))).

Definition dropHashSign (v : jsstring) : jsstring :=
  match v with
  | c :: v' => if decide (c = 35%N) then v' else v
  | [] => []
  end.

Definition refSetHash (u : URL) (v : jsstring) : URL :=
  withFragment u (if decide (v = []) then None
                  else Some (refFragmentEncode (dropHashSign v))).

Definition refSetPathname (u : URL) (v : jsstring) : URL :=
  withPath u (refPathParse v).

#[export] Instance webUrls : UrlRuntime := {
  URL_parse := refParse;
  URL_setProtocol := refSetProtocol;
  URL_setHostname := refSetHostname;
  URL_setSearch := refSetSearch;
  URL_setHash := refSetHash;
  URL_setPathname := refSetPathname;
  URLSearchParams_parse := refSearchParamsParse;
  URLSearchParams_toString := refSearchParamsToString;
  decodeURIComponent := refDecodeURIComponent;
  encodeURIComponent := refEncodeURIComponent;
}.

End Reference.

(** ** Example data *)

Module Examples.
Import HistoryStore Executor.

(** Monday 2024-01-15T10:00:00.000Z *)
Definition monday : Z := 1705312800000.

(** One stored row whose [published_at] is already filled. *)
Definition storedRow : HistoryRow :=
  {| id := 1;
     url := str "https://example.com/article";
     normalized_url := str "https://example.com/article";
     title := str "Test Article";
     first_seen_at := str "2024-01-15T10:00:00.000Z";
     last_seen_at := str "2024-01-15T10:00:00.000Z";
     published_at := Some (str "2024-01-10T08:00:00.000Z");
     date_confidence := Some high;
     source := str "test_source";
     title_hash := None;
     content_hash := None |}.

Definition storedDb : Database := {| rows := [storedRow]; lastRowid := 1 |}.

(** A later sighting of the same URL that carries another publication date. *)
Definition resighting : HistoryEntry :=
  {| he_id := None;
     he_url := str "https://example.com/article";
     he_normalizedUrl := str "https://example.com/article";
     he_title := str "Test Article";
     he_firstSeenAt := str "2024-01-20T10:00:00.000Z";
     he_lastSeenAt := str "2024-01-20T10:00:00.000Z";
     he_publishedAt := Some (str "2024-01-11T08:00:00.000Z");
     he_dateConfidence := Some medium;
     he_source := str "test_source";
     he_titleHash := None;
     he_contentHash := None |}.

(** An article that carries no date: none in its fields, none in its URL;
    its [dateMetaContent] holds a relative time. *)
Definition undatedArticle : Deduplicator.DedupArticle :=
  {| Deduplicator.raw :=
       {| Types.url := str "https://example.com/blog/new-model";
          Types.title := str "A new model";
          summary := None;
          Types.source := str "example_blog";
          fetchedAt := None;
          collectedAt := Some (str "2024-01-15T09:00:00.000Z");
          publishedAt := None;
          rawContent := None;
          dateMetaContent := Some (str "3 hours ago") |};
     Deduplicator.normalizedUrl := str "https://example.com/blog/new-model";
     Deduplicator.similarityScore := None |}.

(** An article published well before any window of that week. *)
Definition staleArticle : Deduplicator.DedupArticle :=
  {| Deduplicator.raw :=
       {| Types.url := str "https://example.com/blog/old-model";
          Types.title := str "An old model";
          summary := None;
          Types.source := str "example_blog";
          fetchedAt := None;
          collectedAt := Some (str "2024-01-15T09:00:00.000Z");
          publishedAt := Some (str "2023-12-01T00:00:00.000Z");
          rawContent := None;
          dateMetaContent := None |};
     Deduplicator.normalizedUrl := str "https://example.com/blog/old-model";
     Deduplicator.similarityScore := None |}.

(** Two retries configured by default, no per-source override. *)
Definition twoRetries : RateControlConfig :=
  {| maxConcurrency := 3; defaultTimeout := 30000;
     defaultRetryInterval := 1000; defaultMaxRetries := 2;
     perSource := ∅ |}.

(** The date methods of a run: the blog's dates are read from its URLs,
    with the built-in patterns. *)
Definition blogMethods : gmap jsstring DateMethodConfig :=
  {[ str "example_blog" :=
       {| dm_type := url_parse; dm_selector := None; dm_pattern := None |} ]}.

(** A source configured with a date pattern that is no regular
    expression (its group is never closed), and an article of it. *)
Definition brokenMethods : gmap jsstring DateMethodConfig :=
  {[ str "broken_feed" :=
       {| dm_type := url_parse; dm_selector := None;
          dm_pattern := Some (str "(") |} ]}.

Definition brokenFeedArticle : Deduplicator.DedupArticle :=
  {| Deduplicator.raw :=
       {| Types.url := str "https://feed.example.org/2024/01/15/post";
          Types.title := str "A post of the feed";
          summary := None;
          Types.source := str "broken_feed";
          fetchedAt := None;
          collectedAt := Some (str "2024-01-15T09:00:00.000Z");
          publishedAt := None;
          rawContent := None;
          dateMetaContent := None |};
     Deduplicator.normalizedUrl := str "https://feed.example.org/2024/01/15/post";
     Deduplicator.similarityScore := None |}.

End Examples.

(** ** History store: maintenance (deduplicator/history-store.ts)

    [cleanup] deletes by a comparison of TEXT values, which is SQLite's. *)

Module HistoryMaintenance.
Import HistoryStore.

(** [a < b] on two TEXT values under the BINARY collation of the table. *)
Class SqliteRuntime := {
  TEXT_lt : jsstring → jsstring → bool;
}.

Section WithRuntime.
Context `{DateRuntime} `{SqliteRuntime}.

(** [new Date(now.getTime() - retentionDays * 24 * 60 * 60 * 1000)
    .toISOString()]; [None] is the RangeError of an Invalid Date. *)
Definition calculateCutoffDate (retentionDays : Z) (now : Z)
    : option jsstring :=
  toISOString (ofNumber (Some (now - retentionDays * 24 * 60 * 60 * 1000))).

(** [DELETE FROM history WHERE first_seen_at < ?] *)
Definition deleted (cutoffDate : jsstring) (row : HistoryRow) : bool :=
  TEXT_lt (first_seen_at row) cutoffDate.

(** [cleanup(beforeDate)]: the database afterwards and [result.changes];
    [now] is the clock read by [calculateCutoffDate]. *)
Definition cleanup (db : Database) (retentionDays : Z) (now : Z)
    (beforeDate : option jsstring) : option (Database * Z) :=
  cutoffDate ←
    match beforeDate with
    | Some d => Some d
    | None => calculateCutoffDate retentionDays now
    end;
  Some ({| rows := filter (λ row, deleted cutoffDate row = false) (rows db);
           lastRowid := lastRowid db |},
        Z.of_nat (length (filter (λ row, deleted cutoffDate row = true)
                            (rows db)))).
End WithRuntime.

(** The BINARY collation: the UTF-8 encodings compared byte by byte, a
    proper prefix first. *)
Definition textBytes (s : jsstring) : list N :=
  Reference.codePoints s ≫= Reference.utf8.

#[export] Instance binaryCollation : SqliteRuntime := {
  TEXT_lt a b := UrlNormalizer.strLt (textBytes a) (textBytes b);
}.

End HistoryMaintenance.

(** ** Similarity: edit distance and title hash
    (deduplicator/similarity.ts) *)

Module TitleMetrics.
Import Similarity.

(** One cell of the Wagner-Fischer table: [Math.min(deletion + 1,
    insertion + 1, substitution + cost)]. *)
Definition cell (deletion insertion substitution cost : nat) : nat :=
  Nat.min (deletion + 1) (Nat.min (insertion + 1) (substitution + cost)).

(** The inner loop over [j], for the code unit [c] of [s1]: [rest] is what
    is left of [s2] from index [j - 1] on, [left] is [currRow[j - 1]]. *)
Fixpoint fillRow (c : N) (rest : jsstring) (j : nat) (prevRow : list nat)
    (left : nat) : list nat :=
  match rest with
  | [] => []
  | d :: rest' =>
      let cost := if decide (c = d) then 0%nat else 1%nat in
      let deletion := default 0%nat (prevRow !! j) in
      let insertion := left in
      let substitution := default 0%nat (prevRow !! (j - 1)%nat) in
      let v := cell deletion insertion substitution cost in
      v :: fillRow c rest' (S j) prevRow v
  end.

(** The row written for index [i]: [currRow[0] = i], then the inner loop. *)
Definition nextRow (c : N) (i : nat) (prevRow : list nat) (s2 : jsstring)
    : list nat :=
  i :: fillRow c s2 1 prevRow i.

(** The outer loop over [i]; the two rows change places after each pass. *)
Fixpoint rowsLoop (rest : jsstring) (i : nat) (prevRow : list nat)
    (s2 : jsstring) : list nat :=
  match rest with
  | [] => prevRow
  | c :: rest' => rowsLoop rest' (S i) (nextRow c i prevRow s2) s2
  end.

(** [distance]: the last cell of the last row. *)
Definition distance (s1 s2 : jsstring) : nat :=
  let n := length s2 in
  let prevRow := seq 0 (S n) in
  default 0%nat (rowsLoop s1 1 prevRow s2 !! n).

(** [Math.abs], [ToInt32] and [Number.prototype.toString(16)] on integers. *)
Definition toInt32 (z : Z) : Z := (z + 2147483648) `mod` 4294967296 - 2147483648.

Definition lowerHexDigit (d : Z) : N :=
  Z.to_N (if decide (d < 10) then 48 + d else 87 + d).

Fixpoint hexFrom (fuel : nat) (n : Z) (acc : jsstring) : jsstring :=
  match fuel with
  | O => acc
  | S fuel' =>
      if decide (n ≤ 0) then acc
      else hexFrom fuel' (n `div` 16) (lowerHexDigit (n `mod` 16) :: acc)
  end.

(** [n.toString(16)] for an integer [n] that is not negative. *)
Definition toHex (n : Z) : jsstring :=
  if decide (n ≤ 0) then str "0" else hexFrom (S (Z.to_nat (Z.log2 n))) n [].

(** The body of the loop of [calculateTitleHash]:
    [hash = ((hash << 5) + hash) + c; hash = hash & hash]. *)
Definition hashStep (hash : Z) (c : N) : Z :=
  toInt32 (toInt32 (toInt32 hash * 32) + hash + Z.of_N c).

Section WithRuntime.
Context `{TextRuntime}.

(** The quotient is an exact rational here, as for the Jaccard
    similarity; the double the source returns is its rounding. *)
Definition calculateLevenshteinDistance (text1 text2 : jsstring) : Qc :=
  let s1 := normalizeText text1 in
  let s2 := normalizeText text2 in
  if decide (s1 = s2) then 0%Qc
  else if decide (length s1 = 0%nat) then 1%Qc
  else if decide (length s2 = 0%nat) then 1%Qc
  else
    let m := length s1 in
    let n := length s2 in
    (Qc_of_Z (Z.of_nat (distance s1 s2))
     / Qc_of_Z (Z.of_nat (Nat.max m n)))%Qc.

Definition calculateTitleHash (title : jsstring) : jsstring :=
  let normalized := normalizeText title in
  let hash := foldl hashStep 5381 normalized in
  toHex (Z.abs hash).
End WithRuntime.

End TitleMetrics.

(** ** The URL and history stages of the deduplicator, and the update of
    the history (deduplicator/index.ts) *)

Module DeduplicatorStages.
Import UrlNormalizer HistoryStore Deduplicator Similarity TitleMetrics.

Section WithRuntime.
Context `{UrlRuntime} `{TextRuntime} `{DateRuntime}.

(** [{ ...article, normalizedUrl }] *)
Definition withNormalizedUrl (article : RawArticle)
    (normalizedUrl : jsstring) : DedupArticle :=
  {| raw := article; normalizedUrl := normalizedUrl;
     similarityScore := None |}.

(** The loop of [deduplicateByUrl]; [seen] is the set of the same name.
    When [normalizeUrl] throws, the URL of the article stands in for the
    normalised one. *)
Fixpoint deduplicateByUrlFrom (urlNormalization : UrlNormalizationOptions)
    (seen : gset jsstring) (articles : list RawArticle)
    : list DedupArticle :=
  match articles with
  | [] => []
  | article :: rest =>
      match normalizeUrl (Types.url article) urlNormalization with
      | Some normalizedUrl =>
          if decide (normalizedUrl ∈ seen)
          then deduplicateByUrlFrom urlNormalization seen rest
          else withNormalizedUrl article normalizedUrl
               :: deduplicateByUrlFrom urlNormalization
                    ({[ normalizedUrl ]} ∪ seen) rest
      | None =>
          if decide (Types.url article ∈ seen)
          then deduplicateByUrlFrom urlNormalization seen rest
          else withNormalizedUrl article (Types.url article)
               :: deduplicateByUrlFrom urlNormalization
                    ({[ Types.url article ]} ∪ seen) rest
      end
  end.

Definition deduplicateByUrl (urlNormalization : UrlNormalizationOptions)
    (articles : list RawArticle) : list DedupArticle :=
  deduplicateByUrlFrom urlNormalization ∅ articles.

(** The [historyEntry: undefined] that the [map] adds is read nowhere. *)
Definition deduplicateByHistory (db : Database)
    (articles : list DedupArticle) : list DedupArticle :=
  let urls := normalizedUrl <$> articles in
  let existingUrls := findExistingUrls db urls in
  filter (λ article, normalizedUrl article ∉ existingUrls) articles.

(** The [map] callback of [updateHistory]; [now] is the text of
    [new Date().toISOString()]. *)
Definition toHistoryEntry (now : jsstring) (article : FilteredArticle)
    : HistoryEntry :=
  {| he_id := None;
     he_url := Types.url (raw (fa_article article));
     he_normalizedUrl := normalizedUrl (fa_article article);
     he_title := Types.title (raw (fa_article article));
     he_firstSeenAt := now;
     he_lastSeenAt := now;
     he_publishedAt := fa_publishedAt article;
     he_dateConfidence := Some (fa_dateConfidence article);
     he_source := Types.source (raw (fa_article article));
     he_titleHash :=
       Some (calculateTitleHash (Types.title (raw (fa_article article))));
     he_contentHash := None |}.

(** [clock] is the time value read by [new Date()]. *)
Definition updateHistory (db : Database) (clock : Z)
    (articles : list FilteredArticle) : Database :=
  let now := Date_toISOString clock in
  let entries := toHistoryEntry now <$> articles in
  (bulkUpsert db entries).1.
End WithRuntime.

End DeduplicatorStages.

(** ** SDK executor: retries (collector/sdk-executor.ts) *)

Module SdkExecutor.
Import Similarity UrlNormalizer Executor.

Inductive CollectMethod := WebFetch | WebSearch.

(** [SourceConfig] of types/index.ts *)
Record SourceConfig := {
  sc_id : jsstring;
  sc_name : jsstring;
  sc_tier : SourceTier;
  sc_enabled : bool;
  sc_collectMethod : CollectMethod;
  sc_url : option jsstring;
  sc_query : option jsstring;
  sc_accounts : option (list jsstring);
  sc_dateMethod : DateMethod;
  sc_dateSelector : option jsstring;
  sc_datePattern : option jsstring;
  sc_maxArticles : Z;
}.

Record ExecutorOptions := {
  eo_rateControl : RateControlConfig;
  eo_model : option jsstring;
  eo_maxTurns : option Z;
  eo_permissionMode : option jsstring;
  eo_timeout : option Z;
}.

Record ExecutionResult := {
  success : bool;
  content : jsstring;
  error : option CollectionError;
}.

(** What one run of the executor did besides returning: how often it
    called the SDK, and what it slept between the calls. *)
Record Execution := {
  result : ExecutionResult;
  calls : nat;
  sleeps : list Z;
}.

(** The call of the Agent SDK is the world's: for a prompt, the options,
    the timeout and the tools, the outcome of the call made after [k]
    earlier ones is the text of a success result, or the message of the
    error the call is rejected with. *)
Class SdkRuntime := {
  invokeSDK :
    jsstring → ExecutorOptions → Z → list jsstring → nat
    → jsstring + jsstring;
}.

Section WithRuntime.
Context `{UrlRuntime} `{TextRuntime} `{DateRuntime} `{SdkRuntime}.

Definition validateUrl (url : jsstring) : bool :=
  match URL_parse url with
  | Some parsed =>
      bool_decide (protocol parsed ∈ [str "http:"; str "https:"])
  | None => false
  end.

(** [error] is the message of the Error, [None] for [null]. *)
Definition classifyError (error : option jsstring) : ErrorType :=
  match error with
  | None => err_unknown
  | Some errorMessage =>
      let message := String_toLowerCase errorMessage in
      if includes message (str "timeout") || includes message (str "abort")
         || includes message (str "aborted by user")
      then err_timeout
      else if includes message (str "network")
              || includes message (str "fetch")
              || includes message (str "connect")
      then err_network
      else if includes message (str "rate") || includes message (str "limit")
              || includes message (str "429")
      then err_rate_limit
      else if includes message (str "parse") || includes message (str "json")
      then err_parse
      else err_unknown
  end.

(** The loop of [executeWithRetry] from [attempt] on, with [remaining]
    passes left; [fn k] is the outcome of the call of [fn] in pass [k]. *)
Fixpoint retryFrom (remaining : nat) (attempt : nat)
    (fn : nat → jsstring + jsstring) (sourceId : jsstring)
    (maxRetries retryInterval : Z) (clock : Z)
    (lastError : option jsstring) (slept : list Z) : Execution :=
  match remaining with
  | O =>
      {| result :=
           {| success := false; content := [];
              error :=
                Some {| ce_sourceId := sourceId;
                        ce_errorType := classifyError lastError;
                        ce_message := nullish lastError (str "Unknown error");
                        ce_timestamp := Date_toISOString clock;
                        ce_retryCount := maxRetries |} |};
         calls := attempt; sleeps := slept |}
  | S remaining' =>
      match fn attempt with
      | inl content =>
          {| result := {| success := true; content := content;
                          error := None |};
             calls := S attempt; sleeps := slept |}
      | inr message =>
          retryFrom remaining' (S attempt) fn sourceId maxRetries
            retryInterval clock (Some message)
            (if decide (Z.of_nat attempt < maxRetries)
             then slept ++ [retryInterval] else slept)
      end
  end.

(** [for (attempt = 0; attempt <= maxRetries; attempt++)]; [clock] is the
    time read for the time stamp of the error. *)
Definition executeWithRetry (fn : nat → jsstring + jsstring)
    (sourceId : jsstring) (maxRetries retryInterval : Z) (clock : Z)
    : Execution :=
  retryFrom (Z.to_nat (maxRetries + 1)) 0 fn sourceId maxRetries
    retryInterval clock None [].

Definition newlines : jsstring := [10; 10]%N.

Definition executeWebFetch (url prompt : jsstring) (source : SourceConfig)
    (options : ExecutorOptions) (clock : Z) : Execution :=
  if negb (validateUrl url) then
    {| result :=
         {| success := false; content := [];
            error :=
              Some {| ce_sourceId := sc_id source;
                      ce_errorType := err_parse;
                      ce_message := str "Invalid URL: " ++ url;
                      ce_timestamp := Date_toISOString clock;
                      ce_retryCount := 0 |} |};
       calls := 0; sleeps := [] |}
  else
    let sourceRateConfig :=
      getSourceRateConfig (sc_id source) (eo_rateControl options) in
    let maxRetries :=
      getRetriesByTier (sc_tier source) (maxRetries sourceRateConfig) in
    let timeout :=
      Z.max (timeout sourceRateConfig) (nullish (eo_timeout options) 0) in
    executeWithRetry
      (invokeSDK
         (str "Use the WebFetch tool to fetch content from the following URL."
          ++ newlines ++ str "URL: " ++ url ++ newlines ++ prompt)
         options timeout [str "WebFetch"])
      (sc_id source) maxRetries (retryInterval sourceRateConfig) clock.

Definition executeWebSearch (searchQuery prompt : jsstring)
    (source : SourceConfig) (options : ExecutorOptions) (clock : Z)
    : Execution :=
  let sourceRateConfig :=
    getSourceRateConfig (sc_id source) (eo_rateControl options) in
  let maxRetries :=
    getRetriesByTier (sc_tier source) (maxRetries sourceRateConfig) in
  let timeout :=
    Z.max (timeout sourceRateConfig) (nullish (eo_timeout options) 0) in
  executeWithRetry
    (invokeSDK
       (str "Use the WebSearch tool to search for information."
        ++ newlines ++ str "Search Query: " ++ searchQuery ++ newlines
        ++ prompt)
       options timeout [str "WebSearch"])
    (sc_id source) maxRetries (retryInterval sourceRateConfig) clock.
End WithRuntime.

End SdkExecutor.

(** ** Collector and query generator: chunks and queries of a source
       (collector/index.ts, query-generator/index.ts) *)

Module Collection.

(** [GeneratedQuery]; the two weights are JavaScript numbers. *)
Record GeneratedQuery := {
  query : jsstring;
  groupId : jsstring;
  groupName : jsstring;
  baseWeight : PrimFloat.float;
  finalWeight : PrimFloat.float;
  keywords : list jsstring;
}.

Section Chunks.
Context {T : Type}.

(** [array.slice(start, end)]: a negative index counts from the end, and
    both are clamped to the array. *)
Definition sliceIndex (len index : Z) : Z :=
  if decide (index < 0) then Z.max (len + index) 0 else Z.min index len.

Definition slice (array : list T) (start finish : Z) : list T :=
  let len := Z.of_nat (length array) in
  let from := sliceIndex len start in
  take (Z.to_nat (sliceIndex len finish - from)) (drop (Z.to_nat from) array).

(** The loop of [chunkArray] from index [i]; [fuel] bounds the number of
    passes, and [None] says that it was used up with the loop still
    running. *)
Fixpoint chunkLoop (fuel : nat) (array : list T) (size i : Z)
    (chunks : list (list T)) : option (list (list T)) :=
  if decide (i < Z.of_nat (length array)) then
    match fuel with
    | O => None
    | S fuel' =>
        chunkLoop fuel' array size (i + size)
          (chunks ++ [slice array i (i + size)])
    end
  else Some chunks.

(** [None]: the loop does not end. A loop that ends has made at most
    [array.length] passes. *)
Definition chunkArray (array : list T) (size : Z) : option (list (list T)) :=
  chunkLoop (length array) array size 0 [].
End Chunks.

(** The loop shared by [Collector.getQueriesForSource] and
    [QueryGenerator.getQueriesForSource]. *)
Fixpoint selectQueries (maxPerSource : Z) (queries : list GeneratedQuery)
    (selectedGroups : gset jsstring) (result : list GeneratedQuery)
    : list GeneratedQuery :=
  match queries with
  | [] => result
  | query :: rest =>
      if decide (maxPerSource ≤ Z.of_nat (length result)) then result
      else if decide (groupId query ∈ selectedGroups)
      then selectQueries maxPerSource rest selectedGroups result
      else selectQueries maxPerSource rest
             ({[groupId query]} ∪ selectedGroups) (result ++ [query])
  end.

(** [Collector.getQueriesForSource], on the collector's [queries] *)
Definition getQueriesForSource (queries : list GeneratedQuery)
    : list GeneratedQuery :=
  selectQueries 5 queries ∅ [].

(** [QueryGenerator.getQueriesForSource]; [maxPerSource] is
    [config.selection.maxPerSource], a whole number. The source id is not
    read. *)
Definition getQueriesForSourceOf (maxPerSource : Z) (sourceId : jsstring)
    (queries : list GeneratedQuery) : list GeneratedQuery :=
  selectQueries maxPerSource queries ∅ [].

End Collection.

(** ** Configuration loader: switching sources off (config/loader.ts)

    The file is modelled by the [SourcesConfig] document it holds, which
    [JSON.stringify] followed by [JSON.parse] gives back; [None] is a file
    that cannot be read as one, on which [loadJson] throws. *)

Module ConfigLoader.
Import Executor Orchestrator SdkExecutor.

Record SourcesConfig := {
  sources : list SourceConfig;
  rateControl : RateControlConfig;
}.

(** [source.enabled = false] *)
Definition switchOff (source : SourceConfig) : SourceConfig :=
  {| sc_id := sc_id source; sc_name := sc_name source;
     sc_tier := sc_tier source; sc_enabled := false;
     sc_collectMethod := sc_collectMethod source; sc_url := sc_url source;
     sc_query := sc_query source; sc_accounts := sc_accounts source;
     sc_dateMethod := sc_dateMethod source;
     sc_dateSelector := sc_dateSelector source;
     sc_datePattern := sc_datePattern source;
     sc_maxArticles := sc_maxArticles source |}.

(** The loop over [sourcesConfig.sources]: the sources as it leaves them,
    and [disabled]. *)
Fixpoint disableLoop (targetIds : list jsstring) (sources : list SourceConfig)
    (disabled : list jsstring) : list SourceConfig * list jsstring :=
  match sources with
  | [] => ([], disabled)
  | source :: rest =>
      if bool_decide (sc_id source ∈ targetIds) && sc_enabled source
      then
        let '(rest', disabled') :=
          disableLoop targetIds rest (disabled ++ [sc_id source]) in
        (switchOff source :: rest', disabled')
      else
        let '(rest', disabled') := disableLoop targetIds rest disabled in
        (source :: rest', disabled')
  end.

(** [disableSources sourceIds file] is [None] when the call throws, and
    otherwise the ids returned with the document the file holds after the
    call. *)
Definition disableSources (sourceIds : list jsstring)
    (file : option SourcesConfig)
    : option (list jsstring * option SourcesConfig) :=
  let uniqueIds := foldl setAdd [] sourceIds in
  if decide (length uniqueIds = 0%nat) then Some ([], file)
  else
    sourcesConfig ← file;
    let '(sources', disabled) :=
      disableLoop uniqueIds (sources sourcesConfig) [] in
    if decide (0 < length disabled)%nat
    then Some (disabled,
               Some {| sources := sources';
                       rateControl := rateControl sourcesConfig |})
    else Some (disabled, file).

End ConfigLoader.

(** ** The similarity stage and the whole pipeline
       (deduplicator/similarity.ts, deduplicator/index.ts)

    The scores are JavaScript numbers, that is binary64 floats, and are
    compared with the thresholds as such. *)

Module SimilarityStage.
Import Similarity TitleMetrics UrlNormalizer HistoryStore DateParser.
Import Deduplicator DeduplicatorStages.

#[local] Set Warnings "-inexact-float".

Abbreviation number := float (only parsing).

(** The number of a length or of a size; it is exact below 2^53. *)
Definition toNumber (n : nat) : number :=
  of_uint63 (Uint63.of_Z (Z.of_nat n)).

(** A field is [None] when the configuration leaves it out. *)
Record Threshold := {
  jaccard_gte : option number;
  levenshtein_lte : option number;
}.

Record Layer2Fallback := {
  same_domain : option number;
  cross_domain : option number;
}.

(** [DedupThresholds]; its [metric_definitions] are read nowhere. *)
Record DedupThresholds := {
  thresholds : gmap jsstring Threshold;
  layer2_fallback : gmap jsstring Layer2Fallback;
}.

(** The properties every object inherits from [Object.prototype]. *)
Definition objectPrototypeNames : list jsstring :=
  [str "constructor"; str "__defineGetter__"; str "__defineSetter__";
   str "hasOwnProperty"; str "__lookupGetter__"; str "__lookupSetter__";
   str "isPrototypeOf"; str "propertyIsEnumerable"; str "toString";
   str "valueOf"; str "__proto__"; str "toLocaleString"].

(** [record[key]] on an object read from JSON: [Some (Some v)] is a
    property of the object itself, [Some None] one it inherits, whose value
    has none of the fields read here, and [None] is [undefined]. *)
Definition getProperty {V} (record : gmap jsstring V) (key : jsstring)
    : option (option V) :=
  match record !! key with
  | Some v => Some (Some v)
  | None =>
      if bool_decide (key ∈ objectPrototypeNames) then Some None else None
  end.

(** [a ?? b] *)
Definition orElse {A} (a b : option A) : option A :=
  match a with Some _ => a | None => b end.

Record SimilarityResult := {
  jaccard : number;
  levenshtein : number;
  isDuplicate : bool;
  category : jsstring;
}.

Section WithRuntime.
Context `{UrlRuntime} `{TextRuntime}.

(** [calculateJaccardSimilarity], with the number it returns *)
Definition calculateJaccardSimilarityNumber (text1 text2 : jsstring)
    : number :=
  let tokens1 := tokenize text1 in
  let tokens2 := tokenize text2 in
  if bool_decide (size tokens1 = 0%nat) && bool_decide (size tokens2 = 0%nat)
  then 1%float
  else if bool_decide (size tokens1 = 0%nat)
          || bool_decide (size tokens2 = 0%nat)
  then 0%float
  else
    let intersection : gset jsstring := filter (λ x, x ∈ tokens2) tokens1 in
    let union : gset jsstring := tokens1 ∪ tokens2 in
    (toNumber (size intersection) / toNumber (size union))%float.

(** [calculateLevenshteinDistance], with the number it returns *)
Definition calculateLevenshteinDistanceNumber (text1 text2 : jsstring)
    : number :=
  let s1 := normalizeText text1 in
  let s2 := normalizeText text2 in
  if decide (s1 = s2) then 0%float
  else if decide (length s1 = 0%nat) then 1%float
  else if decide (length s2 = 0%nat) then 1%float
  else
    let m := length s1 in
    let n := length s2 in
    (toNumber (distance s1 s2) / toNumber (Nat.max m n))%float.

Definition detectCategory (source url : jsstring) : jsstring :=
  if includes source (str "arxiv") then str "arxiv"
  else if includes source (str "news") || includes source (str "techcrunch")
  then str "news"
  else if includes source (str "blog") || includes source (str "qiita")
          || includes source (str "zenn")
  then str "blog"
  else
    match URL_parse url with
    | Some parsedUrl =>
        let hostname := String_toLowerCase (hostname parsedUrl) in
        if includes hostname (str "arxiv") then str "arxiv"
        else if includes hostname (str "techcrunch")
                || includes hostname (str "wired")
                || includes hostname (str "theverge")
        then str "news"
        else if includes hostname (str "qiita")
                || includes hostname (str "zenn")
                || includes hostname (str "dev.to")
                || includes hostname (str "medium")
        then str "blog"
        else str "default"
    | None => str "default"
    end.

Definition checkSimilarity (title1 title2 : jsstring)
    (thresholds : DedupThresholds) (source url : jsstring)
    : SimilarityResult :=
  let jaccard := calculateJaccardSimilarityNumber title1 title2 in
  let levenshtein := calculateLevenshteinDistanceNumber title1 title2 in
  let category := detectCategory source url in
  let threshold :=
    orElse (getProperty (SimilarityStage.thresholds thresholds) category)
      (getProperty (SimilarityStage.thresholds thresholds) (str "default")) in
  let jaccardThreshold :=
    default 0.7%float (threshold ≫= (λ t, t ≫= jaccard_gte)) in
  let levenshteinThreshold :=
    default 0.3%float (threshold ≫= (λ t, t ≫= levenshtein_lte)) in
  let isDuplicate :=
    (jaccardThreshold <=? jaccard)%float
    || (levenshtein <=? levenshteinThreshold)%float in
  {| jaccard := jaccard; levenshtein := levenshtein;
     isDuplicate := isDuplicate; category := category |}.

Definition checkLayer2Similarity (title1 title2 : jsstring)
    (isSameDomain : bool) (thresholds : DedupThresholds) (source : jsstring)
    : bool :=
  let jaccard := calculateJaccardSimilarityNumber title1 title2 in
  let fallback :=
    orElse (getProperty (layer2_fallback thresholds) source)
      (getProperty (layer2_fallback thresholds) (str "default")) in
  let sameDomainThreshold :=
    default 0.85%float (fallback ≫= (λ f, f ≫= same_domain)) in
  let crossDomainThreshold :=
    default 0.9%float (fallback ≫= (λ f, f ≫= cross_domain)) in
  let threshold :=
    if isSameDomain then sameDomainThreshold else crossDomainThreshold in
  (threshold <=? jaccard)%float.

(** The loop of [findMostSimilar] keeps [mostSimilar] and [highestScore]. *)
Definition findMostSimilar (targetTitle : jsstring)
    (existingTitles : list jsstring) (thresholds : DedupThresholds)
    (source url : jsstring) : option (jsstring * SimilarityResult) :=
  (foldl (λ '(mostSimilar, highestScore) existingTitle,
            let result :=
              checkSimilarity targetTitle existingTitle thresholds source url in
            if isDuplicate result then
              let score := (jaccard result + (1 - levenshtein result))%float in
              if (highestScore <? score)%float
              then (Some (existingTitle, result), score)
              else (mostSimilar, highestScore)
            else (mostSimilar, highestScore))
     (None, 0%float) existingTitles).1.
End WithRuntime.

End SimilarityStage.

Module Pipeline.
Import Similarity TitleMetrics UrlNormalizer HistoryStore DateParser.
Import Deduplicator DeduplicatorStages SimilarityStage.

Record DeduplicationStats := {
  totalInput : nat;
  afterUrlDedup : nat;
  afterHistoryDedup : nat;
  afterSimilarityDedup : nat;
  freshArticles : nat;
}.

Record DeduplicationResult := {
  dr_articles : list FilteredArticle;
  dr_stats : DeduplicationStats;
}.

Section WithRuntime.
Context `{UrlRuntime} `{TextRuntime} `{DateRuntime} `{RegExpRuntime}.

(** The test of the inner loop of [deduplicateBySimilarity], which stops
    at the first title that passes it. *)
Definition isLayer2Duplicate (thresholds : DedupThresholds)
    (result : list DedupArticle) (article : DedupArticle)
    (existingTitle : jsstring) : bool :=
  let sameDomain :=
    existsb (λ a, bool_decide (Types.title (raw a) = existingTitle)
                  && isSameDomain (Types.url (raw a))
                       (Types.url (raw article)))
      result in
  checkLayer2Similarity (Types.title (raw article)) existingTitle sameDomain
    thresholds (Types.source (raw article)).

(** One pass of the outer loop, on [result] and [processedTitles]. *)
Definition similarityStep (thresholds : DedupThresholds)
    (state : list DedupArticle * list jsstring) (article : DedupArticle)
    : list DedupArticle * list jsstring :=
  let '(result, processedTitles) := state in
  let isDuplicate :=
    existsb (isLayer2Duplicate thresholds result article) processedTitles in
  if isDuplicate then (result, processedTitles)
  else
    match findMostSimilar (Types.title (raw article)) processedTitles
            thresholds (Types.source (raw article))
            (Types.url (raw article)) with
    | Some similar => (result, processedTitles)
    | None =>
        (result ++ [ {| raw := raw article;
                        normalizedUrl := normalizedUrl article;
                        similarityScore := None |} ],
         processedTitles ++ [Types.title (raw article)])
    end.

Definition deduplicateBySimilarity (thresholds : DedupThresholds)
    (articles : list DedupArticle) : list DedupArticle :=
  (foldl (similarityStep thresholds) ([], []) articles).1.

(** [deduplicate], on the history [db] of the store: the result and the
    history it leaves, or [None] when a date parser throws. [clock i] is
    the time read by the [i]-th [new Date()] of the call. *)
Definition deduplicate (thresholds : DedupThresholds)
    (urlNormalization : UrlNormalizationOptions)
    (lastSuccessAt : option jsstring) (db : Database) (clock : nat → Z)
    (articles : list RawArticle)
    (dateMethod : option (gmap jsstring DateMethodConfig))
    : option (DeduplicationResult * Database) :=
  let urlDeduped := deduplicateByUrl urlNormalization articles in
  let historyDeduped := deduplicateByHistory db urlDeduped in
  let similarityDeduped := deduplicateBySimilarity thresholds historyDeduped in
  let windowStart := calculateWindowStart lastSuccessAt (Some (clock 0%nat)) in
  filtered ← filterByFreshness similarityDeduped windowStart dateMethod
               (Some (clock 1%nat));
  let db' := updateHistory db (clock 2%nat) filtered in
  Some ({| dr_articles := filtered;
           dr_stats :=
             {| totalInput := length articles;
                afterUrlDedup := length urlDeduped;
                afterHistoryDedup := length historyDeduped;
                afterSimilarityDedup := length similarityDeduped;
                freshArticles :=
                  length (filter (λ a, fa_isNew a = true) filtered) |} |},
        db').
End WithRuntime.

End Pipeline.

(* ===================================================================== *)
(** * Part II: properties                                                 *)
(* ===================================================================== *)

(** ** Freshness window *)

Module WindowSpec.
Import DateParser.

Definition h72 : Z := 72 * 60 * 60 * 1000.

Section WithRuntime.
Context `{DateRuntime} `{RegExpRuntime}.

Lemma hoursBefore_valid (n : Z) :
  Z.abs (n - h72) ≤ maxTime →
  hoursBefore 72 (Some n) = Some (n - h72).
Proof.
  intros Hr. unfold hoursBefore, ofNumber, TimeClip, h72 in *. simpl.
  case_decide; [done | lia].
Qed.

(** C1 (as the code has it). On a Monday, with a last success that
    denotes the time [l], the window starts at the later of [l] and
    [now - 72h]. *)
Theorem calculateWindowStart_monday (lastSuccessAt : jsstring) (l n : Z) :
  getDay (Some n) = Some 1 →
  truthy lastSuccessAt = true →
  Date_parse lastSuccessAt = Some l →
  Z.abs (n - h72) ≤ maxTime →
  calculateWindowStart (Some lastSuccessAt) (Some n)
  = Some (Z.max l (n - h72)).
Proof.
  intros Hmon Htr Hl Hr. unfold calculateWindowStart.
  rewrite Hmon, bool_decide_eq_true_2 by done.
  simpl. rewrite Htr, Hl, hoursBefore_valid by done. simpl.
  case_bool_decide; f_equal; lia.
Qed.
End WithRuntime.

Import Reference Examples.

(** Witness of [calculateWindowStart_monday]: Monday 2024-01-15 10:00 UTC
    with a last success on the Sunday before. *)
Lemma calculateWindowStart_monday_witness :
  calculateWindowStart (Some (str "2024-01-14T10:00:00.000Z")) (Some monday)
  = Some (Z.max (monday - 86400000) (monday - h72)).
Proof.
  apply (calculateWindowStart_monday (str "2024-01-14T10:00:00.000Z")
           (monday - 86400000) monday); vm_compute; congruence.
Defined.

(** C1 as stated fails: one millisecond more than 72 hours after the last
    success, on a Monday, the window starts at [now - 72h], which is later
    than the last success and is not the earlier of the two. *)
Lemma calculateWindowStart_not_earlier :
  let lastSuccessAt := str "2024-01-12T09:59:59.999Z" in
  let l := monday - h72 - 1 in
  getDay (Some monday) = Some 1
  ∧ Date_parse lastSuccessAt = Some l
  ∧ calculateWindowStart (Some lastSuccessAt) (Some monday)
    ≠ Some (Z.min l (monday - h72))
  ∧ calculateWindowStart (Some lastSuccessAt) (Some monday) ≠ Some l.
Proof. vm_compute. repeat split; congruence. Qed.

End WindowSpec.

(** ** Retries by tier *)

Module ExecutorSpec.
Import Executor Examples.

(** C3 (as the code has it). The retries handed to the retry loop are
    [max c 3] on tier 1 and [max c 1] on tier 2, where [c] is the configured
    count of the source; on tier 3 they are 0 whatever is configured. *)
Theorem effectiveMaxRetries_by_tier (sourceId : jsstring)
    (rateControl : RateControlConfig) (tier : SourceTier) :
  let c := maxRetries (getSourceRateConfig sourceId rateControl) in
  effectiveMaxRetries sourceId tier rateControl
  = match tier with
    | Tier3 => 0
    | _ => Z.max c (tierFloor tier)
    end.
Proof. by destruct tier. Qed.

(** C3 as stated fails: a tier-3 source with two configured retries gets
    none, not [max 2 0]. *)
Lemma tier3_ignores_configured :
  effectiveMaxRetries (str "twitter") Tier3 twoRetries
  ≠ Z.max (maxRetries (getSourceRateConfig (str "twitter") twoRetries))
          (tierFloor Tier3).
Proof. vm_compute. congruence. Qed.

End ExecutorSpec.

(** ** History store: upsert of a known URL *)

Module HistoryStoreSpec.
Import HistoryStore Examples.

(** How the UPDATE merges one nullable column: a value given by the
    argument is stored, an absent one leaves the column as it was. *)
Definition merged {A} (given before after : option A) : Prop :=
  match given with
  | Some v => after = Some v
  | None => after = before
  end.

Lemma merged_COALESCE {A} (given before : option A) :
  merged given before (COALESCE given before).
Proof. by destruct given. Qed.

Lemma updateRow_normalized_url entry row :
  normalized_url (updateRow entry row) = normalized_url row.
Proof. unfold updateRow. by case_decide. Qed.

(** The UPDATE does not change which row a lookup finds. *)
Lemma select_update entry (l : list HistoryRow) (u : jsstring) :
  head (filter (λ row, normalized_url row = u) (updateRow entry <$> l))
  = updateRow entry <$> head (filter (λ row, normalized_url row = u) l).
Proof.
  induction l as [|row l IH]; [done |].
  rewrite fmap_cons, !filter_cons, updateRow_normalized_url.
  case_decide; [done | apply IH].
Qed.

Lemma select_Some db u row :
  selectByNormalizedUrl db u = Some row → normalized_url row = u.
Proof.
  unfold selectByNormalizedUrl. intros Hsel.
  apply head_Some_elem_of, list_elem_of_filter in Hsel. tauto.
Qed.

Lemma upsert_existing_db db entry row :
  selectByNormalizedUrl db (he_normalizedUrl entry) = Some row →
  selectByNormalizedUrl (upsert db entry).1 (he_normalizedUrl entry)
  = Some (updateRow entry row).
Proof.
  intros Hsel. unfold upsert, findByNormalizedUrl. rewrite Hsel. simpl.
  unfold selectByNormalizedUrl in *. simpl. by rewrite select_update, Hsel.
Qed.

(** The columns of the row the UPDATE matches. *)
Lemma updateRow_columns entry row :
  normalized_url row = he_normalizedUrl entry →
  let row' := updateRow entry row in
  last_seen_at row' = he_lastSeenAt entry
  ∧ first_seen_at row' = first_seen_at row
  ∧ id row' = id row ∧ url row' = url row ∧ title row' = title row
  ∧ source row' = source row
  ∧ merged (he_publishedAt entry) (published_at row) (published_at row')
  ∧ merged (he_dateConfidence entry) (date_confidence row)
      (date_confidence row')
  ∧ merged (he_titleHash entry) (title_hash row) (title_hash row')
  ∧ merged (he_contentHash entry) (content_hash row) (content_hash row').
Proof.
  intros Hurl. unfold updateRow. rewrite Hurl, decide_True by done.
  simpl. repeat split; apply merged_COALESCE.
Qed.

(** C2 (as the code has it). After an upsert of a URL that is already
    stored, the row has the new [last_seen_at], the old [first_seen_at],
    identity, title and source, and each of [published_at],
    [date_confidence], [title_hash], [content_hash] holds the argument's
    value when the argument gives one and its old value otherwise. *)
Theorem upsert_existing_row db entry row :
  selectByNormalizedUrl db (he_normalizedUrl entry) = Some row →
  ∃ row',
    selectByNormalizedUrl (upsert db entry).1 (he_normalizedUrl entry)
    = Some row'
    ∧ last_seen_at row' = he_lastSeenAt entry
    ∧ first_seen_at row' = first_seen_at row
    ∧ id row' = id row ∧ url row' = url row ∧ title row' = title row
    ∧ source row' = source row
    ∧ merged (he_publishedAt entry) (published_at row) (published_at row')
    ∧ merged (he_dateConfidence entry) (date_confidence row)
        (date_confidence row')
    ∧ merged (he_titleHash entry) (title_hash row) (title_hash row')
    ∧ merged (he_contentHash entry) (content_hash row) (content_hash row').
Proof.
  intros Hsel. exists (updateRow entry row).
  split; [by apply upsert_existing_db |].
  by apply updateRow_columns, (select_Some db).
Qed.

(** Witness of [upsert_existing_row]: the stored row and its re-sighting. *)
Lemma upsert_existing_row_witness :
  ∃ row',
    selectByNormalizedUrl (upsert storedDb resighting).1
      (he_normalizedUrl resighting) = Some row'
    ∧ last_seen_at row' = he_lastSeenAt resighting
    ∧ first_seen_at row' = first_seen_at storedRow
    ∧ id row' = id storedRow ∧ url row' = url storedRow
    ∧ title row' = title storedRow
    ∧ source row' = source storedRow
    ∧ merged (he_publishedAt resighting) (published_at storedRow)
        (published_at row')
    ∧ merged (he_dateConfidence resighting) (date_confidence storedRow)
        (date_confidence row')
    ∧ merged (he_titleHash resighting) (title_hash storedRow) (title_hash row')
    ∧ merged (he_contentHash resighting) (content_hash storedRow)
        (content_hash row').
Proof. apply (upsert_existing_row storedDb resighting storedRow). reflexivity. Defined.

(** C2 as stated fails: a [published_at] that was not empty is replaced
    by the value the later upsert carries. *)
Lemma upsert_replaces_filled_column :
  ∃ row row',
    selectByNormalizedUrl storedDb (he_normalizedUrl resighting) = Some row
    ∧ selectByNormalizedUrl (upsert storedDb resighting).1
        (he_normalizedUrl resighting) = Some row'
    ∧ published_at row = Some (str "2024-01-10T08:00:00.000Z")
    ∧ published_at row' = Some (str "2024-01-11T08:00:00.000Z")
    ∧ published_at row' ≠ published_at row.
Proof.
  exists storedRow, (updateRow resighting storedRow).
  vm_compute. repeat split; congruence.
Qed.

(** C10. When the URL is already stored, the entry returned is the entry
    found before the update with only [lastSeenAt] replaced: its
    [publishedAt], [dateConfidence], [titleHash] and [contentHash] are the
    old ones, while the stored row takes the argument's values. *)
Theorem upsert_existing_returns db entry existing :
  findByNormalizedUrl db (he_normalizedUrl entry) = Some existing →
  let returned := (upsert db entry).2 in
  returned = withLastSeenAt existing (he_lastSeenAt entry)
  ∧ he_lastSeenAt returned = he_lastSeenAt entry
  ∧ he_publishedAt returned = he_publishedAt existing
  ∧ he_dateConfidence returned = he_dateConfidence existing
  ∧ he_titleHash returned = he_titleHash existing
  ∧ he_contentHash returned = he_contentHash existing
  ∧ ∃ stored,
      findByNormalizedUrl (upsert db entry).1 (he_normalizedUrl entry)
      = Some stored
      ∧ merged (he_publishedAt entry) (he_publishedAt existing)
          (he_publishedAt stored)
      ∧ merged (he_dateConfidence entry) (he_dateConfidence existing)
          (he_dateConfidence stored)
      ∧ merged (he_titleHash entry) (he_titleHash existing)
          (he_titleHash stored)
      ∧ merged (he_contentHash entry) (he_contentHash existing)
          (he_contentHash stored).
Proof.
  intros Hfind. pose proof Hfind as Hfind'.
  unfold findByNormalizedUrl in Hfind'.
  destruct (selectByNormalizedUrl db (he_normalizedUrl entry)) as [row|] eqn:Hsel;
    [|done].
  injection Hfind' as <-.
  assert ((upsert db entry).2
          = withLastSeenAt (rowToEntry row) (he_lastSeenAt entry)) as Hret.
  { unfold upsert. by rewrite Hfind. }
  simpl. rewrite Hret. repeat split.
  destruct (updateRow_columns entry row (select_Some db _ _ Hsel))
    as (_ & _ & _ & _ & _ & _ & Hp & Hd & Ht & Hc).
  exists (rowToEntry (updateRow entry row)). unfold findByNormalizedUrl.
  rewrite (upsert_existing_db db entry row Hsel). by repeat split.
Qed.

(** Witness of [upsert_existing_returns]: the entry returned for the
    re-sighting keeps the stored publication date. *)
Lemma upsert_existing_returns_witness :
  (upsert storedDb resighting).2
  = withLastSeenAt (rowToEntry storedRow) (he_lastSeenAt resighting)
  ∧ he_publishedAt (upsert storedDb resighting).2
    = Some (str "2024-01-10T08:00:00.000Z").
Proof.
  destruct (upsert_existing_returns storedDb resighting (rowToEntry storedRow))
    as (Hret & _ & Hpub & _); [reflexivity |].
  split; [exact Hret | exact Hpub].
Defined.

End HistoryStoreSpec.

(** ** Jaccard similarity *)

Module SimilaritySpec.
Import Similarity.

Local Open Scope Qc_scope.

(** The quotient of two counts, as the last line of the function forms it. *)
Definition ratio (n d : nat) : Qc :=
  Qc_of_Z (Z.of_nat n) / Qc_of_Z (Z.of_nat d).

Lemma Qc_of_nat_pos (d : nat) : (0 < d)%nat → 0 < Qc_of_Z (Z.of_nat d).
Proof. intros Hd. rewrite <- Z2Qc_inj_0. apply (proj1 (Z2Qc_inj_lt _ _)). lia. Qed.

Lemma ratio_mult (n d : nat) :
  (0 < d)%nat → ratio n d * Qc_of_Z (Z.of_nat d) = Qc_of_Z (Z.of_nat n).
Proof.
  intros Hd. unfold ratio. apply test_field.
  intros Heq. pose proof (Qc_of_nat_pos d Hd) as Hpos.
  rewrite Heq in Hpos. by apply Qclt_not_eq in Hpos.
Qed.

Lemma ratio_bounds (n d : nat) :
  (0 < d)%nat → (n ≤ d)%nat → 0 ≤ ratio n d ∧ ratio n d ≤ 1.
Proof.
  intros Hd Hn. pose proof (Qc_of_nat_pos d Hd) as Hpos. split.
  - apply (Qcmult_le_mono_pos_r _ _ _ Hpos).
    rewrite ratio_mult, Qcmult_0_l by done.
    rewrite <- Z2Qc_inj_0. apply (proj1 (Z2Qc_inj_le _ _)). lia.
  - apply (Qcmult_le_mono_pos_r _ _ _ Hpos).
    rewrite ratio_mult, Qcmult_1_l by done. apply (proj1 (Z2Qc_inj_le _ _)). lia.
Qed.

Lemma ratio_one (n d : nat) : (0 < d)%nat → ratio n d = 1 ↔ n = d.
Proof.
  intros Hd. split.
  - intros Hr. pose proof (ratio_mult n d Hd) as Hm.
    rewrite Hr, Qcmult_1_l in Hm. apply Z2Qc_inj in Hm. lia.
  - intros ->. unfold ratio. apply Qcmult_inv_r.
    intros Heq. pose proof (Qc_of_nat_pos d Hd) as Hpos.
    rewrite Heq in Hpos. by apply Qclt_not_eq in Hpos.
Qed.

Lemma ratio_zero_lt_one : (0 : Qc) ≠ 1.
Proof. done. Qed.

(** The filtered copy of the first set is the intersection. *)
Lemma filter_is_intersection (A B : gset jsstring) :
  filter (λ x, x ∈ B) A = A ∩ B.
Proof. apply set_eq. intros x. rewrite elem_of_filter. set_solver. Qed.

Lemma size_inter_le_union (A B : gset jsstring) :
  (size (A ∩ B) ≤ size (A ∪ B))%nat.
Proof. apply subseteq_size. set_solver. Qed.

Lemma size_inter_eq_union (A B : gset jsstring) :
  size (A ∩ B) = size (A ∪ B) ↔ A = B.
Proof.
  split.
  - intros Hs.
    assert (A ∩ B = A ∪ B) as Heq.
    { apply set_subseteq_size_eq; [set_solver | lia]. }
    apply set_eq. intros x. split; intros Hx.
    + assert (x ∈ A ∩ B) by (rewrite Heq; set_solver). set_solver.
    + assert (x ∈ A ∩ B) by (rewrite Heq; set_solver). set_solver.
  - intros ->. f_equal. set_solver.
Qed.

Section WithRuntime.
Context {text : TextRuntime}.

(** The value of the function in terms of the two token sets. *)
Lemma jaccard_cases (a b : jsstring) :
  let A := tokenize a in
  let B := tokenize b in
  (A = ∅ ∧ B = ∅ ∧ calculateJaccardSimilarity a b = 1)
  ∨ (A = ∅ ∧ B ≠ ∅ ∧ calculateJaccardSimilarity a b = 0)
  ∨ (A ≠ ∅ ∧ B = ∅ ∧ calculateJaccardSimilarity a b = 0)
  ∨ (A ≠ ∅ ∧ B ≠ ∅
     ∧ calculateJaccardSimilarity a b
       = ratio (size (A ∩ B)) (size (A ∪ B))).
Proof.
  intros A B. unfold calculateJaccardSimilarity. fold A B.
  rewrite filter_is_intersection.
  destruct (decide (A = ∅)) as [HA|HA], (decide (B = ∅)) as [HB|HB].
  - left. by rewrite HA, HB, size_empty.
  - right; left. rewrite HA, size_empty. simpl.
    rewrite bool_decide_eq_false_2; [done |].
    by intros ?%size_empty_inv%leibniz_equiv.
  - right; right; left. rewrite HB, size_empty.
    rewrite (bool_decide_eq_false_2 (size A = 0%nat)); [done |].
    by intros ?%size_empty_inv%leibniz_equiv.
  - right; right; right.
    rewrite (bool_decide_eq_false_2 (size A = 0%nat)),
      (bool_decide_eq_false_2 (size B = 0%nat)); [done | |].
    + by intros ?%size_empty_inv%leibniz_equiv.
    + by intros ?%size_empty_inv%leibniz_equiv.
Qed.

Lemma union_size_pos (A B : gset jsstring) : A ≠ ∅ → (0 < size (A ∪ B))%nat.
Proof.
  intros HA. destruct (size (A ∪ B)) eqn:Hs; [|lia].
  apply size_empty_inv, leibniz_equiv in Hs. set_solver.
Qed.

(** C6. The Jaccard similarity is symmetric, lies between 0 and 1, is 1
    exactly when the two token sets are equal (so also when both are
    empty), and is 0 when exactly one of them is empty. *)
Theorem calculateJaccardSimilarity_properties (a b : jsstring) :
  calculateJaccardSimilarity a b = calculateJaccardSimilarity b a
  ∧ 0 ≤ calculateJaccardSimilarity a b ≤ 1
  ∧ (calculateJaccardSimilarity a b = 1 ↔ tokenize a = tokenize b)
  ∧ (tokenize a = ∅ ∧ tokenize b = ∅ → calculateJaccardSimilarity a b = 1)
  ∧ ((tokenize a = ∅ ∧ tokenize b ≠ ∅) ∨ (tokenize a ≠ ∅ ∧ tokenize b = ∅)
     → calculateJaccardSimilarity a b = 0).
Proof.
  pose proof (jaccard_cases a b) as Hab.
  pose proof (jaccard_cases b a) as Hba. simpl in *.
  set (A := tokenize a) in *. set (B := tokenize b) in *.
  assert (ratio (size (B ∩ A)) (size (B ∪ A))
          = ratio (size (A ∩ B)) (size (A ∪ B))) as Hsym.
  { f_equal; f_equal; set_solver. }
  destruct Hab as [(HA & HB & ->) | [(HA & HB & ->) | [(HA & HB & ->)
    | (HA & HB & ->)]]];
    destruct Hba as [(HB' & HA' & ->) | [(HB' & HA' & ->)
    | [(HB' & HA' & ->) | (HB' & HA' & ->)]]]; try congruence.
  - split_and!; try done.
    + split; congruence.
    + intros [[]|[]]; congruence.
  - split_and!; try done.
    + split; [done | congruence].
    + intros []; congruence.
  - split_and!; try done.
    + split; [done | congruence].
    + intros []; congruence.
  - pose proof (union_size_pos A B HA) as Hpos.
    pose proof (size_inter_le_union A B) as Hle.
    destruct (ratio_bounds _ _ Hpos Hle) as [H0 H1].
    split_and!; try done.
    + rewrite ratio_one by done. apply size_inter_eq_union.
    + intros []; congruence.
    + intros [[]|[]]; congruence.
Qed.
End WithRuntime.

End SimilaritySpec.

(** ** Abort-heavy sources *)

Module OrchestratorSpec.
Import Similarity Orchestrator.

Section WithRuntime.
Context {text : TextRuntime}.

(** The message of an error names an abort, whatever its letter case. *)
Definition mentionsAbort (error : CollectionError) : Prop :=
  ∃ phrase, phrase ∈ abortPhrases
    ∧ includes (String_toLowerCase (ce_message error)) phrase = true.

Lemma isAbortHeavy_spec (error : CollectionError) :
  isAbortHeavy error = true ↔ 1 ≤ ce_retryCount error ∧ mentionsAbort error.
Proof.
  unfold isAbortHeavy, mentionsAbort, abortPhrases.
  case_bool_decide as Hr.
  - split; [done | lia].
  - rewrite !orb_true_iff. split.
    + intros [[Hi|Hi]|Hi]; (split; [lia |]);
        eexists; (split; [|exact Hi]); set_solver.
    + intros [_ (phrase & Hin & Hi)].
      rewrite !elem_of_cons, elem_of_nil in Hin.
      destruct Hin as [->|[->|[->|[]]]]; auto.
Qed.

Definition step (sourceIds : list jsstring) (error : CollectionError)
    : list jsstring :=
  if isAbortHeavy error then setAdd sourceIds (ce_sourceId error)
  else sourceIds.

Lemma setAdd_elem (l : list jsstring) (x y : jsstring) :
  y ∈ setAdd l x ↔ y ∈ l ∨ y = x.
Proof.
  unfold setAdd. case_bool_decide.
  - split; [auto | intros [?| ->]; done].
  - rewrite elem_of_app, list_elem_of_singleton. tauto.
Qed.

Lemma setAdd_NoDup (l : list jsstring) (x : jsstring) :
  NoDup l → NoDup (setAdd l x).
Proof.
  intros Hl. unfold setAdd. case_bool_decide; [done |].
  apply NoDup_app. split_and!; [done | | apply NoDup_singleton].
  intros y Hy ->%list_elem_of_singleton. done.
Qed.

Lemma fold_elem (errors : list CollectionError) (acc : list jsstring)
    (x : jsstring) :
  x ∈ foldl step acc errors
  ↔ x ∈ acc ∨ ∃ e, e ∈ errors ∧ ce_sourceId e = x ∧ isAbortHeavy e = true.
Proof.
  revert acc. induction errors as [|e errors IH]; intros acc; simpl.
  - split; [auto | intros [?|(e & He & _)]; [done | by apply elem_of_nil in He]].
  - rewrite IH. unfold step. destruct (isAbortHeavy e) eqn:He.
    + rewrite setAdd_elem. split.
      * intros [[?| ->]|(e' & Hin & ? & ?)]; [auto | |].
        -- right. exists e. split; [apply list_elem_of_here | done].
        -- right. exists e'. split; [by apply list_elem_of_further | done].
      * intros [?|(e' & Hin & Hid & Hh)]; [auto |].
        apply elem_of_cons in Hin as [->|Hin]; [auto |].
        right. by exists e'.
    + split.
      * intros [?|(e' & Hin & ? & ?)]; [auto |].
        right. exists e'. split; [by apply list_elem_of_further | done].
      * intros [?|(e' & Hin & Hid & Hh)]; [auto |].
        apply elem_of_cons in Hin as [->|Hin]; [congruence |].
        right. by exists e'.
Qed.

Lemma fold_NoDup (errors : list CollectionError) (acc : list jsstring) :
  NoDup acc → NoDup (foldl step acc errors).
Proof.
  revert acc. induction errors as [|e errors IH]; intros acc Hacc; [done |].
  simpl. apply IH. unfold step. destruct (isAbortHeavy e); [|done].
  by apply setAdd_NoDup.
Qed.

(** C8. A source id is returned exactly when one of its errors was
    retried at least once and mentions an abort; no id is returned
    twice. *)
Theorem findAbortHeavySourceIds_spec (errors : list CollectionError) :
  (∀ sourceId,
     sourceId ∈ findAbortHeavySourceIds errors
     ↔ ∃ error, error ∈ errors ∧ ce_sourceId error = sourceId
         ∧ 1 ≤ ce_retryCount error ∧ mentionsAbort error)
  ∧ NoDup (findAbortHeavySourceIds errors).
Proof.
  split.
  - intros sourceId. change (findAbortHeavySourceIds errors)
      with (foldl step [] errors).
    rewrite fold_elem. split.
    + intros [Hnil|(e & Hin & Hid & Hh)]; [by apply elem_of_nil in Hnil |].
      exists e. apply isAbortHeavy_spec in Hh. tauto.
    + intros (e & Hin & Hid & Hr & Hm). right. exists e.
      repeat split; [done.. |]. apply isAbortHeavy_spec. tauto.
  - apply (fold_NoDup errors []). constructor.
Qed.
End WithRuntime.

End OrchestratorSpec.

(** ** Freshness stage *)

Module DeduplicatorSpec.
Import RegExp DateParser Deduplicator.

(** The article with another [dateMetaContent]. *)
Definition withMeta (article : DedupArticle) (meta : option jsstring)
    : DedupArticle :=
  {| raw :=
       {| url := url (raw article); title := title (raw article);
          summary := summary (raw article); source := source (raw article);
          fetchedAt := fetchedAt (raw article);
          collectedAt := collectedAt (raw article);
          publishedAt := publishedAt (raw article);
          rawContent := rawContent (raw article);
          dateMetaContent := meta |};
     normalizedUrl := normalizedUrl article;
     similarityScore := similarityScore article |}.

(** The options of the three-layer parse in which only the URL is given. *)
Definition urlOnly (u : jsstring) (now : Date) : MultiLayerOptions :=
  {| ml_publishedAt := None; ml_url := Some u; ml_relativeTimeText := None;
     ml_urlDatePattern := None; ml_referenceDate := now |}.

Lemma Forall2_witness_r {A B} (P : A → B → Prop) (l : list A) (k : list B)
    (y : B) :
  Forall2 P l k → y ∈ k → ∃ x, x ∈ l ∧ P x y.
Proof.
  induction 1 as [|x y' l k Hxy _ IH]; intros Hin.
  - by apply elem_of_nil in Hin.
  - apply elem_of_cons in Hin as [->|Hin].
    + exists x. split; [apply list_elem_of_here | done].
    + destruct (IH Hin) as (x' & Hx' & HP).
      exists x'. split; [by apply list_elem_of_further | done].
Qed.

Lemma Forall2_witness_l {A B} (P : A → B → Prop) (l : list A) (k : list B)
    (x : A) :
  Forall2 P l k → x ∈ l → ∃ y, y ∈ k ∧ P x y.
Proof.
  induction 1 as [|x' y l k Hxy _ IH]; intros Hin.
  - by apply elem_of_nil in Hin.
  - apply elem_of_cons in Hin as [->|Hin].
    + exists y. split; [apply list_elem_of_here | done].
    + destruct (IH Hin) as (y' & Hy' & HP).
      exists y'. split; [by apply list_elem_of_further | done].
Qed.

Section WithRuntime.
Context {dates : DateRuntime} {regexps : RegExpRuntime}.

(** A date input that decides nothing: absent, empty, or not a date. *)
Definition unparseable (value : option jsstring) : Prop :=
  truthyOpt value = false ∨ Date_parse (nullish value []) = None.

(** What [checkFreshness] answers when no input decides. *)
Definition keepOnDoubt : FreshnessResult :=
  {| isFresh := true; priority := prio_low; dateSource := None;
     reason := str "All dates unknown, including with low priority" |}.

Definition noDate (src : DateSource) : DateParseResult :=
  {| date := None; confidence := unknown; dsource := src; rawText := None |}.

Lemma freshnessLevel_skip value ws prio src label within before next :
  unparseable value →
  freshnessLevel value ws prio src label within before next = next.
Proof.
  unfold freshnessLevel. intros [Hv|Hv]; [by rewrite Hv |].
  rewrite Hv. by destruct (truthyOpt value).
Qed.

Lemma checkFreshness_all_unparseable (options : FreshnessOptions) :
  unparseable (fo_publishedAt options) →
  unparseable (fo_urlDate options) →
  unparseable (fo_relativeTimeParsed options) →
  unparseable (fo_firstSeenAt options) →
  checkFreshness options = keepOnDoubt.
Proof.
  intros H1 H2 H3 H4. unfold checkFreshness.
  by rewrite !freshnessLevel_skip.
Qed.

Lemma dateIf_unparseable (dateResult : DateParseResult) (src : DateSource) :
  unparseable (date dateResult) → unparseable (dateIf dateResult src).
Proof. unfold dateIf. case_decide; [done | by left]. Qed.

Lemma freshnessOf_unparseable (dateResult : DateParseResult) (ws : Date) :
  unparseable (date dateResult) → freshnessOf dateResult ws = keepOnDoubt.
Proof.
  intros Hd. unfold freshnessOf.
  apply checkFreshness_all_unparseable; simpl;
    [by apply dateIf_unparseable.. | by left].
Qed.

(** With the built-in patterns the URL layer cannot throw. *)
Lemma parseDateMultiLayer_urlOnly (u : jsstring) (now : Date) :
  parseDateMultiLayer (urlOnly u now)
  = Some (if truthy u
             && hasDate (parseDateFromPatterns u URL_DATE_PATTERNS)
          then parseDateFromPatterns u URL_DATE_PATTERNS
          else noDate first_seen_at).
Proof.
  unfold parseDateMultiLayer, urlOnly, parseDateFromUrl.
  cbn [ml_publishedAt ml_url ml_relativeTimeText ml_urlDatePattern
       truthyOpt nullish default mbind option_bind].
  destruct (truthy u); [|done]. cbn [andb]. unfold id.
  by destruct (hasDate (parseDateFromPatterns u URL_DATE_PATTERNS)).
Qed.

Lemma parseDateFromPatterns_no_match (u : jsstring) (patterns : list RegExp) :
  (∀ re, re ∈ patterns → stringMatch u re = None) →
  parseDateFromPatterns u patterns = noDate url_date.
Proof.
  induction patterns as [|re patterns IH]; intros Hno; [done |].
  simpl. rewrite (Hno re) by apply list_elem_of_here.
  apply IH. intros re' Hin. apply Hno. by apply list_elem_of_further.
Qed.

(** A result of the URL layer that carries a date comes from a match. *)
Lemma parseDateFromPatterns_source (u : jsstring) (patterns : list RegExp) :
  dsource (parseDateFromPatterns u patterns) = url_date.
Proof.
  induction patterns as [|re patterns IH]; [done |]. simpl.
  destruct (stringMatch u re) as [m|]; [|done].
  destruct (_ || _); [done |]. by destruct (Date_parse _).
Qed.

Lemma resolveDate_no_hints article dm now :
  truthyOpt (publishedAt (raw article)) = false →
  dm ≫= (λ m, m !! source (raw article)) = None →
  resolveDate article dm now
  = parseDateMultiLayer (urlOnly (url (raw article)) now).
Proof. intros Hp Hm. unfold resolveDate. by rewrite Hp, Hm. Qed.

Lemma classify_total_without_methods ws now article :
  is_Some (classify ws None now article).
Proof.
  unfold classify, resolveDate. simpl.
  destruct (truthyOpt (publishedAt (raw article))).
  - by destruct (Date_parse _).
  - fold (urlOnly (url (raw article)) now).
    by rewrite parseDateMultiLayer_urlOnly.
Qed.

(** With a date-method map the [map] callback returns all the same for
    an article that has a [publishedAt], or whose source reads its dates
    from meta data, or from the URL with a pattern that compiles. *)
Lemma classify_total_guarded ws m now article :
  (∀ config, m !! source (raw article) = Some config →
     truthyOpt (publishedAt (raw article)) = true
     ∨ dm_type config ∈ [html_meta; api; DM_other]
     ∨ dm_type config = url_parse
       ∧ (truthyOpt (dm_pattern config) = false
          ∨ is_Some (RegExp_compile (nullish (dm_pattern config) [])))) →
  is_Some (classify ws (Some m) now article).
Proof.
  intros Hguard. unfold classify.
  enough (is_Some (resolveDate article (Some m) now)) as [r ->] by by eexists.
  unfold resolveDate. simpl.
  destruct (truthyOpt (publishedAt (raw article))) eqn:Hp.
  { by destruct (Date_parse _). }
  destruct (m !! source (raw article)) as [config|] eqn:Hm.
  - destruct (Hguard config eq_refl) as [?|[Hmeta|[Hurl Hpattern]]]; [done | |].
    + rewrite !elem_of_cons, elem_of_nil in Hmeta.
      destruct Hmeta as [->|[->|[->|[]]]]; by eexists.
    + unfold parseDateByMethod. rewrite Hurl. simpl.
      destruct (truthy (url (raw article))); [|by eexists].
      unfold parseDateFromUrl. destruct Hpattern as [->|[re Hre]].
      * by eexists.
      * destruct (truthyOpt (dm_pattern config)); [|by eexists].
        rewrite Hre. by eexists.
  - fold (urlOnly (url (raw article)) now).
    by rewrite parseDateMultiLayer_urlOnly.
Qed.

(** C9. An article without [publishedAt] whose source has no date method
    goes to the three-layer parse with only its URL: a date it gets is a
    URL date, its [dateMetaContent] plays no part, and when no built-in
    URL pattern matches its confidence is [unknown]. *)
Theorem resolveDate_url_only article dm now :
  truthyOpt (publishedAt (raw article)) = false →
  dm ≫= (λ m, m !! source (raw article)) = None →
  let u := url (raw article) in
  resolveDate article dm now = parseDateMultiLayer (urlOnly u now)
  ∧ (∃ dateResult,
       resolveDate article dm now = Some dateResult
       ∧ (hasDate dateResult = true →
          dateResult = parseDateFromPatterns u URL_DATE_PATTERNS
          ∧ dsource dateResult = url_date))
  ∧ (∀ meta,
       resolveDate (withMeta article meta) dm now
       = resolveDate article dm now)
  ∧ ((∀ re, re ∈ URL_DATE_PATTERNS → stringMatch u re = None) →
     ∀ windowStart, ∃ filtered,
       classify windowStart dm now article = Some filtered
       ∧ fa_dateConfidence filtered = unknown
       ∧ fa_publishedAt filtered = None).
Proof.
  intros Hp Hm u. split_and!.
  - by apply resolveDate_no_hints.
  - rewrite resolveDate_no_hints, parseDateMultiLayer_urlOnly by done.
    eexists. split; [done |]. fold u.
    destruct (truthy u && hasDate _) eqn:Hc; [|done].
    intros _. split; [done | apply parseDateFromPatterns_source].
  - intros meta. by rewrite !resolveDate_no_hints.
  - intros Hno ws. unfold classify.
    rewrite resolveDate_no_hints, parseDateMultiLayer_urlOnly by done.
    fold u. rewrite parseDateFromPatterns_no_match by done.
    rewrite andb_false_r. simpl. eauto.
Qed.

(** C4. On a batch whose articles are all dated without a parser
    throwing, the freshness stage returns, and it emits exactly the
    classified articles that are fresh or of unknown date confidence;
    when no input of the freshness check is a parseable date its answer
    is fresh, low priority, no date source, and such an article is
    emitted. (When a parser throws for one article the stage throws and
    emits no article of the batch.) *)
Theorem filterByFreshness_keep_on_doubt articles ws dm now :
  (∀ a, a ∈ articles → is_Some (classify ws dm now a)) →
  (∃ out,
     filterByFreshness articles ws dm now = Some out
     ∧ (∀ f, f ∈ out
             ↔ ∃ a, a ∈ articles ∧ classify ws dm now a = Some f
                 ∧ (fa_isNew f = true ∨ fa_dateConfidence f = unknown))
     ∧ (∀ a dateResult,
          a ∈ articles →
          resolveDate a dm now = Some dateResult →
          unparseable (date dateResult) →
          ∃ f, classify ws dm now a = Some f ∧ fa_isNew f = true
               ∧ fa_freshnessPriority f = prio_low ∧ f ∈ out))
  ∧ (∀ options,
       unparseable (fo_publishedAt options) →
       unparseable (fo_urlDate options) →
       unparseable (fo_relativeTimeParsed options) →
       unparseable (fo_firstSeenAt options) →
       isFresh (checkFreshness options) = true
       ∧ priority (checkFreshness options) = prio_low
       ∧ dateSource (checkFreshness options) = None).
Proof.
  intros Htotal. split.
  - assert (is_Some (mapM (classify ws dm now) articles)) as [fs Hfs].
    { apply mapM_is_Some, Forall_forall. intros a Ha. by apply Htotal. }
    exists (filter (λ a, keep a = true) fs).
    assert (∀ f, f ∈ filter (λ a, keep a = true) fs
                 ↔ ∃ a, a ∈ articles ∧ classify ws dm now a = Some f
                     ∧ (fa_isNew f = true ∨ fa_dateConfidence f = unknown))
      as Hiff.
    { intros f. rewrite list_elem_of_filter. unfold keep.
      rewrite orb_true_iff, bool_decide_eq_true.
      apply mapM_Some in Hfs. split.
      - intros [Hk Hin].
        destruct (Forall2_witness_r _ _ _ _ Hfs Hin) as (a & Ha & Hc). eauto.
      - intros (a & Ha & Hc & Hk). split; [done |].
        destruct (Forall2_witness_l _ _ _ _ Hfs Ha) as (f' & Hf' & Hc').
        congruence. }
    split_and!.
    + unfold filterByFreshness. by rewrite Hfs.
    + exact Hiff.
    + intros a dr Ha Hdr Hun.
      assert (classify ws dm now a
              = Some {| fa_article := a;
                        fa_isNew := true;
                        fa_publishedAt := date dr;
                        fa_dateConfidence := confidence dr;
                        fa_dateSource := dsource dr;
                        fa_urlDate := dateIf dr url_date;
                        fa_relativeTimeParsed := dateIf dr relative_time;
                        fa_freshnessPriority := prio_low |}) as Hc.
      { unfold classify. rewrite Hdr. simpl.
        by rewrite freshnessOf_unparseable. }
      eexists. split_and!; [exact Hc | done | done |].
      apply Hiff. exists a. simpl. auto.
  - intros options H1 H2 H3 H4.
    by rewrite checkFreshness_all_unparseable.
Qed.
End WithRuntime.

Import Reference Examples.

(** On Monday 2024-01-15 with no earlier success the window starts three
    days before; the undated article is kept, the stale one is not. *)
Example filterByFreshness_example :
  let now := Some monday in
  let windowStart := calculateWindowStart None now in
  fa_article <$>
    default [] (filterByFreshness [undatedArticle; staleArticle] windowStart
                  None now)
  = [undatedArticle].
Proof. vm_compute. reflexivity. Qed.

(** Witness of [resolveDate_url_only]: the undated article. *)
Lemma resolveDate_url_only_witness :
  ∃ filtered,
    classify (Some (monday - 259200000)) None (Some monday) undatedArticle
    = Some filtered
    ∧ fa_dateConfidence filtered = unknown
    ∧ fa_publishedAt filtered = None.
Proof.
  destruct (resolveDate_url_only undatedArticle None (Some monday)
              eq_refl eq_refl) as (_ & _ & _ & Hno).
  apply Hno. intros re Hin. unfold URL_DATE_PATTERNS in Hin.
  rewrite !elem_of_cons, elem_of_nil in Hin.
  destruct Hin as [->|[->|[->|[]]]]; vm_compute; reflexivity.
Defined.

(** Witness of [filterByFreshness_keep_on_doubt]: the two example
    articles, with the date-method map of their source. *)
Lemma filterByFreshness_keep_on_doubt_witness :
  ∃ out,
    filterByFreshness [undatedArticle; staleArticle]
      (Some (monday - 259200000)) (Some blogMethods) (Some monday) = Some out
    ∧ ∃ f, f ∈ out ∧ fa_article f = undatedArticle ∧ fa_isNew f = true.
Proof.
  destruct (filterByFreshness_keep_on_doubt [undatedArticle; staleArticle]
              (Some (monday - 259200000)) (Some blogMethods) (Some monday))
    as [(out & Hout & _ & Hkeep) _].
  - intros a Ha. rewrite !elem_of_cons, elem_of_nil in Ha.
    destruct Ha as [->|[->|[]]]; vm_compute; eauto.
  - exists out. split; [exact Hout |].
    destruct (Hkeep undatedArticle (noDate url_date))
      as (f & Hc & Hnew & _ & Hin).
    + apply list_elem_of_here.
    + vm_compute. reflexivity.
    + left. reflexivity.
    + exists f. split; [exact Hin |]. split; [|exact Hnew].
      vm_compute in Hc. injection Hc as <-. reflexivity.
Defined.

(** A batch on which the stage throws: the feed's date pattern does not
    compile, so [new RegExp] throws inside the [map] and no article is
    emitted, though the undated article of the batch is classified as
    fresh and of unknown date. *)
Lemma filterByFreshness_throws :
  filterByFreshness [undatedArticle; brokenFeedArticle]
    (Some (monday - 259200000)) (Some brokenMethods) (Some monday) = None
  ∧ ∃ f,
      classify (Some (monday - 259200000)) (Some brokenMethods)
        (Some monday) undatedArticle = Some f
      ∧ fa_isNew f = true
      ∧ fa_dateConfidence f = unknown.
Proof.
  split; [by vm_compute |]. eexists. split; [by vm_compute |]. done.
Qed.

End DeduplicatorSpec.

(** ** Parsing a collection result *)

Module PromptsSpec.
Import Prompts.

Lemma filter_imap_length {A B} (P : B → Prop) `{∀ x, Decision (P x)}
    (Q : A → Prop) `{∀ x, Decision (Q x)} (f : nat → A → B) (l : list A) :
  (∀ i x, P (f i x) ↔ Q x) →
  length (filter P (imap f l)) = length (filter Q l).
Proof.
  revert f. induction l as [|x l IH]; intros f HPQ; [done |].
  rewrite imap_cons, !filter_cons.
  destruct (decide (P (f 0%nat x))) as [HP|HP],
    (decide (Q x)) as [HQ|HQ]; simpl.
  - f_equal. apply IH. intros i y. apply HPQ.
  - destruct HQ. by apply (HPQ 0%nat).
  - destruct HP. by apply HPQ.
  - apply IH. intros i y. apply HPQ.
Qed.

Section WithRuntime.
Context {json : JsonRuntime} {dates : DateRuntime}.

(** What every article of a parse result satisfies. *)
Definition stamped (clock : nat → Z) (sourceId : jsstring) (a : RawArticle)
    : Prop :=
  title a ≠ [] ∧ url a ≠ []
  ∧ source a = sourceId
  ∧ ∃ i, collectedAt a = Some (Date_toISOString (clock i)).

(** An entry of the parsed array that yields an article. *)
Definition usable (entry : JSON) : Prop :=
  isObject entry = true
  ∧ stringOr entry (str "title") ≠ []
  ∧ stringOr entry (str "url") ≠ [].

#[local] Instance usable_dec entry : Decision (usable entry).
Proof. unfold usable. apply _. Defined.

Lemma truthy_nonempty (s : jsstring) : truthy s = true ↔ s ≠ [].
Proof. by destruct s. Qed.

Lemma normalizeArticles_elem clock articlesInput sourceId a :
  a ∈ normalizeArticles clock articlesInput sourceId →
  ∃ i entry,
    entry ∈ articlesInput ∧ usable entry
    ∧ a = toRawArticle sourceId (clock i) entry.
Proof.
  unfold normalizeArticles. rewrite list_elem_of_filter.
  intros [Hk Hin]. apply elem_of_lookup_imap in Hin as (i & entry & -> & Hl).
  apply list_elem_of_lookup_2, list_elem_of_filter in Hl as [Hobj Hin].
  apply andb_true_iff in Hk as [Ht Hu].
  exists i, entry. unfold usable. split_and!; try done.
  - by apply truthy_nonempty in Ht.
  - by apply truthy_nonempty in Hu.
Qed.

Lemma normalizeArticles_length clock articlesInput sourceId :
  length (normalizeArticles clock articlesInput sourceId)
  = length (filter usable articlesInput).
Proof.
  unfold normalizeArticles.
  rewrite (filter_imap_length _
             (λ e, stringOr e (str "title") ≠ []
                   ∧ stringOr e (str "url") ≠ [])).
  - rewrite list_filter_filter. f_equal. apply list_filter_iff.
    intros e. unfold usable. tauto.
  - intros i e. simpl. rewrite andb_true_iff, !truthy_nonempty. tauto.
Qed.

Lemma normalizeArticles_stamped clock articlesInput sourceId :
  Forall (stamped clock sourceId)
    (normalizeArticles clock articlesInput sourceId).
Proof.
  apply Forall_forall. intros a Ha.
  apply normalizeArticles_elem in Ha as (i & entry & _ & (_ & Ht & Hu) & ->).
  unfold stamped. simpl. split_and!; eauto.
Qed.

(** The articles come from the array of the first candidate that parses to
    a value holding one. *)
Lemma parseCandidates_articles clock candidates sourceId parseError l :
  parseCandidates clock candidates sourceId parseError = inl l →
  ∃ candidate parsed articlesInput,
    candidate ∈ candidates
    ∧ JSON_parse candidate = inl parsed
    ∧ getArticlesArray parsed = Some articlesInput
    ∧ l = normalizeArticles clock articlesInput sourceId.
Proof.
  revert parseError. induction candidates as [|c cs IH]; intros e; [done |].
  simpl. destruct (JSON_parse c) as [parsed|message] eqn:Hparse.
  - destruct (getArticlesArray parsed) as [arr|] eqn:Harr.
    + intros [= <-]. exists c, parsed, arr.
      split_and!; [apply list_elem_of_here | done..].
    + intros (c' & p' & arr' & Hin & ?)%IH. exists c', p', arr'.
      split; [by apply list_elem_of_further | done].
  - intros (c' & p' & arr' & Hin & ?)%IH. exists c', p', arr'.
    split; [by apply list_elem_of_further | done].
Qed.

Example normalizeArticles_drops_incomplete (clock : nat → Z) :
  normalizeArticles clock
    [JObj [(str "title", JStr (str "A"));
           (str "url", JStr (str "https://a.example/1"))];
     JStr (str "stray");
     JObj [(str "title", JStr (str "B"))];
     JObj [(str "url", JStr (str "https://a.example/3"));
           (str "title", JStr (str "C")); (str "summary", JStr [])]]
    (str "hn")
  = [ {| title := str "A"; url := str "https://a.example/1";
         summary := None; publishedAt := None; dateMetaContent := None;
         source := str "hn";
         collectedAt := Some (Date_toISOString (clock 0%nat));
         fetchedAt := None; rawContent := None |};
      {| title := str "C"; url := str "https://a.example/3";
         summary := None; publishedAt := None; dateMetaContent := None;
         source := str "hn";
         collectedAt := Some (Date_toISOString (clock 2%nat));
         fetchedAt := None; rawContent := None |} ].
Proof. reflexivity. Qed.

(** C7. Every article of a parse result has a title and a URL that are
    not empty, the given source and a collection time stamp. When the
    parse succeeds, the articles are those of the array held by a candidate
    of the response that [JSON.parse] accepts: an article comes only from
    an entry of that array that is an object with a title and a URL, and
    each such entry yields one; the other entries are dropped. When it
    fails, there is no article. *)
Theorem parseCollectionResult_normalised (clock : nat → Z)
    (result sourceId : jsstring) :
  let r := parseCollectionResult clock result sourceId in
  Forall (stamped clock sourceId) (articles r)
  ∧ match parseError r with
    | None =>
        ∃ candidate parsed articlesInput,
          candidate ∈ extractJsonCandidates result
          ∧ JSON_parse candidate = inl parsed
          ∧ getArticlesArray parsed = Some articlesInput
          ∧ articles r = normalizeArticles clock articlesInput sourceId
          ∧ (∀ a, a ∈ articles r →
                  ∃ i entry, entry ∈ articlesInput ∧ usable entry
                             ∧ a = toRawArticle sourceId (clock i) entry)
          ∧ length (articles r) = length (filter usable articlesInput)
    | Some _ => articles r = []
    end.
Proof.
  unfold parseCollectionResult.
  destruct (parseCandidates _ _ _ _) as [l|e] eqn:Hp; simpl; [|done].
  apply parseCandidates_articles
    in Hp as (candidate & parsed & arr & Hin & Hparse & Harr & ->).
  split; [apply normalizeArticles_stamped |].
  exists candidate, parsed, arr. split_and!; try done.
  - intros a. apply normalizeArticles_elem.
  - apply normalizeArticles_length.
Qed.
End WithRuntime.

End PromptsSpec.

(** ** URL normalisation *)

Module UrlNormalizerSpec.
Import Similarity UrlNormalizer.

(** *** Sorting and deleting query entries *)

Lemma strLt_irrefl (a : jsstring) : strLt a a = false.
Proof.
  induction a as [|x a IH]; [done |]. simpl.
  repeat case_decide; try lia. done.
Qed.

Lemma strLt_asym (a b : jsstring) : strLt a b = true → strLt b a = false.
Proof.
  revert b. induction a as [|x a IH]; intros [|y b]; simpl; try done.
  repeat case_decide; try done; try lia. apply IH.
Qed.

(** Neighbours are in order: the later one is not smaller. *)
Fixpoint ordered (l : list (jsstring * jsstring)) : Prop :=
  match l with
  | x :: (y :: _) as l' => strLt (entryKey y) (entryKey x) = false ∧ ordered l'
  | _ => True
  end.

Lemma insertEntry_ordered x l : ordered l → ordered (insertEntry x l).
Proof.
  induction l as [|y l IH]; [done |]. intros Hl. simpl.
  destruct (strLt (entryKey y) (entryKey x)) eqn:Hyx.
  - destruct l as [|z l]; simpl.
    + split; [by apply strLt_asym | done].
    + destruct Hl as [Hzy Hl]. specialize (IH Hl). simpl in IH.
      destruct (strLt (entryKey z) (entryKey x)) eqn:Hzx.
      * split; [done | exact IH].
      * split; [by apply strLt_asym | exact IH].
  - simpl. done.
Qed.

Lemma sortEntries_ordered l : ordered (sortEntries l).
Proof.
  induction l as [|x l IH]; [done |]. simpl. by apply insertEntry_ordered.
Qed.

Lemma sortEntries_of_ordered l : ordered l → sortEntries l = l.
Proof.
  induction l as [|x l IH]; [done |]. intros Hl. simpl.
  destruct l as [|y l]; [done |]. destruct Hl as [Hyx Hl].
  rewrite (IH Hl). simpl. by rewrite Hyx.
Qed.

Lemma sortEntries_idempotent l : sortEntries (sortEntries l) = sortEntries l.
Proof. apply sortEntries_of_ordered, sortEntries_ordered. Qed.

Lemma insertEntry_elem x y l : y ∈ insertEntry x l ↔ y = x ∨ y ∈ l.
Proof.
  induction l as [|z l IH]; simpl.
  - rewrite list_elem_of_singleton, elem_of_nil. tauto.
  - destruct (strLt _ _); rewrite !elem_of_cons; [rewrite IH |]; tauto.
Qed.

Lemma sortEntries_elem y l : y ∈ sortEntries l ↔ y ∈ l.
Proof.
  induction l as [|x l IH]; [done |]. simpl.
  rewrite insertEntry_elem, elem_of_cons, IH. tauto.
Qed.

Lemma deleteParams_elem params y l :
  y ∈ deleteParams params l ↔ y ∈ l ∧ y.1 ∉ params.
Proof.
  unfold deleteParams. revert l.
  induction params as [|p params IH]; intros l; simpl.
  - rewrite elem_of_nil. tauto.
  - rewrite IH, list_elem_of_filter, not_elem_of_cons. tauto.
Qed.

Lemma filter_all {A} (P : A → Prop) `{∀ x, Decision (P x)} (l : list A) :
  (∀ y, y ∈ l → P y) → filter P l = l.
Proof.
  induction l as [|x l IH]; intros Hl; [done |].
  rewrite filter_cons_True by apply Hl, list_elem_of_here.
  f_equal. apply IH. intros y Hy. by apply Hl, list_elem_of_further.
Qed.

Lemma deleteParams_clean params l :
  (∀ y, y ∈ l → y.1 ∉ params) → deleteParams params l = l.
Proof.
  unfold deleteParams. revert l.
  induction params as [|p params IH]; intros l Hl; [done |]. simpl.
  assert (filter (λ kv : jsstring * jsstring, kv.1 ≠ p) l = l) as ->.
  { apply filter_all. intros y Hy.
    specialize (Hl y Hy). apply not_elem_of_cons in Hl. tauto. }
  apply IH. intros y Hy. specialize (Hl y Hy).
  apply not_elem_of_cons in Hl. tauto.
Qed.

(** *** Strings *)

Lemma endsWith_question (s : jsstring) :
  endsWith (str "?") s = true ↔ last s = Some 63%N.
Proof.
  unfold endsWith. rewrite <- head_reverse.
  change (reverse (str "?")) with [63%N].
  destruct (reverse s) as [|c r]; simpl; [done |].
  case_decide; split; try done; naive_solver.
Qed.

Lemma dropFinalQuestion_id (s : jsstring) :
  last s ≠ Some 63%N → dropFinalQuestion s = s.
Proof.
  intros Hl. unfold dropFinalQuestion.
  destruct (endsWith (str "?") s) eqn:He; [|done].
  by apply endsWith_question in He.
Qed.

Lemma last_app_nonempty {A} (l k : list A) : k ≠ [] → last (l ++ k) = last k.
Proof.
  intros Hk. destruct k as [|x k _] using rev_ind; [done |].
  by rewrite app_assoc, !last_snoc.
Qed.

Lemma dropQuestion_id (v : jsstring) : head v ≠ Some 63%N → dropQuestion v = v.
Proof. destruct v as [|c v]; [done |]. simpl. case_decide; naive_solver. Qed.

(** *** Idempotence for settled URL objects *)

Section WithLaws.
Context {runtime : UrlRuntime} {text : TextRuntime} {laws : UrlLaws}.

(** The query that the [search] setter stores for a list of entries. *)
Definition queryOf (entries : list (jsstring * jsstring)) : option jsstring :=
  if decide (URLSearchParams_toString entries = []) then None
  else Some (query_encode (URLSearchParams_toString entries)).

(** What [normalizeParsed] establishes: scheme https, no fragment, and a
    query that serialises entries already pruned and sorted. *)
Definition settled (options : UrlNormalizationOptions) (u : URL) : Prop :=
  URL_wf u ∧ scheme u = str "https" ∧ fragment u = None
  ∧ ∃ source entries,
      URL_wf source
      ∧ entries ⊆ URLSearchParams_parse (search source)
      ∧ sortEntries (deleteParams (removeParams options) entries) = entries
      ∧ query u = queryOf entries.

Lemma setSearch_queryOf u entries :
  URL_wf u →
  URL_setSearch u (URLSearchParams_toString entries)
  = withQuery u (queryOf entries).
Proof.
  intros Hwf. rewrite setSearch_spec by done. unfold queryOf.
  case_decide; [done |].
  by rewrite dropQuestion_id by apply searchParams_no_question.
Qed.

Lemma wf_queryOf u entries : URL_wf u → URL_wf (withQuery u (queryOf entries)).
Proof.
  intros Hwf. unfold queryOf. case_decide.
  - by apply wf_withoutQuery.
  - by apply wf_withQuery.
Qed.

Lemma search_queryOf u source entries :
  URL_wf source →
  entries ⊆ URLSearchParams_parse (search source) →
  query u = queryOf entries →
  URLSearchParams_parse (search u) = entries.
Proof.
  intros Hsrc Hsub Hq. unfold search at 1. rewrite Hq. unfold queryOf.
  case_decide as He.
  - apply searchParams_empty in He as ->. apply searchParams_parse_empty.
  - pose proof (query_encode_nonempty _ He) as Hne.
    destruct (query_encode _) as [|c q] eqn:Hqe; [done |].
    rewrite <- Hqe. by eapply searchParams_roundtrip.
Qed.

Lemma forceHttps_wf u :
  URL_wf u → URL_wf (forceHttps u) ∧ scheme (forceHttps u) = str "https".
Proof.
  intros Hwf. unfold forceHttps, protocol.
  destruct (wf_scheme u Hwf) as [Hs|Hs]; rewrite Hs.
  - rewrite bool_decide_eq_true_2 by done.
    rewrite setProtocol_https by done. split; [by apply wf_withScheme | done].
  - rewrite bool_decide_eq_false_2; [done |].
    intros Heq. by vm_compute in Heq.
Qed.

(** A change of host keeps everything else. *)
Lemma setHostname_frame u v :
  URL_wf u →
  URL_wf (URL_setHostname u v)
  ∧ scheme (URL_setHostname u v) = scheme u
  ∧ fragment (URL_setHostname u v) = fragment u
  ∧ query (URL_setHostname u v) = query u.
Proof.
  intros Hwf. rewrite setHostname_spec by done.
  destruct (host_parse v) as [h|] eqn:Hh; [|done].
  split; [by eapply wf_withHost | done].
Qed.

Lemma normalizeParsed_settled options u :
  URL_wf u → settled options (normalizeParsed options u).
Proof.
  intros Hwf. unfold normalizeParsed.
  destruct (forceHttps_wf u Hwf) as [Hwf1 Hs1].
  set (u1 := forceHttps u) in *.
  assert (URL_wf (lowerHost options u1)
          ∧ scheme (lowerHost options u1) = str "https") as [Hwf2 Hs2].
  { unfold lowerHost. destruct (lowercaseHost options); [|done].
    destruct (setHostname_frame u1 (String_toLowerCase (hostname u1)) Hwf1)
      as (? & ? & _). split; [done | congruence]. }
  set (u2 := lowerHost options u1) in *.
  assert (URL_wf (stripWww u2) ∧ scheme (stripWww u2) = str "https")
    as [Hwf3 Hs3].
  { unfold stripWww. destruct (startsWith _ _); [|done].
    destruct (setHostname_frame u2 (drop 4 (hostname u2)) Hwf2)
      as (? & ? & _). split; [done | congruence]. }
  set (u3 := stripWww u2) in *.
  unfold cleanPath, dropHash, cleanSearch.
  rewrite (setSearch_queryOf u3) by done.
  pose proof (wf_queryOf u3 (sortedParams options u3) Hwf3) as Hwf4.
  rewrite setHash_empty by done.
  pose proof (wf_withoutFragment _ Hwf4) as Hwf5.
  rewrite setPathname_spec by done.
  split_and!.
  - by apply wf_withPath.
  - done.
  - done.
  - exists u3, (sortedParams options u3). split_and!.
    + done.
    + intros y Hy. unfold sortedParams in Hy.
      apply sortEntries_elem, deleteParams_elem in Hy. tauto.
    + unfold sortedParams. rewrite deleteParams_clean.
      * apply sortEntries_idempotent.
      * intros y Hy. apply sortEntries_elem, deleteParams_elem in Hy. tauto.
    + done.
Qed.

Lemma withHost_same u h : host u = Some h → withHost u h = u.
Proof. destruct u. simpl. by intros ->. Qed.
Lemma withQuery_same u : withQuery u (query u) = u.
Proof. by destruct u. Qed.
Lemma withFragment_same u : withFragment u (fragment u) = u.
Proof. by destruct u. Qed.
Lemma withPath_same u : withPath u (path u) = u.
Proof. by destruct u. Qed.

(** A settled URL object whose host has no [www.] prefix and whose path
    the rewriting leaves alone is a fixed point. *)
Lemma settled_fixed options u :
  settled options u →
  startsWith (str "www.") (hostname u) = false →
  normalizePath options (pathname u) = pathname u →
  normalizeParsed options u = u.
Proof.
  intros (Hwf & Hs & Hf & src & entries & Hsrc & Hsub & Hsorted & Hq)
    Hwww Hpath.
  unfold normalizeParsed.
  assert (forceHttps u = u) as ->.
  { unfold forceHttps, protocol. rewrite Hs.
    rewrite bool_decide_eq_false_2; [done |].
    intros Heq. by vm_compute in Heq. }
  assert (lowerHost options u = u) as ->.
  { unfold lowerHost. destruct (lowercaseHost options); [|done].
    destruct (wf_host u Hwf) as (h & Hh & Hp & Hl).
    rewrite setHostname_spec by done. unfold hostname. rewrite Hh. simpl.
    rewrite Hl, Hp. by apply withHost_same. }
  assert (stripWww u = u) as ->.
  { unfold stripWww. by rewrite Hwww. }
  assert (cleanSearch options u = u) as ->.
  { unfold cleanSearch, sortedParams.
    rewrite (search_queryOf u src entries), Hsorted by done.
    rewrite setSearch_queryOf, <- Hq by done. apply withQuery_same. }
  assert (dropHash u = u) as ->.
  { unfold dropHash. rewrite setHash_empty, <- Hf by done.
    apply withFragment_same. }
  unfold cleanPath. rewrite Hpath, setPathname_spec by done.
  unfold pathname. rewrite wf_path by done. apply withPath_same.
Qed.

Lemma settled_href options u :
  settled options u → dropFinalQuestion (href u) = href u.
Proof.
  intros (Hwf & Hs & Hf & src & entries & Hsrc & Hsub & Hsorted & Hq).
  apply dropFinalQuestion_id. unfold href. rewrite Hf, Hq, !app_nil_r.
  destruct (path_no_final_question u Hwf) as [Hne Hlast].
  unfold queryOf. case_decide as He.
  - rewrite app_nil_r, !app_assoc. by rewrite last_app_nonempty.
  - rewrite !app_assoc. rewrite last_app_nonempty.
    + apply query_no_final_question.
    + by apply query_encode_nonempty.
Qed.
Lemma isValidUrl_wf url :
  isValidUrl url = true → ∃ u, URL_parse url = Some u ∧ URL_wf u.
Proof.
  unfold isValidUrl. destruct (URL_parse url) as [u|] eqn:Hp; [|done].
  intros Hv. exists u. split; [done |]. apply (wf_parse url); [done |].
  unfold protocol in Hv. apply orb_true_iff in Hv as [Hv|Hv];
    apply bool_decide_eq_true in Hv.
  - left. by apply (app_inv_tail (str ":")).
  - right. by apply (app_inv_tail (str ":")).
Qed.

(** C5 (as the code has it). For a valid http or https URL, normalising the
    normalised URL again returns it unchanged whenever its host does not
    begin with [www.] and the rewriting of the path leaves its path as it
    is; scheme, query and fragment never change on the second pass. *)
Theorem normalizeUrl_idempotent_when_settled options url normalized :
  isValidUrl url = true →
  normalizeUrl url options = Some normalized →
  (∀ u, URL_parse normalized = Some u →
        startsWith (str "www.") (hostname u) = false
        ∧ normalizePath options (pathname u) = pathname u) →
  normalizeUrl normalized options = Some normalized.
Proof.
  intros Hvalid Hnorm Hstable.
  destruct (isValidUrl_wf url Hvalid) as (u0 & Hparse & Hwf).
  unfold normalizeUrl in Hnorm. rewrite Hparse in Hnorm. simpl in Hnorm.
  injection Hnorm as <-.
  pose proof (normalizeParsed_settled options u0 Hwf) as Hset.
  set (u := normalizeParsed options u0) in *.
  rewrite (settled_href options u Hset) in *.
  assert (URL_parse (href u) = Some u) as Hback.
  { apply parse_href. by destruct Hset. }
  destruct (Hstable u Hback) as [Hwww Hpath].
  unfold normalizeUrl. rewrite Hback. simpl.
  rewrite (settled_fixed options u Hset Hwww Hpath).
  by rewrite (settled_href options u Hset).
Qed.
End WithLaws.

End UrlNormalizerSpec.

(** ** The reference URL runtime obeys the laws *)

Module ReferenceUrlSpec.
Import Similarity UrlNormalizer Reference.

Local Open Scope N_scope.

Lemma list_length_ind {A} (P : list A → Prop) :
  (∀ l, (∀ k, (length k < length l)%nat → P k) → P l) → ∀ l, P l.
Proof.
  intros Hstep l. remember (length l) as n eqn:Hn. revert l Hn.
  induction n as [n IH] using lt_wf_ind. intros l ->.
  apply Hstep. intros k Hk. by apply (IH (length k)).
Qed.

(** *** Escapes *)

Definition isHexChar (c : N) : Prop := 48 ≤ c ≤ 57 ∨ 65 ≤ c ≤ 70.
Definition hexish (c : N) : Prop := c = 37 ∨ isHexChar c.

Lemma hexDigit_isHexChar n : isHexChar (hexDigit n).
Proof.
  unfold hexDigit, isHexChar.
  assert (n `mod` 16 < 16) by (apply N.mod_upper_bound; lia).
  generalize dependent (n `mod` 16). intros m Hm. simpl. case_decide; lia.
Qed.

Lemma hexValue_hexDigit n : hexValue (hexDigit n) = Some (n `mod` 16).
Proof.
  unfold hexValue, hexDigit, isDigit.
  assert (n `mod` 16 < 16) by (apply N.mod_upper_bound; lia).
  generalize dependent (n `mod` 16). intros m Hm. simpl.
  case_decide; repeat case_bool_decide; try lia; f_equal; lia.
Qed.

Lemma percentByte_hexish b : Forall hexish (percentByte b).
Proof.
  unfold percentByte. repeat apply Forall_cons_2; [by left | | | done];
    right; apply hexDigit_isHexChar.
Qed.

Lemma percentUtf8_hexish cp : Forall hexish (percentUtf8 cp).
Proof.
  unfold percentUtf8. apply Forall_forall. intros c Hc.
  apply list_elem_of_bind in Hc as (b & Hc & _).
  by apply (proj1 (Forall_forall _ _) (percentByte_hexish b)).
Qed.

Lemma encodePoint_elem keep cp c :
  c ∈ encodePoint keep cp → hexish c ∨ (c = cp ∧ cp < 128 ∧ keep cp = true).
Proof.
  unfold encodePoint. case_decide.
  - destruct (keep cp) eqn:Hk.
    + intros ->%list_elem_of_singleton. auto.
    + intros Hc. left.
      by apply (proj1 (Forall_forall _ _) (percentByte_hexish cp)).
  - intros Hc. left.
    by apply (proj1 (Forall_forall _ _) (percentUtf8_hexish cp)).
Qed.

Lemma codePoints_ascii_elem c s : c ∈ codePoints s → c < 128 → c ∈ s.
Proof.
  revert c. induction s as [s IH] using list_length_ind. intros c.
  destruct s as [|x s]; [done |]. simpl.
  destruct (isHighSurrogate x) eqn:Hx.
  - destruct s as [|y s].
    + intros ->%list_elem_of_singleton. lia.
    + destruct (isLowSurrogate y) eqn:Hy.
      * intros [->|Hc]%elem_of_cons Hlt; [lia |].
        do 2 apply list_elem_of_further. apply IH; [simpl; lia | done..].
      * intros [->|Hc]%elem_of_cons Hlt; [lia |].
        apply list_elem_of_further. apply IH; [simpl; lia | done..].
  - destruct (isLowSurrogate x) eqn:Hx'.
    + intros [->|Hc]%elem_of_cons Hlt; [lia |].
      apply list_elem_of_further. apply IH; [simpl; lia | done..].
    + intros [->|Hc]%elem_of_cons Hlt; [apply list_elem_of_here |].
      apply list_elem_of_further. apply IH; [simpl; lia | done..].
Qed.

Lemma percentEncode_elem keep s c :
  c ∈ percentEncode keep s →
  hexish c ∨ (c < 128 ∧ keep c = true ∧ c ∈ s).
Proof.
  unfold percentEncode. intros (cp & Hc & Hcp)%list_elem_of_bind.
  apply encodePoint_elem in Hc as [?|(-> & ? & ?)]; [by left |].
  right. split_and!; [done.. |]. by apply codePoints_ascii_elem.
Qed.

Lemma codePoints_ascii s : Forall (λ c, c < 128) s → codePoints s = s.
Proof.
  induction 1 as [|c s Hc _ IH]; [done |]. simpl.
  unfold isHighSurrogate, isLowSurrogate.
  rewrite !bool_decide_eq_false_2 by lia. by rewrite IH.
Qed.

(** A code unit that an encoder leaves alone. *)
Definition plain (keep : N → bool) (c : N) : Prop := c < 128 ∧ keep c = true.

Lemma percentEncode_id keep s :
  Forall (plain keep) s → percentEncode keep s = s.
Proof.
  intros Hs. unfold percentEncode. rewrite codePoints_ascii.
  - induction Hs as [|c s [Hc Hk] _ IH]; [done |].
    rewrite bind_cons. unfold encodePoint at 1.
    rewrite decide_True, Hk by done. simpl. by rewrite IH.
  - eapply Forall_impl; [done |]. by intros c [? _].
Qed.

(** An encoder whose escapes it leaves alone. *)
Definition keepsEscapes (keep : N → bool) : Prop :=
  ∀ c, hexish c → keep c = true.

Lemma percentEncode_plain keep s :
  keepsEscapes keep → Forall (plain keep) (percentEncode keep s).
Proof.
  intros Hk. apply Forall_forall. intros c Hc.
  apply percentEncode_elem in Hc as [Hh|(? & ? & _)]; [|done].
  split; [|by apply Hk]. destruct Hh as [->|[?|?]]; lia.
Qed.

Lemma percentEncode_idempotent keep s :
  keepsEscapes keep →
  percentEncode keep (percentEncode keep s) = percentEncode keep s.
Proof. intros Hk. by apply percentEncode_id, percentEncode_plain. Qed.

Ltac solve_keep :=
  intros c Hc; unfold keepInPath, keepInQuery, keepInFragment,
    isControlOrSpace;
  apply negb_true_iff, orb_false_iff; split; apply bool_decide_eq_false;
  [ destruct Hc as [->|[?|?]]; lia
  | rewrite !elem_of_cons, elem_of_nil; destruct Hc as [->|[?|?]]; lia ].

Lemma keepInPath_escapes : keepsEscapes keepInPath.
Proof. solve_keep. Qed.
Lemma keepInQuery_escapes : keepsEscapes keepInQuery.
Proof. solve_keep. Qed.
Lemma keepInFragment_escapes : keepsEscapes keepInFragment.
Proof. solve_keep. Qed.

(** A code unit above the space and not DEL. *)
Definition visible (c : N) : Prop := 32 < c ∧ c ≠ 127.

Lemma keepInPath_visible c : keepInPath c = true → visible c.
Proof.
  unfold keepInPath, isControlOrSpace, visible.
  intros [Hc _]%negb_true_iff%orb_false_iff.
  apply bool_decide_eq_false in Hc. lia.
Qed.
Lemma keepInQuery_visible c : keepInQuery c = true → visible c.
Proof.
  unfold keepInQuery, isControlOrSpace, visible.
  intros [Hc _]%negb_true_iff%orb_false_iff.
  apply bool_decide_eq_false in Hc. lia.
Qed.
Lemma keepInFragment_visible c : keepInFragment c = true → visible c.
Proof.
  unfold keepInFragment, isControlOrSpace, visible.
  intros [Hc _]%negb_true_iff%orb_false_iff.
  apply bool_decide_eq_false in Hc. lia.
Qed.

Lemma stripTabNewline_id s : Forall visible s → stripTabNewline s = s.
Proof.
  intros Hs. unfold stripTabNewline. apply UrlNormalizerSpec.filter_all.
  intros c Hc. apply (proj1 (Forall_forall _ _) Hs) in Hc as [? ?].
  rewrite !elem_of_cons, elem_of_nil. lia.
Qed.

(** *** Cutting and joining *)

(** The string is empty or begins with a code unit at which to stop. *)
Definition stopsAt (stop : N → bool) (s : jsstring) : Prop :=
  match s with [] => True | c :: _ => stop c = true end.

Lemma takeUntil_app stop a b :
  Forall (λ c, stop c = false) a → stopsAt stop b →
  takeUntil stop (a ++ b) = a.
Proof.
  intros Ha Hb. induction Ha as [|c a Hc _ IH]; simpl.
  - destruct b as [|c b]; [done |]. simpl in *. by rewrite Hb.
  - by rewrite Hc, IH.
Qed.

Lemma dropUntil_app stop a b :
  Forall (λ c, stop c = false) a → stopsAt stop b →
  dropUntil stop (a ++ b) = b.
Proof.
  intros Ha Hb. induction Ha as [|c a Hc _ IH]; simpl.
  - destruct b as [|c b]; [done |]. simpl in *. by rewrite Hb.
  - by rewrite Hc, IH.
Qed.

Lemma takeUntil_all stop a :
  Forall (λ c, stop c = false) a → takeUntil stop a = a.
Proof.
  intros Ha. rewrite <- (app_nil_r a) at 1. by apply takeUntil_app.
Qed.

Lemma splitAt_clean sep cur e :
  sep ∉ e → splitAt sep cur e = [reverse cur ++ e].
Proof.
  revert cur. induction e as [|c e IH]; intros cur Hsep; simpl.
  - by rewrite app_nil_r.
  - apply not_elem_of_cons in Hsep as [Hc He].
    rewrite decide_False by done. rewrite IH by done.
    by rewrite reverse_cons, <- app_assoc.
Qed.

Lemma splitAt_app sep cur e rest :
  sep ∉ e →
  splitAt sep cur (e ++ sep :: rest)
  = (reverse cur ++ e) :: splitAt sep [] rest.
Proof.
  revert cur. induction e as [|c e IH]; intros cur Hsep; simpl.
  - by rewrite decide_True, app_nil_r.
  - apply not_elem_of_cons in Hsep as [Hc He].
    rewrite decide_False by done. rewrite IH by done.
    by rewrite reverse_cons, <- app_assoc.
Qed.

Lemma splitOn_joinWith sep (l : list jsstring) :
  l ≠ [] → Forall (λ e, sep ∉ e) l → splitOn sep (joinWith sep l) = l.
Proof.
  unfold splitOn. intros Hne Hl.
  induction Hl as [|e l He Hl IH]; [done |].
  destruct l as [|e' l].
  - simpl. by rewrite splitAt_clean.
  - change (joinWith sep (e :: e' :: l))
      with (e ++ sep :: joinWith sep (e' :: l)).
    rewrite splitAt_app by done. simpl. f_equal. by apply IH.
Qed.

Lemma joinWith_elem sep (l : list jsstring) c :
  c ∈ joinWith sep l → c = sep ∨ ∃ e, e ∈ l ∧ c ∈ e.
Proof.
  induction l as [|e l IH]; [by intros ?%elem_of_nil |].
  destruct l as [|e' l].
  - simpl. intros Hc. right. exists e. split; [apply list_elem_of_here | done].
  - change (joinWith sep (e :: e' :: l))
      with (e ++ sep :: joinWith sep (e' :: l)).
    rewrite elem_of_app, elem_of_cons. intros [Hc|[->|Hc]].
    + right. exists e. split; [apply list_elem_of_here | done].
    + by left.
    + destruct (IH Hc) as [->|(e0 & He0 & Hc0)]; [by left |].
      right. exists e0. split; [by apply list_elem_of_further | done].
Qed.

Lemma splitAt_elem sep cur s e c :
  e ∈ splitAt sep cur s → c ∈ e → c ∈ cur ∨ (c ∈ s ∧ c ≠ sep).
Proof.
  revert cur e. induction s as [|x s IH]; intros cur e; simpl.
  - intros ->%list_elem_of_singleton Hc. left. by apply elem_of_reverse.
  - case_decide as Hx.
    + intros [->|He]%elem_of_cons Hc.
      * left. by apply elem_of_reverse.
      * destruct (IH [] e He Hc) as [Hnil|[? ?]];
          [by apply elem_of_nil in Hnil |].
        right. split; [by apply list_elem_of_further | done].
    + intros He Hc. destruct (IH (x :: cur) e He Hc) as [Hcur|[? ?]].
      * apply elem_of_cons in Hcur as [->|?]; [|by left].
        right. split; [apply list_elem_of_here | done].
      * right. split; [by apply list_elem_of_further | done].
Qed.

Lemma splitOn_elem sep s e c : e ∈ splitOn sep s → c ∈ e → c ∈ s ∧ c ≠ sep.
Proof.
  intros He Hc. destruct (splitAt_elem sep [] s e c He Hc) as [Hnil|?];
    [by apply elem_of_nil in Hnil | done].
Qed.

Lemma splitAt_nonempty sep cur s : splitAt sep cur s ≠ [].
Proof.
  revert cur. induction s as [|x s IH]; intros cur; simpl; [done |].
  case_decide; [done | apply IH].
Qed.

(** *** Hosts *)

Lemma hostChar_spec c :
  hostChar c = true →
  visible c ∧ isAuthorityEnd c = false ∧ RegExp.lowerASCII c = c.
Proof.
  unfold hostChar, isLower, isDigit, visible, isAuthorityEnd,
    RegExp.lowerASCII, isUpper.
  rewrite !orb_true_iff, !bool_decide_eq_true. intros Hc.
  split_and!; [lia | lia | |].
  - apply bool_decide_eq_false. rewrite !elem_of_cons, elem_of_nil. lia.
  - rewrite bool_decide_eq_false_2; [done | lia].
Qed.

Lemma domainLike_chars h :
  domainLike h = true → Forall (λ c, hostChar c = true) h.
Proof.
  unfold domainLike. intros [[Hc _]%andb_true_iff _]%andb_true_iff.
  apply Forall_forall. intros c Hin.
  apply (proj1 (List.forallb_forall _ _) Hc). by apply list_elem_of_In.
Qed.

Lemma lowered_host h : Forall (λ c, hostChar c = true) h → lowered h = h.
Proof.
  induction 1 as [|c h Hc _ IH]; [done |]. unfold lowered in *.
  rewrite fmap_cons, IH. f_equal. by apply hostChar_spec.
Qed.

Lemma host_visible h : Forall (λ c, hostChar c = true) h → Forall visible h.
Proof.
  intros Hh. eapply Forall_impl; [done |]. intros c Hc. by apply hostChar_spec.
Qed.

Lemma host_no_end h :
  Forall (λ c, hostChar c = true) h →
  Forall (λ c, isAuthorityEnd c = false) h.
Proof.
  intros Hh. eapply Forall_impl; [done |]. intros c Hc. by apply hostChar_spec.
Qed.

Lemma refHostParse_fixed h : domainLike h = true → refHostParse h = Some h.
Proof.
  intros Hd. pose proof (domainLike_chars h Hd) as Hc. unfold refHostParse.
  rewrite stripTabNewline_id by by apply host_visible.
  rewrite takeUntil_all by by apply host_no_end.
  fold (lowered h). by rewrite lowered_host, Hd.
Qed.

Lemma refHostParse_domain v h : refHostParse v = Some h → domainLike h = true.
Proof.
  unfold refHostParse. destruct (domainLike _) eqn:Hd; [|done].
  by intros [= <-].
Qed.

Lemma refHostParse_idempotent v h :
  refHostParse v = Some h → refHostParse h = Some h.
Proof. intros Hv. by apply refHostParse_fixed, (refHostParse_domain v). Qed.

(** *** Paths *)

(** A segment as the path parser leaves it: encoded, without separator,
    and not a dot segment. *)
Definition segOk (e : jsstring) : Prop :=
  Forall (plain keepInPath) e ∧ (47 ∉ e) ∧ (92 ∉ e)
  ∧ isDoubleDot e = false ∧ isSingleDot e = false.

Lemma segOk_nil : segOk [].
Proof.
  split_and!; [constructor | apply not_elem_of_nil.. | done | done].
Qed.

Lemma not_hexish_47 : ¬ hexish 47.
Proof. unfold hexish, isHexChar. lia. Qed.
Lemma not_hexish_92 : ¬ hexish 92.
Proof. unfold hexish, isHexChar. lia. Qed.

Lemma buffer_ok (seg : jsstring) :
  47 ∉ seg → 92 ∉ seg →
  isDoubleDot (percentEncode keepInPath seg) = false →
  isSingleDot (percentEncode keepInPath seg) = false →
  segOk (percentEncode keepInPath seg).
Proof.
  intros H47 H92 Hdd Hsd. split_and!; [| | | done | done].
  - apply percentEncode_plain, keepInPath_escapes.
  - intros [Hh|(_ & _ & Hc)]%percentEncode_elem; [|done].
    by apply not_hexish_47.
  - intros [Hh|(_ & _ & Hc)]%percentEncode_elem; [|done].
    by apply not_hexish_92.
Qed.

Lemma resolveDots_ok segs :
  Forall (λ seg : jsstring, (47 ∉ seg) ∧ (92 ∉ seg)) segs →
  ∀ out, Forall segOk out → Forall segOk (resolveDots out segs).
Proof.
  induction 1 as [|seg rest [H47 H92] _ IH]; intros out Hout; [done |].
  simpl.
  assert (Forall segOk (take (length out - 1) out)) as Hpop
    by by apply Forall_take.
  assert (Forall segOk [[]]) as Hnil
    by (apply Forall_singleton, segOk_nil).
  destruct (isDoubleDot _) eqn:Hdd; [|destruct (isSingleDot _) eqn:Hsd].
  - apply IH. case_bool_decide; [by apply Forall_app | done].
  - apply IH. case_bool_decide; [by apply Forall_app | done].
  - apply IH, Forall_app. split; [done |].
    by apply Forall_singleton, buffer_ok.
Qed.

Lemma resolveDots_nonempty segs out : segs ≠ [] → resolveDots out segs ≠ [].
Proof.
  revert out. induction segs as [|seg rest IH]; [done |]. intros out _.
  simpl. destruct rest as [|seg' rest'].
  - rewrite bool_decide_eq_true_2 by done. simpl.
    destruct (isDoubleDot _); [|destruct (isSingleDot _)];
      by intros [_ ?]%app_eq_nil.
  - destruct (isDoubleDot _); [|destruct (isSingleDot _)]; by apply IH.
Qed.

Lemma resolveDots_fixed l :
  Forall segOk l → ∀ acc, resolveDots acc l = acc ++ l.
Proof.
  induction 1 as [|e l (Hp & _ & _ & Hdd & Hsd) _ IH]; intros acc; simpl.
  - by rewrite app_nil_r.
  - rewrite percentEncode_id by done. rewrite Hdd, Hsd, IH.
    by rewrite <- app_assoc.
Qed.

Lemma backslash_gone (s : jsstring) : 92 ∉ backslashToSlash <$> s.
Proof.
  intros (c & Hc & _)%list_elem_of_fmap. unfold backslashToSlash in Hc.
  case_decide; lia.
Qed.

Lemma backslash_id (s : jsstring) : 92 ∉ s → backslashToSlash <$> s = s.
Proof.
  induction s as [|c s IH]; [done |].
  intros [Hc Hs]%not_elem_of_cons. rewrite fmap_cons, IH by done.
  unfold backslashToSlash. by rewrite decide_False by done.
Qed.

Lemma dropSlash_elem s c : c ∈ dropSlash s → c ∈ s.
Proof.
  destruct s as [|x s]; [done |]. simpl.
  case_decide; [by apply list_elem_of_further | done].
Qed.

Lemma plain_slash : plain keepInPath 47.
Proof. split; [lia | done]. Qed.

Lemma joined_plain out :
  Forall segOk out → Forall (plain keepInPath) (47 :: joinWith 47 out).
Proof.
  intros Hout. apply Forall_cons_2; [apply plain_slash |].
  apply Forall_forall. intros c [->|(e & He & Hc)]%joinWith_elem.
  - apply plain_slash.
  - apply (proj1 (Forall_forall _ _) Hout) in He as (Hp & _).
    by apply (proj1 (Forall_forall _ _) Hp).
Qed.

Lemma plain_path_visible s : Forall (plain keepInPath) s → Forall visible s.
Proof.
  intros Hs. eapply Forall_impl; [done |].
  intros c [_ Hk]. by apply keepInPath_visible.
Qed.

Lemma refPathParse_fixed out :
  out ≠ [] → Forall segOk out →
  refPathParse (47 :: joinWith 47 out) = 47 :: joinWith 47 out.
Proof.
  intros Hne Hout. unfold refPathParse.
  rewrite stripTabNewline_id
    by by apply plain_path_visible, joined_plain.
  rewrite backslash_id.
  - simpl. rewrite splitOn_joinWith; [| done |].
    + by rewrite resolveDots_fixed.
    + eapply Forall_impl; [done |]. by intros e (_ & ? & _).
  - intros [?|[?|(e & He & Hc)]%joinWith_elem]%elem_of_cons; [lia.. |].
    apply (proj1 (Forall_forall _ _) Hout) in He as (_ & _ & H92 & _).
    done.
Qed.

Lemma refPathParse_form v :
  ∃ out, out ≠ [] ∧ Forall segOk out
         ∧ refPathParse v = 47 :: joinWith 47 out.
Proof.
  eexists. split_and!; [| | reflexivity].
  - apply resolveDots_nonempty, splitAt_nonempty.
  - apply resolveDots_ok; [|constructor].
    apply Forall_forall. intros seg Hseg. split; intros Hc.
    + by destruct (splitOn_elem _ _ _ _ Hseg Hc).
    + destruct (splitOn_elem _ _ _ _ Hseg Hc) as [Hin _].
      by apply dropSlash_elem, backslash_gone in Hin.
Qed.

Lemma refPathParse_idempotent v :
  refPathParse (refPathParse v) = refPathParse v.
Proof.
  destruct (refPathParse_form v) as (out & Hne & Hout & ->).
  by apply refPathParse_fixed.
Qed.

(** A path in parsed form is not empty and is made of code units that the
    path encoder leaves alone. *)
Lemma parsed_path_plain p :
  refPathParse p = p → p ≠ [] ∧ Forall (plain keepInPath) p.
Proof.
  intros <-. destruct (refPathParse_form p) as (out & _ & Hout & ->).
  split; [done | by apply joined_plain].
Qed.

(** *** Queries and fragments *)

Lemma plain_query_visible s : Forall (plain keepInQuery) s → Forall visible s.
Proof.
  intros Hs. eapply Forall_impl; [done |].
  intros c [_ Hk]. by apply keepInQuery_visible.
Qed.

Lemma plain_fragment_visible s :
  Forall (plain keepInFragment) s → Forall visible s.
Proof.
  intros Hs. eapply Forall_impl; [done |].
  intros c [_ Hk]. by apply keepInFragment_visible.
Qed.

Lemma refQueryEncode_plain v : Forall (plain keepInQuery) (refQueryEncode v).
Proof. apply percentEncode_plain, keepInQuery_escapes. Qed.

Lemma refQueryEncode_fixed q :
  Forall (plain keepInQuery) q → refQueryEncode q = q.
Proof.
  intros Hq. unfold refQueryEncode.
  rewrite stripTabNewline_id by by apply plain_query_visible.
  by apply percentEncode_id.
Qed.

Lemma refFragmentEncode_plain v :
  Forall (plain keepInFragment) (refFragmentEncode v).
Proof. apply percentEncode_plain, keepInFragment_escapes. Qed.

Lemma refFragmentEncode_fixed f :
  Forall (plain keepInFragment) f → refFragmentEncode f = f.
Proof.
  intros Hf. unfold refFragmentEncode.
  rewrite stripTabNewline_id by by apply plain_fragment_visible.
  by apply percentEncode_id.
Qed.

Lemma plain_query_no_hash q :
  Forall (plain keepInQuery) q → Forall (λ c, isHash c = false) q.
Proof.
  intros Hq. eapply Forall_impl; [done |]. intros c [_ Hk].
  unfold isHash. apply bool_decide_eq_false. intros ->. done.
Qed.

Lemma plain_path_no_end p :
  Forall (plain keepInPath) p → Forall (λ c, isPathEnd c = false) p.
Proof.
  intros Hp. eapply Forall_impl; [done |]. intros c [_ Hk].
  unfold isPathEnd. apply bool_decide_eq_false.
  rewrite !elem_of_cons, elem_of_nil. intros [->|[->|[]]]; done.
Qed.

(** *** The invariant and the round trip *)

Definition refWf (u : URL) : Prop :=
  isWebScheme (scheme u) = true
  ∧ username u = [] ∧ password u = [] ∧ port u = None
  ∧ (∃ h, host u = Some h ∧ domainLike h = true)
  ∧ refPathParse (path u) = path u
  ∧ (∀ q, query u = Some q → Forall (plain keepInQuery) q)
  ∧ (∀ f, fragment u = Some f → Forall (plain keepInFragment) f).

(** The text of the query and of the fragment in [href]. *)
Definition queryText (q : option jsstring) : jsstring :=
  match q with Some q => 63 :: q | None => [] end.
Definition fragmentText (f : option jsstring) : jsstring :=
  match f with Some f => 35 :: f | None => [] end.

Lemma refQueryOf_text q f :
  (∀ q', q = Some q' → Forall (plain keepInQuery) q') →
  refQueryOf (queryText q ++ fragmentText f) = q.
Proof.
  intros Hq. unfold refQueryOf. destruct q as [q|]; simpl.
  - specialize (Hq q eq_refl). rewrite drop_0.
    rewrite takeUntil_app;
      [by rewrite refQueryEncode_fixed | by apply plain_query_no_hash |].
    by destruct f.
  - by destruct f.
Qed.

Lemma refFragmentOf_text q f :
  (∀ q', q = Some q' → Forall (plain keepInQuery) q') →
  (∀ f', f = Some f' → Forall (plain keepInFragment) f') →
  refFragmentOf (queryText q ++ fragmentText f) = f.
Proof.
  intros Hq Hf. unfold refFragmentOf.
  assert (dropUntil isHash (queryText q ++ fragmentText f) = fragmentText f)
    as ->.
  { destruct q as [q|]; simpl.
    - specialize (Hq q eq_refl).
      rewrite dropUntil_app; [done | by apply plain_query_no_hash |].
      by destruct f.
    - by destruct f. }
  destruct f as [f|]; [|done]. simpl. rewrite drop_0.
  by rewrite refFragmentEncode_fixed by by apply Hf.
Qed.

Lemma web_scheme sch :
  isWebScheme sch = true → sch = str "http" ∨ sch = str "https".
Proof.
  unfold isWebScheme. rewrite orb_true_iff, !bool_decide_eq_true. tauto.
Qed.

Lemma web_scheme_text sch :
  isWebScheme sch = true →
  Forall visible sch ∧ Forall (λ c, isColon c = false) sch
  ∧ lowered sch = sch.
Proof.
  intros [->| ->]%web_scheme; (split_and!; [| | done]).
  - repeat apply Forall_cons_2; first [by vm_compute | constructor].
  - repeat apply Forall_cons_2; first [by vm_compute | constructor].
  - repeat apply Forall_cons_2; first [by vm_compute | constructor].
  - repeat apply Forall_cons_2; first [by vm_compute | constructor].
Qed.

Lemma dropControls_id s : Forall visible s → dropControls s = s.
Proof.
  destruct 1 as [|c s [Hc _] _]; [done |]. simpl.
  by rewrite bool_decide_eq_false_2 by lia.
Qed.

Lemma trimControls_id s : Forall visible s → trimControls s = s.
Proof.
  intros Hs. unfold trimControls. rewrite (dropControls_id s) by done.
  rewrite dropControls_id by by apply Forall_reverse.
  apply reverse_involutive.
Qed.

(** The text of [href] for a URL object of the invariant. *)
Lemma href_text u h :
  username u = [] → password u = [] → port u = None → host u = Some h →
  href u
  = scheme u
    ++ 58 :: 47 :: 47 :: h ++ path u ++ queryText (query u)
    ++ fragmentText (fragment u).
Proof.
  intros Hu Hp Hpo Hh. unfold href, credentials.
  rewrite Hu, Hp, Hpo, Hh. simpl. rewrite app_nil_r.
  by destruct (query u), (fragment u).
Qed.

Lemma refParseHier_text sch h p q f :
  domainLike h = true → refPathParse p = p →
  (∀ q', q = Some q' → Forall (plain keepInQuery) q') →
  (∀ f', f = Some f' → Forall (plain keepInFragment) f') →
  refParseHier sch (h ++ p ++ queryText q ++ fragmentText f)
  = Some {| scheme := sch; username := []; password := [];
            host := Some h; port := None; path := p; query := q;
            fragment := f |}.
Proof.
  intros Hh Hp Hq Hf. unfold refParseHier.
  pose proof (domainLike_chars h Hh) as Hc.
  destruct (parsed_path_plain p Hp) as [Hne Hplain].
  assert (stopsAt isAuthorityEnd (p ++ queryText q ++ fragmentText f))
    as Hstop.
  { rewrite <- Hp. by destruct (refPathParse_form p) as (out & _ & _ & ->). }
  assert (stopsAt isPathEnd (queryText q ++ fragmentText f)) as Hstop'.
  { by destruct q, f. }
  assert (refHostParse (h ++ p ++ queryText q ++ fragmentText f) = Some h)
    as ->.
  { unfold refHostParse. rewrite stripTabNewline_id.
    - rewrite takeUntil_app; [| by apply host_no_end | done].
      fold (lowered h). by rewrite lowered_host, Hh.
    - rewrite !Forall_app. split_and!.
      + by apply host_visible.
      + by apply plain_path_visible.
      + destruct q as [q|]; [|done]. apply Forall_cons_2.
        * unfold visible. lia.
        * by apply plain_query_visible, Hq.
      + destruct f as [f|]; [|done]. apply Forall_cons_2.
        * unfold visible. lia.
        * by apply plain_fragment_visible, Hf. }
  simpl. rewrite dropUntil_app; [| by apply host_no_end | done].
  rewrite takeUntil_app; [| by apply plain_path_no_end | done].
  rewrite dropUntil_app; [| by apply plain_path_no_end | done].
  by rewrite Hp, refQueryOf_text, refFragmentOf_text.
Qed.

Lemma visible_href u : refWf u → Forall visible (href u).
Proof.
  intros (Hs & Hu & Hp & Hpo & (h & Hh & Hd) & Hpa & Hq & Hf).
  rewrite (href_text u h) by done.
  destruct (web_scheme_text _ Hs) as (Hv & _ & _).
  destruct (parsed_path_plain _ Hpa) as [_ Hplain].
  rewrite Forall_app. split; [done |].
  repeat apply Forall_cons_2; try (unfold visible; lia).
  rewrite !Forall_app. split_and!.
  - by apply host_visible, domainLike_chars.
  - by apply plain_path_visible.
  - destruct (query u) as [q|]; [|done]. apply Forall_cons_2.
    + unfold visible. lia.
    + by apply plain_query_visible, Hq.
  - destruct (fragment u) as [f|]; [|done]. apply Forall_cons_2.
    + unfold visible. lia.
    + by apply plain_fragment_visible, Hf.
Qed.

Lemma refParse_href u : refWf u → refParse (href u) = Some u.
Proof.
  intros Hwf. pose proof (visible_href u Hwf) as Hvis.
  destruct Hwf as (Hs & Hu & Hp & Hpo & (h & Hh & Hd) & Hpa & Hq & Hf).
  unfold refParse.
  rewrite trimControls_id, stripTabNewline_id by done.
  rewrite (href_text u h) by done.
  destruct (web_scheme_text _ Hs) as (_ & Hcolon & Hlow).
  rewrite takeUntil_app; [| done | done].
  rewrite dropUntil_app; [| done | done].
  rewrite Hlow, Hs. simpl.
  rewrite drop_0, refParseHier_text by done.
  destruct u. simpl in *. by subst.
Qed.

Lemma refParseHier_wf sch r u :
  isWebScheme sch = true → refParseHier sch r = Some u → refWf u.
Proof.
  intros Hs. unfold refParseHier.
  destruct (refHostParse r) as [h|] eqn:Hh; [|done]. simpl.
  intros [= <-]. split_and!; simpl; try done.
  - exists h. split; [done |]. by apply (refHostParse_domain r).
  - apply refPathParse_idempotent.
  - unfold refQueryOf. destruct (startsWith _ _); [|done].
    intros q [= <-]. apply refQueryEncode_plain.
  - unfold refFragmentOf. destruct (startsWith _ _); [|done].
    intros f [= <-]. apply refFragmentEncode_plain.
Qed.

Lemma refParse_wf s u : refParse s = Some u → refWf u.
Proof.
  unfold refParse. destruct (isWebScheme _ && _) eqn:Hc; [|done].
  apply andb_true_iff in Hc as [Hs _]. by apply refParseHier_wf.
Qed.

(** *** Query entries *)

Definition keepInFormOrSpace (c : N) : bool :=
  keepInForm c || bool_decide (c = 32).
Definition spaceToPlus (c : N) : N := if decide (c = 32) then 43 else c.
Definition piece (kv : jsstring * jsstring) : jsstring :=
  formEscape kv.1 ++ 61 :: formEscape kv.2.
Definition decodePiece (p : jsstring) : jsstring * jsstring :=
  (formDecode (takeUntil isEq p), formDecode (drop 1 (dropUntil isEq p))).

Lemma keepInForm_spec c :
  keepInForm c = true →
  c ≠ 32 ∧ c ≠ 35 ∧ c ≠ 37 ∧ c ≠ 38 ∧ c ≠ 43 ∧ c ≠ 61 ∧ c ≠ 63
  ∧ keepInQuery c = true.
Proof.
  unfold keepInForm, isAlnum, isDigit, isUpper, isLower, keepInQuery,
    isControlOrSpace.
  rewrite !orb_true_iff, !bool_decide_eq_true, !elem_of_cons, elem_of_nil.
  intros Hc. split_and!; try lia.
  apply negb_true_iff, orb_false_iff.
  split; apply bool_decide_eq_false;
    [|rewrite !elem_of_cons, elem_of_nil]; lia.
Qed.

(** The code units of an escaped name or value. *)
Lemma formEscape_elem s c :
  c ∈ formEscape s → c = 43 ∨ hexish c ∨ (c < 128 ∧ keepInForm c = true).
Proof.
  unfold formEscape. intros (c' & -> & Hc')%list_elem_of_fmap.
  unfold spaceToPlus. case_decide as H32; [by left |]. right.
  apply percentEncode_elem in Hc' as [?|(? & Hk & _)]; [by left |]. right.
  split; [done |]. apply orb_true_iff in Hk as [?|Hk]; [done |].
  by apply bool_decide_eq_true in Hk.
Qed.

Lemma formEscape_plain s : Forall (plain keepInQuery) (formEscape s).
Proof.
  apply Forall_forall. intros c [->|[Hh|[Hc Hk]]]%formEscape_elem.
  - split; [lia | done].
  - split; [destruct Hh as [->|[?|?]]; lia | by apply keepInQuery_escapes].
  - split; [done | by apply keepInForm_spec].
Qed.

Lemma formEscape_free s c :
  c ∈ [35; 38; 61; 63] → c ∉ formEscape s.
Proof.
  rewrite !elem_of_cons, elem_of_nil.
  intros Hc [->|[[->|[?|?]]|[_ Hk%keepInForm_spec]]]%formEscape_elem; lia.
Qed.

Lemma piece_elem kv c :
  c ∈ piece kv → c = 61 ∨ c ∈ formEscape kv.1 ∨ c ∈ formEscape kv.2.
Proof. unfold piece. rewrite elem_of_app, elem_of_cons. tauto. Qed.

Lemma toString_elem entries c :
  c ∈ refSearchParamsToString entries →
  c = 38 ∨ c = 61 ∨ ∃ s, c ∈ formEscape s.
Proof.
  unfold refSearchParamsToString.
  intros [->|(p & (kv & -> & _)%list_elem_of_fmap & Hc)]%joinWith_elem;
    [by left |].
  apply (piece_elem kv) in Hc as [->|[?|?]]; eauto.
Qed.

Lemma toString_plain entries :
  Forall (plain keepInQuery) (refSearchParamsToString entries).
Proof.
  apply Forall_forall. intros c [->|[->|[s Hc]]]%toString_elem.
  - split; [lia | done].
  - split; [lia | done].
  - by apply (proj1 (Forall_forall _ _) (formEscape_plain s)).
Qed.

Lemma toString_no_question entries :
  63 ∉ refSearchParamsToString entries.
Proof.
  intros [?|[?|[s Hc]]]%toString_elem; [lia.. |].
  revert Hc. apply formEscape_free. set_solver.
Qed.

Lemma toString_empty entries :
  refSearchParamsToString entries = [] ↔ entries = [].
Proof.
  split; [|by intros ->]. destruct entries as [|kv entries]; [done |].
  unfold refSearchParamsToString. rewrite fmap_cons.
  cbn [joinWith fst snd]. destruct (_ <$> entries).
  - by intros [_ ?]%app_eq_nil.
  - rewrite <- app_assoc. by intros [_ ?]%app_eq_nil.
Qed.

Lemma formDecode_elem s c : c ∈ formDecode s → c < 128 ∨ c ∈ s.
Proof.
  revert c. induction s as [s IH] using list_length_ind. intros c.
  destruct s as [|x s]; [by intros ?%elem_of_nil |]. simpl.
  assert (∀ c, c ∈ x :: formDecode s → c < 128 ∨ c ∈ x :: s) as Hskip.
  { intros c' [->|Hc']%elem_of_cons.
    - right. apply list_elem_of_here.
    - destruct (IH s ltac:(simpl; lia) c' Hc'); [by left |].
      right. by apply list_elem_of_further. }
  case_decide as H43.
  - intros [->|Hc]%elem_of_cons; [left; lia |].
    destruct (IH s ltac:(simpl; lia) c Hc); [by left |].
    right. by apply list_elem_of_further.
  - case_decide as H37; [|apply Hskip].
    destruct s as [|a [|b s]]; [apply Hskip.. |].
    destruct (hexValue a) as [va|]; [|apply Hskip].
    destruct (hexValue b) as [vb|]; [|apply Hskip].
    case_decide as Hv; [|apply Hskip].
    intros [->|Hc]%elem_of_cons; [by left |].
    destruct (IH s ltac:(simpl; lia) c Hc); [by left |].
    right. by do 3 apply list_elem_of_further.
Qed.

Lemma takeUntil_elem stop s c : c ∈ takeUntil stop s → c ∈ s.
Proof.
  induction s as [|x s IH]; [done |]. simpl.
  destruct (stop x); [by intros ?%elem_of_nil |].
  intros [->|?]%elem_of_cons; [apply list_elem_of_here |].
  by apply list_elem_of_further, IH.
Qed.

Lemma dropUntil_elem stop s c : c ∈ dropUntil stop s → c ∈ s.
Proof.
  induction s as [|x s IH]; [done |]. simpl.
  destruct (stop x); [done |]. intros ?. by apply list_elem_of_further, IH.
Qed.

Lemma drop1_elem (s : jsstring) c : c ∈ drop 1 s → c ∈ s.
Proof.
  destruct s as [|x s]; [done |]. simpl. rewrite drop_0.
  by apply list_elem_of_further.
Qed.

Lemma dropQuestion_elem s c : c ∈ dropQuestion s → c ∈ s.
Proof.
  destruct s as [|x s]; [done |]. simpl.
  case_decide; [by apply list_elem_of_further | done].
Qed.

(** The entries read from an ASCII query string are ASCII. *)
Lemma parse_ascii s kv :
  Forall (λ c, c < 128) s →
  kv ∈ refSearchParamsParse s →
  Forall (λ c, c < 128) kv.1 ∧ Forall (λ c, c < 128) kv.2.
Proof.
  intros Hs. unfold refSearchParamsParse.
  intros (p & -> & [_ Hp]%list_elem_of_filter)%list_elem_of_fmap.
  assert (∀ c, c ∈ p → c < 128) as Hp'.
  { intros c Hc. destruct (splitOn_elem _ _ _ _ Hp Hc) as [Hin _].
    apply dropQuestion_elem in Hin.
    by apply (proj1 (Forall_forall _ _) Hs). }
  simpl. split; apply Forall_forall; intros c [?|Hc]%formDecode_elem;
    try done; apply Hp'.
  - by apply takeUntil_elem in Hc.
  - by apply drop1_elem, dropUntil_elem in Hc.
Qed.

Lemma formEscape_cons c s :
  c < 128 → Forall (λ c, c < 128) s →
  formEscape (c :: s)
  = (spaceToPlus <$> encodePoint keepInFormOrSpace c) ++ formEscape s.
Proof.
  intros Hc Hs. unfold formEscape, percentEncode.
  rewrite !codePoints_ascii by (try apply Forall_cons_2; done).
  by rewrite bind_cons, fmap_app.
Qed.

Lemma formDecode_escaped a b x y rest :
  hexValue a = Some x → hexValue b = Some y → 16 * x + y < 128 →
  formDecode ([37; a; b] ++ rest) = 16 * x + y :: formDecode rest.
Proof.
  intros Ha Hb Hxy. cbn [app formDecode].
  rewrite decide_False, decide_True by done.
  by rewrite Ha, Hb, decide_True.
Qed.

Lemma formDecode_escape s :
  Forall (λ c, c < 128) s → formDecode (formEscape s) = s.
Proof.
  induction 1 as [|c s Hc Hs IH]; [done |].
  rewrite formEscape_cons by done. unfold encodePoint.
  rewrite decide_True by done.
  destruct (keepInFormOrSpace c) eqn:Hk.
  - rewrite fmap_cons, fmap_nil. unfold spaceToPlus.
    destruct (decide (c = 32)) as [->|H32].
    + simpl. by rewrite IH.
    + apply orb_true_iff in Hk as [Hk|Hk];
        [|by apply bool_decide_eq_true in Hk].
      apply keepInForm_spec in Hk. simpl.
      rewrite !decide_False by lia. by rewrite IH.
  - unfold percentByte. rewrite !fmap_cons, fmap_nil.
    pose proof (hexDigit_isHexChar (c `div` 16)) as H1.
    pose proof (hexDigit_isHexChar (c `mod` 16)) as H2.
    unfold spaceToPlus, isHexChar in *.
    rewrite !decide_False by lia.
    assert (c `div` 16 < 8) by (apply N.Div0.div_lt_upper_bound; lia).
    assert (16 * (c `div` 16) + c `mod` 16 = c) as Hdiv
      by (symmetry; apply N.div_mod; lia).
    rewrite <- Hdiv at 3.
    rewrite <- (N.mod_small (c `div` 16) 16) at 2 by lia.
    rewrite <- (N.Div0.mod_mod c 16) at 2.
    rewrite <- IH at 2. apply formDecode_escaped.
    + apply hexValue_hexDigit.
    + apply hexValue_hexDigit.
    + rewrite N.mod_small, N.Div0.mod_mod by lia. lia.
Qed.

Lemma decodePiece_piece kv :
  Forall (λ c, c < 128) kv.1 → Forall (λ c, c < 128) kv.2 →
  decodePiece (piece kv) = kv.
Proof.
  intros H1 H2. unfold decodePiece, piece.
  assert (Forall (λ c, isEq c = false) (formEscape kv.1)) as Hfree.
  { apply Forall_forall. intros c Hc. apply bool_decide_eq_false.
    intros ->. revert Hc. apply formEscape_free. set_solver. }
  rewrite takeUntil_app; [| done | done].
  rewrite dropUntil_app; [| done | done].
  simpl. rewrite drop_0, !formDecode_escape by done. by destruct kv.
Qed.

Lemma parse_toString entries :
  entries ≠ [] →
  Forall (λ kv, Forall (λ c, c < 128) kv.1 ∧ Forall (λ c, c < 128) kv.2)
    entries →
  refSearchParamsParse (63 :: refSearchParamsToString entries) = entries.
Proof.
  intros Hne Hascii. unfold refSearchParamsParse, refSearchParamsToString.
  simpl. rewrite splitOn_joinWith.
  - rewrite UrlNormalizerSpec.filter_all.
    + rewrite <- list_fmap_compose.
      induction Hascii as [|kv entries [H1 H2] _ IH]; [done |].
      rewrite fmap_cons. simpl. fold (piece kv) (decodePiece (piece kv)).
      rewrite decodePiece_piece by done. f_equal.
      destruct entries as [|kv' entries]; [done |]. by apply IH.
    + intros p (kv & -> & _)%list_elem_of_fmap.
      by intros [_ ?]%app_eq_nil.
  - by destruct entries.
  - apply Forall_forall. intros p (kv & -> & _)%list_elem_of_fmap.
    intros [?|[Hc|Hc]]%(piece_elem kv); [lia | |];
      revert Hc; apply formEscape_free; set_solver.
Qed.

(** *** The reference runtime satisfies the laws *)

Lemma ref_wf_scheme u :
  refWf u → scheme u = str "http" ∨ scheme u = str "https".
Proof. intros (Hs & _). by apply web_scheme. Qed.

Lemma ref_setProtocol_https u :
  refWf u → scheme u = str "http" →
  refSetProtocol u (str "https:")
  = withScheme u (str "https") (httpsPort (port u)).
Proof.
  intros (_ & _ & _ & Hport & _) Hs. unfold refSetProtocol.
  rewrite Hs, Hport. reflexivity.
Qed.

Lemma ref_wf_withScheme u :
  refWf u → scheme u = str "http" →
  refWf (withScheme u (str "https") (httpsPort (port u))).
Proof.
  intros (_ & Hu & Hp & Hport & Hh & Hpath & Hq & Hf) _.
  unfold refWf. simpl. rewrite Hport. by split_and!.
Qed.

Lemma ref_wf_withHost u v h :
  refWf u → refHostParse v = Some h → refWf (withHost u h).
Proof.
  intros (Hs & Hu & Hp & Hport & _ & Hpath & Hq & Hf) Hv.
  unfold refWf. simpl. split_and!; try done.
  exists h. split; [done |]. by apply (refHostParse_domain v).
Qed.

Lemma ref_wf_withQuery u v :
  refWf u → refWf (withQuery u (Some (refQueryEncode v))).
Proof.
  intros (Hs & Hu & Hp & Hport & Hh & Hpath & _ & Hf).
  unfold refWf. simpl. split_and!; try done.
  intros q [= <-]. apply refQueryEncode_plain.
Qed.

Lemma ref_wf_withoutQuery u : refWf u → refWf (withQuery u None).
Proof.
  intros (Hs & Hu & Hp & Hport & Hh & Hpath & _ & Hf).
  unfold refWf. simpl. by split_and!.
Qed.

Lemma ref_wf_withoutFragment u : refWf u → refWf (withFragment u None).
Proof.
  intros (Hs & Hu & Hp & Hport & Hh & Hpath & Hq & _).
  unfold refWf. simpl. by split_and!.
Qed.

Lemma ref_wf_withPath u v : refWf u → refWf (withPath u (refPathParse v)).
Proof.
  intros (Hs & Hu & Hp & Hport & Hh & _ & Hq & Hf).
  unfold refWf. simpl. split_and!; try done.
  apply refPathParse_idempotent.
Qed.

Lemma ref_wf_host u :
  refWf u →
  ∃ h, host u = Some h ∧ refHostParse h = Some h
       ∧ String_toLowerCase h = h.
Proof.
  intros (_ & _ & _ & _ & (h & Hh & Hd) & _). exists h.
  split_and!; [done | by apply refHostParse_fixed |].
  by apply lowered_host, domainLike_chars.
Qed.

Lemma ref_wf_path u : refWf u → refPathParse (path u) = path u.
Proof. by intros (_ & _ & _ & _ & _ & Hpath & _). Qed.

Lemma search_ascii u : refWf u → Forall (λ c, c < 128) (search u).
Proof.
  intros (_ & _ & _ & _ & _ & _ & Hq & _). unfold search.
  destruct (query u) as [[|c q]|] eqn:Hqu; [constructor | | constructor].
  apply Forall_cons_2; [by vm_compute |].
  eapply Forall_impl; [by apply Hq |]. by intros ? [? _].
Qed.

Lemma ref_searchParams_roundtrip u (entries : list (jsstring * jsstring)) :
  refWf u →
  entries ⊆ refSearchParamsParse (search u) →
  refSearchParamsToString entries ≠ [] →
  refSearchParamsParse
    (str "?" ++ refQueryEncode (refSearchParamsToString entries))
  = entries.
Proof.
  intros Hwf Hsub Hne.
  rewrite refQueryEncode_fixed by apply toString_plain.
  apply parse_toString.
  - intros He. apply Hne. by apply toString_empty.
  - apply Forall_forall. intros kv Hkv.
    apply (parse_ascii (search u)); [by apply search_ascii | by apply Hsub].
Qed.

Lemma ref_query_encode_nonempty (entries : list (jsstring * jsstring)) :
  refSearchParamsToString entries ≠ [] →
  refQueryEncode (refSearchParamsToString entries) ≠ [].
Proof. by rewrite refQueryEncode_fixed by apply toString_plain. Qed.

Lemma ref_searchParams_no_question (entries : list (jsstring * jsstring)) :
  head (refSearchParamsToString entries) ≠ Some 63.
Proof.
  pose proof (toString_no_question entries) as Hq.
  destruct (refSearchParamsToString entries) as [|c q]; [done |].
  intros [= ->]. apply Hq, list_elem_of_here.
Qed.

Lemma ref_path_no_final_question u :
  refWf u → path u ≠ [] ∧ last (path u) ≠ Some 63.
Proof.
  intros (_ & _ & _ & _ & _ & Hpath & _).
  apply parsed_path_plain in Hpath as [Hne Hplain]. split; [done |].
  intros (p & Hp)%last_Some. rewrite Hp in Hplain.
  apply Forall_app in Hplain as [_ Hlast].
  apply Forall_cons_1 in Hlast as [[_ Hk] _]. by vm_compute in Hk.
Qed.

Lemma ref_query_no_final_question (entries : list (jsstring * jsstring)) :
  last (refQueryEncode (refSearchParamsToString entries)) ≠ Some 63.
Proof.
  rewrite refQueryEncode_fixed by apply toString_plain.
  intros (q & Hq)%last_Some.
  apply (toString_no_question entries). rewrite Hq.
  apply elem_of_app. right. apply list_elem_of_here.
Qed.

#[export] Instance webUrlLaws : @UrlLaws webUrls asciiText := {|
  host_parse := refHostParse;
  path_parse := refPathParse;
  query_encode := refQueryEncode;
  URL_wf := refWf;
  wf_scheme := ref_wf_scheme;
  wf_parse := λ s u Hp _, refParse_wf s u Hp;
  parse_href := refParse_href;
  setProtocol_https := ref_setProtocol_https;
  setHostname_spec := λ u v _, eq_refl;
  setSearch_spec := λ u v _, eq_refl;
  setHash_empty := λ u _, eq_refl;
  setPathname_spec := λ u v _, eq_refl;
  wf_withScheme := ref_wf_withScheme;
  wf_withHost := ref_wf_withHost;
  wf_withQuery := ref_wf_withQuery;
  wf_withoutQuery := ref_wf_withoutQuery;
  wf_withoutFragment := ref_wf_withoutFragment;
  wf_withPath := ref_wf_withPath;
  wf_host := ref_wf_host;
  wf_path := ref_wf_path;
  searchParams_roundtrip := ref_searchParams_roundtrip;
  searchParams_empty := toString_empty;
  searchParams_parse_empty := eq_refl;
  query_encode_nonempty := ref_query_encode_nonempty;
  searchParams_no_question := ref_searchParams_no_question;
  path_no_final_question := ref_path_no_final_question;
  query_no_final_question := ref_query_no_final_question;
|}.

(** *** The normaliser on the reference runtime

    Cases of the repository's unit tests, replayed. *)

Example normalizeUrl_forces_https :
  normalizeUrl (str "http://example.com/path") DEFAULT_NORMALIZATION_OPTIONS
  = Some (str "https://example.com/path").
Proof. by vm_compute. Qed.

Example normalizeUrl_strips_www :
  normalizeUrl (str "https://WWW.EXAMPLE.COM/path")
    DEFAULT_NORMALIZATION_OPTIONS
  = Some (str "https://example.com/path").
Proof. by vm_compute. Qed.

Example normalizeUrl_sorts_params :
  normalizeUrl (str "https://example.com/path?z=3&a=1&m=2")
    DEFAULT_NORMALIZATION_OPTIONS
  = Some (str "https://example.com/path?a=1&m=2&z=3").
Proof. by vm_compute. Qed.

Example normalizeUrl_drops_all_tracking :
  normalizeUrl (str "https://example.com/path?utm_source=test&fbclid=abc")
    DEFAULT_NORMALIZATION_OPTIONS
  = Some (str "https://example.com/path").
Proof. by vm_compute. Qed.

Example normalizeUrl_collapses_slashes :
  normalizeUrl (str "https://example.com//path///to////page")
    DEFAULT_NORMALIZATION_OPTIONS
  = Some (str "https://example.com/path/to/page").
Proof. by vm_compute. Qed.

Example normalizeUrl_keeps_root :
  normalizeUrl (str "https://example.com/") DEFAULT_NORMALIZATION_OPTIONS
  = Some (str "https://example.com/").
Proof. by vm_compute. Qed.

Example normalizeUrl_rejects_garbage :
  normalizeUrl (str "not-a-valid-url") DEFAULT_NORMALIZATION_OPTIONS = None.
Proof. by vm_compute. Qed.

(** C5 as stated fails: one pass removes one leading [www.] label, so
    the result of normalising [https://www.www.example.com/] is changed by a
    second pass. *)
Lemma normalizeUrl_not_idempotent :
  isValidUrl (str "https://www.www.example.com/") = true
  ∧ normalizeUrl (str "https://www.www.example.com/")
      DEFAULT_NORMALIZATION_OPTIONS
    = Some (str "https://www.example.com/")
  ∧ normalizeUrl (str "https://www.example.com/")
      DEFAULT_NORMALIZATION_OPTIONS
    = Some (str "https://example.com/")
  ∧ normalizeUrl (str "https://www.example.com/")
      DEFAULT_NORMALIZATION_OPTIONS
    ≠ Some (str "https://www.example.com/").
Proof. split_and!; by vm_compute. Qed.

(** An escaped slash is a second way out of the fixed point: the slashes
    are collapsed before the path is decoded. *)
Example normalizeUrl_escaped_slashes :
  normalizeUrl (str "https://example.com/a%2F%2Fb")
    DEFAULT_NORMALIZATION_OPTIONS
  = Some (str "https://example.com/a//b")
  ∧ normalizeUrl (str "https://example.com/a//b")
      DEFAULT_NORMALIZATION_OPTIONS
    = Some (str "https://example.com/a/b").
Proof. split; by vm_compute. Qed.

Lemma normalizeUrl_idempotent_when_settled_witness :
  isValidUrl (str "HTTP://WWW.Example.com/a//b/?utm_source=x&b=2&a=1#frag")
  = true
  ∧ normalizeUrl
      (str "HTTP://WWW.Example.com/a//b/?utm_source=x&b=2&a=1#frag")
      DEFAULT_NORMALIZATION_OPTIONS
    = Some (str "https://example.com/a/b?a=1&b=2")
  ∧ normalizeUrl (str "https://example.com/a/b?a=1&b=2")
      DEFAULT_NORMALIZATION_OPTIONS
    = Some (str "https://example.com/a/b?a=1&b=2").
Proof.
  split; [by vm_compute |]. split; [by vm_compute |].
  apply (UrlNormalizerSpec.normalizeUrl_idempotent_when_settled
           DEFAULT_NORMALIZATION_OPTIONS
           (str "HTTP://WWW.Example.com/a//b/?utm_source=x&b=2&a=1#frag")).
  - by vm_compute.
  - by vm_compute.
  - intros u Hu. vm_compute in Hu. injection Hu as <-. by vm_compute.
Defined.

End ReferenceUrlSpec.

(** ** History store: insertion, lookup and maintenance *)

Module HistoryStoreLaws.
Import HistoryStore HistoryMaintenance.

(** The URLs a lookup finds. *)
Definition storedUrls (db : Database) : gset jsstring :=
  list_to_set (normalized_url <$> rows db).

(** What the table's constraints and its AUTOINCREMENT counter keep: one
    row per normalised URL, one row per id, no id above the counter. *)
Definition consistent (db : Database) : Prop :=
  NoDup (normalized_url <$> rows db)
  ∧ NoDup (id <$> rows db)
  ∧ Forall (λ row, id row ≤ lastRowid db) (rows db).

Lemma head_filter_app {A} (P : A → Prop) `{∀ x, Decision (P x)}
    (l k : list A) :
  head (filter P (l ++ k))
  = match head (filter P l) with
    | Some x => Some x
    | None => head (filter P k)
    end.
Proof. rewrite filter_app. by destruct (filter P l). Qed.

Lemma select_None db u :
  selectByNormalizedUrl db u = None ↔ u ∉ storedUrls db.
Proof.
  unfold selectByNormalizedUrl, storedUrls.
  rewrite elem_of_list_to_set, list_elem_of_fmap. split.
  - intros Hnone (row & -> & Hin).
    assert (row ∈ filter (λ r, normalized_url r = normalized_url row)
                    (rows db)) as Hf by by apply list_elem_of_filter.
    destruct (filter _ (rows db)); [by apply elem_of_nil in Hf | done].
  - intros Hnot. destruct (filter _ (rows db)) as [|row l] eqn:Hf; [done |].
    assert (row ∈ filter (λ r, normalized_url r = u) (rows db)) as Hin
      by (rewrite Hf; apply list_elem_of_here).
    apply list_elem_of_filter in Hin as [<- Hin]. destruct Hnot. eauto.
Qed.

Lemma find_None db u :
  findByNormalizedUrl db u = None ↔ u ∉ storedUrls db.
Proof.
  unfold findByNormalizedUrl. rewrite fmap_None. apply select_None.
Qed.

Lemma find_is_Some db u :
  is_Some (findByNormalizedUrl db u) ↔ u ∈ storedUrls db.
Proof.
  rewrite <- not_eq_None_Some, find_None.
  destruct (decide (u ∈ storedUrls db)); tauto.
Qed.

Lemma updateRow_id entry row : id (updateRow entry row) = id row.
Proof. unfold updateRow. by case_decide. Qed.

Lemma update_urls entry (l : list HistoryRow) :
  normalized_url <$> (updateRow entry <$> l) = normalized_url <$> l.
Proof.
  rewrite <- list_fmap_compose. apply list_fmap_ext.
  intros i row _. apply HistoryStoreSpec.updateRow_normalized_url.
Qed.

Lemma update_ids entry (l : list HistoryRow) :
  id <$> (updateRow entry <$> l) = id <$> l.
Proof.
  rewrite <- list_fmap_compose. apply list_fmap_ext.
  intros i row _. apply updateRow_id.
Qed.

(** The database after [upsert], by its two branches. *)
Lemma upsert_db db entry :
  (upsert db entry).1
  = if decide (he_normalizedUrl entry ∈ storedUrls db)
    then {| rows := updateRow entry <$> rows db; lastRowid := lastRowid db |}
    else insertRow db entry.
Proof.
  unfold upsert.
  destruct (findByNormalizedUrl db (he_normalizedUrl entry)) as [e|] eqn:Hf.
  - rewrite decide_True; [done |]. apply find_is_Some. by rewrite Hf.
  - rewrite decide_False; [done |]. by apply find_None.
Qed.

Lemma upsert_storedUrls db entry :
  storedUrls (upsert db entry).1
  = storedUrls db ∪ {[ he_normalizedUrl entry ]}.
Proof.
  rewrite upsert_db. unfold storedUrls. case_decide as Hin; simpl.
  - rewrite update_urls. unfold storedUrls in Hin. set_solver.
  - rewrite fmap_app, list_to_set_app_L. simpl. set_solver.
Qed.

Lemma upsert_consistent db entry :
  consistent db → consistent (upsert db entry).1.
Proof.
  intros (Hurls & Hids & Hmax). rewrite upsert_db. unfold consistent.
  case_decide as Hin; simpl.
  - rewrite update_urls, update_ids. split_and!; try done.
    apply Forall_fmap. eapply Forall_impl; [done |].
    intros row Hrow. simpl. by rewrite updateRow_id.
  - rewrite !fmap_app. simpl. split_and!.
    + apply NoDup_app. split_and!; [done | | apply NoDup_singleton].
      intros u Hu ->%list_elem_of_singleton. apply Hin.
      unfold storedUrls. by apply elem_of_list_to_set.
    + apply NoDup_app. split_and!; [done | | apply NoDup_singleton].
      intros i (row & -> & Hrow)%list_elem_of_fmap Hi%list_elem_of_singleton.
      pose proof (proj1 (Forall_forall _ _) Hmax row Hrow) as Hle.
      simpl in Hle. lia.
    + apply Forall_app. split.
      * eapply Forall_impl; [done |]. intros row Hrow. simpl in *. lia.
      * apply Forall_singleton. simpl. lia.
Qed.

(** X1. For a URL that is not stored, [upsert] inserts one row under the
    next id; what it returns is what a later lookup of the URL returns, and
    the lookup of every other URL is unchanged. *)
Theorem upsert_new_roundtrip db entry :
  findByNormalizedUrl db (he_normalizedUrl entry) = None →
  let db' := (upsert db entry).1 in
  let returned := (upsert db entry).2 in
  returned = withId entry (lastRowid db + 1)
  ∧ findByNormalizedUrl db' (he_normalizedUrl entry) = Some returned
  ∧ length (rows db') = S (length (rows db))
  ∧ ∀ u, u ≠ he_normalizedUrl entry →
         findByNormalizedUrl db' u = findByNormalizedUrl db u.
Proof.
  intros Hnone. unfold upsert. rewrite Hnone. simpl.
  apply fmap_None in Hnone. unfold selectByNormalizedUrl in Hnone.
  split_and!.
  - done.
  - unfold findByNormalizedUrl, selectByNormalizedUrl. simpl.
    rewrite head_filter_app, Hnone, filter_cons, decide_True by done.
    done.
  - rewrite length_app. simpl. lia.
  - intros u Hu. unfold findByNormalizedUrl, selectByNormalizedUrl. simpl.
    rewrite head_filter_app, filter_cons, decide_False by (simpl; congruence).
    rewrite filter_nil. clear Hnone. by destruct (head _).
Qed.

Lemma upsert_new_roundtrip_witness :
  findByNormalizedUrl (upsert emptyDatabase Examples.resighting).1
    (str "https://example.com/article")
  = Some (withId Examples.resighting 1).
Proof.
  destruct (upsert_new_roundtrip emptyDatabase Examples.resighting)
    as (Hret & Hfind & _); [reflexivity |].
  etrans; [exact Hfind | by rewrite Hret].
Defined.

Lemma bulkUpsert_cons db entry rest :
  bulkUpsert db (entry :: rest)
  = ((bulkUpsert (upsert db entry).1 rest).1,
     (upsert db entry).2 :: (bulkUpsert (upsert db entry).1 rest).2).
Proof.
  simpl. destruct (upsert db entry) as [db1 r]. simpl.
  by destruct (bulkUpsert db1 rest).
Qed.

Lemma emptyDatabase_consistent : consistent emptyDatabase.
Proof. unfold consistent. simpl. split_and!; constructor. Qed.

(** X2. [bulkUpsert] keeps the table well formed: the branch that inserts is
    taken only for a URL that has no row, so no two rows share a normalised
    URL or an id, and no id exceeds the counter. *)
Theorem bulkUpsert_consistent db entries :
  consistent db → consistent (bulkUpsert db entries).1.
Proof.
  revert db. induction entries as [|entry rest IH]; intros db Hdb; [done |].
  rewrite bulkUpsert_cons. simpl. by apply IH, upsert_consistent.
Qed.

Lemma bulkUpsert_consistent_witness :
  consistent
    (bulkUpsert Examples.storedDb
       [Examples.resighting; Examples.resighting]).1.
Proof.
  apply bulkUpsert_consistent. unfold consistent. simpl.
  split_and!; [apply NoDup_singleton.. | apply Forall_singleton; simpl; lia].
Defined.

Lemma findExistingUrls_in db (normalizedUrls : list jsstring) u :
  u ∈ findExistingUrls db normalizedUrls
  ↔ u ∈ normalizedUrls ∧ is_Some (findByNormalizedUrl db u).
Proof.
  rewrite find_is_Some. unfold findExistingUrls, storedUrls.
  destruct normalizedUrls as [|v vs]; [set_solver |].
  rewrite !elem_of_list_to_set, !list_elem_of_fmap. split.
  - intros (row & -> & [Hin Hrow]%list_elem_of_filter). eauto.
  - intros (Hin & row & -> & Hrow). exists row. split; [done |].
    by apply list_elem_of_filter.
Qed.

(** X3. [findExistingUrls] returns exactly those of the given URLs that
    have a row; for an empty list it is the empty set. *)
Theorem findExistingUrls_spec db (normalizedUrls : list jsstring) u :
  u ∈ findExistingUrls db normalizedUrls
  ↔ u ∈ normalizedUrls ∧ is_Some (findByNormalizedUrl db u).
Proof. apply findExistingUrls_in. Qed.

Lemma bulkUpsert_storedUrls db entries :
  storedUrls (bulkUpsert db entries).1
  = storedUrls db ∪ list_to_set (he_normalizedUrl <$> entries).
Proof.
  revert db. induction entries as [|entry rest IH]; intros db.
  - simpl. set_solver.
  - rewrite bulkUpsert_cons. simpl. rewrite IH, upsert_storedUrls.
    set_solver.
Qed.

(** X4. [bulkUpsert] returns one entry per argument, and afterwards every
    URL of the batch is stored beside those stored before: a later
    [findExistingUrls] on the batch reports all of its URLs. *)
Theorem bulkUpsert_stores db entries :
  let db' := (bulkUpsert db entries).1 in
  length (bulkUpsert db entries).2 = length entries
  ∧ (∀ u, is_Some (findByNormalizedUrl db' u)
          ↔ is_Some (findByNormalizedUrl db u)
            ∨ u ∈ he_normalizedUrl <$> entries)
  ∧ findExistingUrls db' (he_normalizedUrl <$> entries)
    = list_to_set (he_normalizedUrl <$> entries).
Proof.
  simpl. split_and!.
  - revert db. induction entries as [|entry rest IH]; intros db; [done |].
    rewrite bulkUpsert_cons. simpl. by rewrite IH.
  - intros u. rewrite !find_is_Some, bulkUpsert_storedUrls. set_solver.
  - apply set_eq. intros u. rewrite findExistingUrls_in.
    rewrite find_is_Some, bulkUpsert_storedUrls. set_solver.
Qed.

Section Maintenance.
Context {dates : DateRuntime} {sqlite : SqliteRuntime}.

Lemma filter_split_length {A} (P : A → bool) (l : list A) :
  (length (filter (λ x, P x = true) l)
   + length (filter (λ x, P x = false) l))%nat
  = length l.
Proof.
  induction l as [|x l IH]; [done |].
  rewrite !filter_cons. destruct (P x); simpl; lia.
Qed.

Lemma filter_filter_nil {A} (P Q : A → Prop) `{∀ x, Decision (P x)}
    `{∀ x, Decision (Q x)} (l : list A) :
  (∀ x, P x → Q x → False) → filter P (filter Q l) = [].
Proof.
  intros HPQ. induction l as [|x l IH]; [done |].
  rewrite (filter_cons Q). case_decide as HQ; [|done].
  rewrite filter_cons, decide_False; [done |]. intros HP. by apply (HPQ x).
Qed.

(** X5. [cleanup] deletes exactly the rows first seen before the cut-off
    date (the argument, or the retention period counted back from now) and
    returns their number; the lookups of the rows that stay are unchanged,
    and a second [cleanup] with the same cut-off deletes nothing. *)
Theorem cleanup_spec db retentionDays now beforeDate db' changes :
  consistent db →
  cleanup db retentionDays now beforeDate = Some (db', changes) →
  ∃ cutoffDate,
    cutoffDate
    = match beforeDate with
      | Some d => d
      | None => default [] (calculateCutoffDate retentionDays now)
      end
    ∧ (∀ row, row ∈ rows db'
              ↔ row ∈ rows db ∧ TEXT_lt (first_seen_at row) cutoffDate = false)
    ∧ changes = Z.of_nat (length (rows db)) - Z.of_nat (length (rows db'))
    ∧ (∀ row, row ∈ rows db' →
              selectByNormalizedUrl db' (normalized_url row) = Some row)
    ∧ consistent db'
    ∧ cleanup db' retentionDays now (Some cutoffDate) = Some (db', 0).
Proof.
  intros (Hurls & Hids & Hmax) Hclean. unfold cleanup in Hclean.
  destruct (match beforeDate with Some d => Some d | None => _ end)
    as [cutoffDate|] eqn:Hcut; [|done].
  simpl in Hclean. injection Hclean as <- <-. exists cutoffDate.
  assert (∀ row, row ∈ filter (λ r, deleted cutoffDate r = false) (rows db)
                 ↔ row ∈ rows db
                   ∧ TEXT_lt (first_seen_at row) cutoffDate = false) as Hin.
  { intros row. rewrite list_elem_of_filter. unfold deleted. tauto. }
  split_and!.
  - destruct beforeDate; [congruence | by rewrite Hcut].
  - done.
  - simpl. pose proof (filter_split_length (deleted cutoffDate) (rows db)).
    lia.
  - simpl. intros row Hrow. unfold selectByNormalizedUrl. simpl.
    apply Hin in Hrow as [Hrow Hkeep]. clear Hin Hids Hmax.
    induction (rows db) as [|r l IH]; [by apply elem_of_nil in Hrow |].
    rewrite fmap_cons in Hurls. apply NoDup_cons in Hurls as [Hr Hl].
    apply elem_of_cons in Hrow as [->|Hrow].
    + rewrite filter_cons, decide_True by done.
      by rewrite filter_cons, decide_True.
    + assert (normalized_url r ≠ normalized_url row) as Hne.
      { intros Heq. apply Hr. rewrite Heq. by apply list_elem_of_fmap_2. }
      rewrite filter_cons. case_decide.
      * rewrite filter_cons, decide_False by done. by apply IH.
      * by apply IH.
  - unfold consistent. simpl. split_and!.
    + eapply sublist_NoDup; [done |]. apply fmap_sublist, sublist_filter.
    + eapply sublist_NoDup; [done |]. apply fmap_sublist, sublist_filter.
    + apply Forall_forall. intros row [_ Hrow]%list_elem_of_filter.
      by apply (proj1 (Forall_forall _ _) Hmax).
  - unfold cleanup. simpl. rewrite list_filter_filter_r by done.
    rewrite filter_filter_nil; [done |]. intros row. congruence.
Qed.
End Maintenance.

Import Reference.

(** The stored row of 2024-01-15 falls out of a retention of 90 days on
    2024-04-24. *)
Lemma cleanup_spec_witness :
  let emptied := {| rows := []; lastRowid := 1 |} in
  cleanup Examples.storedDb 90 1713952800000 None = Some (emptied, 1)
  ∧ cleanup emptied 90 1713952800000 (Some (str "2024-01-25T10:00:00.000Z"))
    = Some (emptied, 0).
Proof.
  intros emptied.
  assert (cleanup Examples.storedDb 90 1713952800000 None
          = Some (emptied, 1)) as Hclean by by vm_compute.
  split; [done |].
  destruct (cleanup_spec Examples.storedDb 90 1713952800000 None emptied 1)
    as (cutoffDate & -> & _ & _ & _ & _ & Hagain); [| done | exact Hagain].
  unfold consistent. simpl.
  split_and!; [apply NoDup_singleton.. | apply Forall_singleton; simpl; lia].
Defined.

End HistoryStoreLaws.

(** ** Edit distance and title hash *)

Module TitleMetricsSpec.
Import Similarity TitleMetrics.

(** The edit distance by its recurrence on the last code units of the two
    texts; both arguments are read from their ends, so they are given
    reversed. *)
Fixpoint editDistance (s : jsstring) : jsstring → nat :=
  fix inner (t : jsstring) : nat :=
    match s with
    | [] => length t
    | a :: s' =>
        match t with
        | [] => length s
        | b :: t' =>
            cell (editDistance s' t) (inner t') (editDistance s' t')
              (if decide (a = b) then 0 else 1)
        end
    end.

Lemma editDistance_nil_l t : editDistance [] t = length t.
Proof. by destruct t. Qed.

Lemma editDistance_nil_r s : editDistance s [] = length s.
Proof. by destruct s. Qed.

Lemma editDistance_cons a s b t :
  editDistance (a :: s) (b :: t)
  = cell (editDistance s (b :: t)) (editDistance (a :: s) t)
      (editDistance s t) (if decide (a = b) then 0 else 1).
Proof. done. Qed.

#[local] Opaque editDistance.

Lemma cell_comm x y z c : cell x y z c = cell y x z c.
Proof. unfold cell. lia. Qed.

Lemma editDistance_sym s t : editDistance s t = editDistance t s.
Proof.
  revert t. induction s as [|a s IHs]; intros t.
  - by rewrite editDistance_nil_l, editDistance_nil_r.
  - induction t as [|b t IHt];
      [by rewrite editDistance_nil_l, editDistance_nil_r |].
    rewrite !editDistance_cons, cell_comm, IHt, !IHs.
    by destruct (decide (a = b)), (decide (b = a)); try congruence.
Qed.

Lemma editDistance_zero s t : editDistance s t = 0%nat ↔ s = t.
Proof.
  revert t. induction s as [|a s IHs]; intros t.
  - rewrite editDistance_nil_l. destruct t; naive_solver.
  - destruct t as [|b t]; [by rewrite editDistance_nil_r |].
    rewrite editDistance_cons. unfold cell. specialize (IHs t).
    destruct (decide (a = b)) as [->|Hab].
    + split; [intros Hz; f_equal; apply IHs; lia |].
      intros [= <-]. assert (editDistance s s = 0%nat) by by apply IHs. lia.
    + split; [lia | congruence].
Qed.

Lemma editDistance_le s t :
  (editDistance s t ≤ Nat.max (length s) (length t))%nat.
Proof.
  revert t. induction s as [|a s IHs]; intros t.
  - rewrite editDistance_nil_l. simpl. lia.
  - destruct t as [|b t]; [rewrite editDistance_nil_r; lia |].
    rewrite editDistance_cons. unfold cell. specialize (IHs t). simpl.
    destruct (decide (a = b)); lia.
Qed.

Section Table.
Variable s2 : jsstring.

(** Row [i] of the table, for the prefix [p] of [s1] of length [i]. *)
Definition row (p : jsstring) : list nat :=
  (λ j, editDistance (reverse p) (reverse (take j s2)))
  <$> seq 0 (S (length s2)).

Lemma row_lookup p j :
  (j ≤ length s2)%nat →
  row p !! j = Some (editDistance (reverse p) (reverse (take j s2))).
Proof.
  intros Hj. unfold row. rewrite list_lookup_fmap, lookup_seq_lt by lia.
  done.
Qed.

Lemma row_nil : row [] = seq 0 (S (length s2)).
Proof.
  unfold row. rewrite <- (list_fmap_id (seq 0 (S (length s2)))) at 2.
  apply list_fmap_ext. intros i j Hj. apply lookup_seq in Hj as [-> Hi].
  simpl. change (reverse []) with (@nil N).
  rewrite editDistance_nil_l, length_reverse, length_take.
  lia.
Qed.

Lemma fillRow_row c p q rest :
  s2 = q ++ rest →
  fillRow c rest (S (length q)) (row p)
    (editDistance (reverse (p ++ [c])) (reverse q))
  = (λ j, editDistance (reverse (p ++ [c])) (reverse (take j s2)))
    <$> seq (S (length q)) (length rest).
Proof.
  revert q. induction rest as [|d rest IH]; intros q Hs2; [done |].
  cbn [fillRow length seq fmap list_fmap].
  assert (take (S (length q)) s2 = q ++ [d]) as Htake.
  { rewrite Hs2. replace (S (length q)) with (length q + 1)%nat by lia.
    by rewrite take_app_add. }
  assert (take (length q) s2 = q) as Htake0
    by (rewrite Hs2; apply take_app_length).
  assert (length s2 = (length q + S (length rest))%nat) as Hlen
    by (rewrite Hs2, length_app; done).
  replace (S (length q) - 1)%nat with (length q) by lia.
  rewrite !row_lookup by lia. simpl.
  rewrite Htake, Htake0, !reverse_app. simpl.
  rewrite editDistance_cons. f_equal.
  specialize (IH (q ++ [d])). rewrite length_app in IH. simpl in IH.
  replace (length q + 1)%nat with (S (length q)) in IH by lia.
  rewrite !reverse_app in IH. simpl in IH. rewrite editDistance_cons in IH.
  apply IH. by rewrite <- app_assoc.
Qed.

Lemma nextRow_row c p :
  nextRow c (S (length p)) (row p) s2 = row (p ++ [c]).
Proof.
  unfold nextRow.
  pose proof (fillRow_row c p [] s2 eq_refl) as Hfill. simpl in Hfill.
  change (reverse []) with (@nil N) in Hfill.
  rewrite editDistance_nil_r, length_reverse, length_app in Hfill.
  simpl in Hfill. replace (length p + 1)%nat with (S (length p)) in Hfill
    by lia.
  rewrite Hfill. unfold row. cbn [seq fmap list_fmap]. f_equal.
  simpl. change (reverse []) with (@nil N).
  rewrite editDistance_nil_r, length_reverse, length_app. simpl. lia.
Qed.

Lemma rowsLoop_row rest p :
  rowsLoop rest (S (length p)) (row p) s2 = row (p ++ rest).
Proof.
  revert p. induction rest as [|c rest IH]; intros p.
  - by rewrite app_nil_r.
  - simpl. rewrite nextRow_row.
    replace (S (S (length p))) with (S (length (p ++ [c])))
      by (rewrite length_app; simpl; lia).
    by rewrite IH, <- app_assoc.
Qed.

(** The two-row loop computes the last cell of the table. *)
Lemma distance_editDistance s1 :
  distance s1 s2 = editDistance (reverse s1) (reverse s2).
Proof.
  unfold distance. rewrite <- row_nil.
  pose proof (rowsLoop_row s1 []) as Hloop. simpl in Hloop.
  rewrite Hloop, row_lookup by done. simpl. by rewrite take_ge.
Qed.
End Table.

(** X6. The two-row loop of [calculateLevenshteinDistance] computes the
    Wagner-Fischer table: against an empty text the distance is the length
    of the other one, and for two texts that end in [a] and [b] it is the
    least of a deletion, an insertion and a substitution, which is free
    when [a] and [b] are the same code unit. *)
Theorem distance_recurrence (s t : jsstring) (a b : N) :
  distance [] t = length t
  ∧ distance s [] = length s
  ∧ distance (s ++ [a]) (t ++ [b])
    = Nat.min (distance s (t ++ [b]) + 1)
        (Nat.min (distance (s ++ [a]) t + 1)
           (distance s t + (if decide (a = b) then 0 else 1))).
Proof.
  rewrite !distance_editDistance, !reverse_app. simpl.
  change (reverse []) with (@nil N).
  by rewrite editDistance_nil_l, editDistance_nil_r, !length_reverse,
    editDistance_cons.
Qed.

(** *** The title hash *)

Lemma toInt32_range z : -2147483648 ≤ toInt32 z < 2147483648.
Proof.
  unfold toInt32.
  pose proof (Z.mod_pos_bound (z + 2147483648) 4294967296). lia.
Qed.

Lemma toInt32_add z k : toInt32 (z + k * 4294967296) = toInt32 z.
Proof.
  unfold toInt32.
  replace (z + k * 4294967296 + 2147483648)
    with (z + 2147483648 + k * 4294967296) by lia.
  by rewrite Z_mod_plus_full.
Qed.

Lemma toInt32_wraps z : ∃ k, toInt32 z = z + k * 4294967296.
Proof.
  exists (- ((z + 2147483648) `div` 4294967296)). unfold toInt32.
  pose proof (Z.div_mod (z + 2147483648) 4294967296). lia.
Qed.

(** The exact step of the djb2 hash. *)
Definition djb2Step (hash : Z) (c : N) : Z := 33 * hash + Z.of_N c.

Lemma hashStep_wraps z c :
  hashStep (toInt32 z) c = toInt32 (djb2Step z c).
Proof.
  unfold hashStep, djb2Step.
  destruct (toInt32_wraps z) as [k1 ->].
  destruct (toInt32_wraps (z + k1 * 4294967296)) as [k2 ->].
  destruct (toInt32_wraps ((z + k1 * 4294967296 + k2 * 4294967296) * 32))
    as [k3 ->].
  replace ((z + k1 * 4294967296 + k2 * 4294967296) * 32 + k3 * 4294967296
           + (z + k1 * 4294967296) + Z.of_N c)
    with (33 * z + Z.of_N c + (33 * k1 + 32 * k2 + k3) * 4294967296) by lia.
  apply toInt32_add.
Qed.

Lemma foldl_hashStep z (s : jsstring) :
  foldl hashStep (toInt32 z) s = toInt32 (foldl djb2Step z s).
Proof.
  revert z. induction s as [|c s IH]; intros z; [done |].
  simpl. by rewrite hashStep_wraps, IH.
Qed.

Definition isLowerHex (c : N) : Prop := (48 ≤ c ≤ 57 ∨ 97 ≤ c ≤ 102)%N.

(** The value of a hexadecimal digit and of a numeral. *)
Definition hexDigitValue (c : N) : Z :=
  if decide (c ≤ 57)%N then Z.of_N c - 48 else Z.of_N c - 87.
Definition fromHex (s : jsstring) : Z :=
  foldl (λ acc c, 16 * acc + hexDigitValue c) 0 s.

Lemma lowerHexDigit_spec d :
  0 ≤ d < 16 →
  isLowerHex (lowerHexDigit d) ∧ hexDigitValue (lowerHexDigit d) = d.
Proof.
  intros Hd. unfold lowerHexDigit, isLowerHex, hexDigitValue.
  destruct (decide (d < 10)).
  - rewrite decide_True by lia. lia.
  - rewrite decide_False by lia. lia.
Qed.

Lemma hexFrom_spec fuel : ∀ n acc (k : nat),
  0 ≤ n < 16 ^ Z.of_nat k → 0 ≤ n < 2 ^ Z.of_nat fuel →
  Forall isLowerHex acc →
  Forall isLowerHex (hexFrom fuel n acc)
  ∧ (length acc ≤ length (hexFrom fuel n acc) ≤ k + length acc)%nat
  ∧ (0 < n → (length acc < length (hexFrom fuel n acc))%nat)
  ∧ ∀ v, foldl (λ acc c, 16 * acc + hexDigitValue c) v (hexFrom fuel n acc)
         = foldl (λ acc c, 16 * acc + hexDigitValue c)
             (v * 16 ^ Z.of_nat (length (hexFrom fuel n acc) - length acc) + n)
             acc.
Proof.
  induction fuel as [|fuel IH]; intros n acc k Hk Hfuel Hacc.
  - simpl in *. assert (n = 0) as -> by lia.
    rewrite Nat.sub_diag. split_and!; [done | lia.. |].
    intros v. f_equal. simpl. lia.
  - cbn [hexFrom]. case_decide as Hn.
    + assert (n = 0) as -> by lia.
      rewrite Nat.sub_diag. split_and!; [done | lia.. |].
      intros v. f_equal. simpl. lia.
    + assert (0 ≤ n `mod` 16 < 16) as Hd by (apply Z.mod_pos_bound; lia).
      destruct (lowerHexDigit_spec _ Hd) as [Hhex Hval].
      destruct k as [|k]; [simpl in Hk; lia |].
      assert (0 ≤ n `div` 16 < 16 ^ Z.of_nat k) as Hk'.
      { split; [apply Z.div_pos; lia |].
        apply Z.div_lt_upper_bound; [lia |].
        rewrite Nat2Z.inj_succ, Z.pow_succ_r in Hk by lia. lia. }
      assert (0 ≤ n `div` 16 < 2 ^ Z.of_nat fuel) as Hfuel'.
      { split; [apply Z.div_pos; lia |].
        apply Z.div_lt_upper_bound; [lia |].
        rewrite Nat2Z.inj_succ, Z.pow_succ_r in Hfuel by lia. lia. }
      destruct (IH (n `div` 16) (lowerHexDigit (n `mod` 16) :: acc) k
                  Hk' Hfuel' ltac:(by apply Forall_cons_2))
        as (Hall & Hlen & _ & Hfold).
      simpl in Hlen. split_and!; [done | lia.. |].
      intros v. rewrite Hfold. simpl. rewrite Hval. f_equal.
      replace (length (hexFrom fuel (n `div` 16)
                         (lowerHexDigit (n `mod` 16) :: acc)) - length acc)%nat
        with (S (length (hexFrom fuel (n `div` 16)
                           (lowerHexDigit (n `mod` 16) :: acc))
                 - S (length acc)))%nat by lia.
      rewrite Nat2Z.inj_succ, Z.pow_succ_r by lia.
      pose proof (Z.div_mod n 16). lia.
Qed.

(** The numeral of [toString(16)]: hexadecimal digits in lower case, at
    least one, no more than a number below [16 ^ k] needs, and the number
    is read back from them. *)
Lemma toHex_spec n (k : nat) :
  0 ≤ n < 16 ^ Z.of_nat k → (0 < k)%nat →
  Forall isLowerHex (toHex n)
  ∧ (0 < length (toHex n) ≤ k)%nat
  ∧ fromHex (toHex n) = n.
Proof.
  intros Hn Hk. unfold toHex. case_decide as Hz.
  { assert (n = 0) as -> by lia. split_and!; [| simpl; lia.. | done].
    apply Forall_singleton. unfold isLowerHex. simpl. lia. }
  assert (0 ≤ n < 2 ^ Z.of_nat (S (Z.to_nat (Z.log2 n)))) as Hfuel.
  { split; [lia |]. rewrite Nat2Z.inj_succ, Z2Nat.id by apply Z.log2_nonneg.
    apply Z.log2_spec. lia. }
  destruct (hexFrom_spec _ n [] k Hn Hfuel ltac:(constructor))
    as (Hall & Hlen & Hpos & Hfold).
  change (length (@nil N)) with 0%nat in *.
  split_and!; [done | lia.. |].
  unfold fromHex. rewrite Hfold. cbn [foldl]. lia.
Qed.

Section WithRuntime.
Context {text : TextRuntime}.

(** X8. The hash of a title is the djb2 hash of its normalised text taken
    modulo [2 ^ 32] as a signed number: truncating to 32 bits after every
    code unit, as the loop does, gives the same as truncating the exact
    value once. *)
Theorem calculateTitleHash_value (title : jsstring) :
  calculateTitleHash title
  = toHex (Z.abs (toInt32 (foldl djb2Step 5381 (normalizeText title)))).
Proof.
  unfold calculateTitleHash.
  by rewrite <- foldl_hashStep.
Qed.

(** X9. The hash of a title is a numeral of one to eight hexadecimal
    digits in lower case, and the number it denotes is at most [2 ^ 31]. *)
Theorem calculateTitleHash_format (title : jsstring) :
  Forall isLowerHex (calculateTitleHash title)
  ∧ (1 ≤ length (calculateTitleHash title) ≤ 8)%nat
  ∧ 0 ≤ fromHex (calculateTitleHash title) ≤ 2147483648.
Proof.
  unfold calculateTitleHash.
  change 5381 with (toInt32 5381). rewrite foldl_hashStep.
  set (hash := toInt32 _). pose proof (toInt32_range (foldl djb2Step 5381
    (normalizeText title))) as Hrange. fold hash in Hrange.
  destruct (toHex_spec (Z.abs hash) 8) as (Hall & Hlen & Hval);
    [change (16 ^ Z.of_nat 8) with 4294967296; lia | lia |].
  rewrite Hval. split_and!; [done | lia | lia | lia | lia].
Qed.

Local Open Scope Qc_scope.

Lemma ratio_zero (n d : nat) :
  (0 < d)%nat → SimilaritySpec.ratio n d = 0 ↔ n = 0%nat.
Proof.
  intros Hd. pose proof (SimilaritySpec.ratio_mult n d Hd) as Hm. split.
  - intros Hr. rewrite Hr, Qcmult_0_l in Hm.
    rewrite <- Z2Qc_inj_0 in Hm. apply Z2Qc_inj in Hm. lia.
  - intros ->. unfold SimilaritySpec.ratio, Qcdiv.
    change (Z.of_nat 0) with 0%Z. by rewrite Z2Qc_inj_0, Qcmult_0_l.
Qed.

(** The value of [calculateLevenshteinDistance], by its four returns. *)
Lemma levenshtein_cases (a b : jsstring) :
  let s1 := normalizeText a in
  let s2 := normalizeText b in
  (s1 = s2 ∧ calculateLevenshteinDistance a b = 0)
  ∨ (s1 ≠ s2 ∧ (s1 = [] ∨ s2 = []) ∧ calculateLevenshteinDistance a b = 1)
  ∨ (s1 ≠ s2 ∧ s1 ≠ [] ∧ s2 ≠ []
     ∧ calculateLevenshteinDistance a b
       = SimilaritySpec.ratio (editDistance (reverse s1) (reverse s2))
           (Nat.max (length s1) (length s2))).
Proof.
  simpl. unfold calculateLevenshteinDistance.
  destruct (decide (normalizeText a = normalizeText b)) as [Heq|Hne];
    [by left |]. right.
  destruct (decide (length (normalizeText a) = 0%nat)) as [H1|H1].
  { left. apply length_zero_iff_nil in H1. by split_and!; [| left |]. }
  destruct (decide (length (normalizeText b) = 0%nat)) as [H2|H2].
  { left. apply length_zero_iff_nil in H2. by split_and!; [| right |]. }
  right. rewrite distance_editDistance.
  split_and!; try done; intros Hnil; by rewrite Hnil in *.
Qed.

(** X7. [calculateLevenshteinDistance] is symmetric, lies between 0 and 1,
    is 0 exactly when the two normalised texts are the same, and is 1 when
    one of them is empty and the other is not. *)
Theorem calculateLevenshteinDistance_properties (a b : jsstring) :
  calculateLevenshteinDistance a b = calculateLevenshteinDistance b a
  ∧ 0 ≤ calculateLevenshteinDistance a b ≤ 1
  ∧ (calculateLevenshteinDistance a b = 0 ↔ normalizeText a = normalizeText b)
  ∧ (normalizeText a ≠ normalizeText b →
     normalizeText a = [] ∨ normalizeText b = [] →
     calculateLevenshteinDistance a b = 1).
Proof.
  pose proof (levenshtein_cases a b) as Hab.
  pose proof (levenshtein_cases b a) as Hba. simpl in *.
  set (s1 := normalizeText a) in *. set (s2 := normalizeText b) in *.
  assert ((0 < Nat.max (length s1) (length s2))%nat ∨ s1 = [] ∧ s2 = [])
    as Hpos by (destruct s1, s2; simpl; auto with lia).
  pose proof (editDistance_le (reverse s1) (reverse s2)) as Hle.
  rewrite !length_reverse in Hle.
  destruct Hab as [[Heq ->]|[(Hne & Hemp & ->)|(Hne & H1 & H2 & ->)]].
  - split_and!; [| done | done | done | done].
    destruct Hba as [[_ ->]|[(Hne & _)|(Hne & _)]]; congruence.
  - split_and!; [| done | done | | done].
    + destruct Hba as [[Heq _]|[(_ & _ & ->)|(_ & H1 & H2 & _)]];
        [congruence | done | tauto].
    + split; [done | tauto].
  - destruct Hpos as [Hpos|[? _]]; [|done]. split_and!.
    + destruct Hba as [[Heq _]|[(_ & Hemp & _)|(_ & _ & _ & ->)]];
        [congruence | tauto |].
      by rewrite editDistance_sym, Nat.max_comm.
    + by apply SimilaritySpec.ratio_bounds.
    + by apply SimilaritySpec.ratio_bounds.
    + rewrite ratio_zero, editDistance_zero by done. split; [|done].
      intros Hrev. apply (f_equal reverse) in Hrev.
      by rewrite !reverse_involutive in Hrev.
    + tauto.
Qed.
End WithRuntime.

End TitleMetricsSpec.

(** ** The URL and history stages of the deduplicator *)

Module DeduplicatorStagesSpec.
Import UrlNormalizer HistoryStore Deduplicator DeduplicatorStages.
Import HistoryStoreLaws.

Section WithRuntime.
Context {urls : UrlRuntime} {text : Similarity.TextRuntime}
  {dates : DateRuntime}.

(** The URL an article is known by: the normalised one, or its own when it
    cannot be normalised. *)
Definition keyOf (options : UrlNormalizationOptions) (article : RawArticle)
    : jsstring :=
  default (Types.url article) (normalizeUrl (Types.url article) options).

Lemma deduplicateByUrlFrom_cons options seen article rest :
  deduplicateByUrlFrom options seen (article :: rest)
  = if decide (keyOf options article ∈ seen)
    then deduplicateByUrlFrom options seen rest
    else withNormalizedUrl article (keyOf options article)
         :: deduplicateByUrlFrom options
              ({[ keyOf options article ]} ∪ seen) rest.
Proof.
  unfold keyOf. simpl.
  by destruct (normalizeUrl (Types.url article) options).
Qed.

Lemma deduplicateByUrlFrom_spec options articles : ∀ seen,
  let result := deduplicateByUrlFrom options seen articles in
  NoDup (normalizedUrl <$> result)
  ∧ (∀ a, a ∈ result →
          (normalizedUrl a ∉ seen)
          ∧ a = withNormalizedUrl (raw a) (keyOf options (raw a)))
  ∧ (raw <$> result) `sublist_of` articles
  ∧ (∀ article, article ∈ articles →
                keyOf options article ∈ seen
                ∨ keyOf options article ∈ normalizedUrl <$> result).
Proof.
  induction articles as [|article rest IH]; intros seen.
  - simpl. split_and!; [constructor | set_solver | done | set_solver].
  - cbv zeta. rewrite deduplicateByUrlFrom_cons. case_decide as Hseen.
    + destruct (IH seen) as (Hnd & Hkey & Hsub & Hcov).
      split_and!; [done | done | by apply sublist_cons |].
      intros x [->|Hx]%elem_of_cons; [by left | by apply Hcov].
    + destruct (IH ({[ keyOf options article ]} ∪ seen))
        as (Hnd & Hkey & Hsub & Hcov).
      split_and!.
      * rewrite fmap_cons. apply NoDup_cons. split; [|done]. simpl.
        intros (a & Ha & Hin)%list_elem_of_fmap.
        destruct (Hkey a Hin) as [Hnot _]. set_solver.
      * intros a [->|Ha]%elem_of_cons; [done |].
        destruct (Hkey a Ha) as [Hnot Heq]. split; [set_solver | done].
      * rewrite fmap_cons. simpl. by apply sublist_skip.
      * intros x [->|Hx]%elem_of_cons.
        -- right. rewrite fmap_cons. apply list_elem_of_here.
        -- destruct (Hcov x Hx) as [Hin|Hin].
           ++ apply elem_of_union in Hin as [->%elem_of_singleton|Hin];
                [right; rewrite fmap_cons; apply list_elem_of_here
                | by left].
           ++ right. rewrite fmap_cons. by apply list_elem_of_further.
Qed.

(** An article of the result stands in the input before any other
    article of its key. *)
Lemma deduplicateByUrlFrom_first options articles : ∀ seen a,
  a ∈ deduplicateByUrlFrom options seen articles →
  ∃ before after,
    articles = before ++ raw a :: after
    ∧ normalizedUrl a = keyOf options (raw a)
    ∧ ∀ earlier, earlier ∈ before → keyOf options earlier ≠ normalizedUrl a.
Proof.
  induction articles as [|article rest IH]; intros seen a.
  { by intros ?%elem_of_nil. }
  rewrite deduplicateByUrlFrom_cons.
  assert (∀ seen', a ∈ deduplicateByUrlFrom options seen' rest →
                   keyOf options article ∈ seen' →
                   ∃ before after,
                     article :: rest = before ++ raw a :: after
                     ∧ normalizedUrl a = keyOf options (raw a)
                     ∧ ∀ earlier, earlier ∈ before →
                                  keyOf options earlier ≠ normalizedUrl a)
    as Hlater.
  { intros seen' Ha Hseen.
    destruct (deduplicateByUrlFrom_spec options rest seen')
      as (_ & Hkey & _).
    destruct (Hkey a Ha) as [Hnew _].
    destruct (IH seen' a Ha) as (before & after & -> & Hk & Hfirst).
    exists (article :: before), after. split_and!; [done | done |].
    intros earlier [->|Hin]%elem_of_cons; [congruence | by apply Hfirst]. }
  case_decide as Hseen.
  - intros Ha. by apply (Hlater seen).
  - intros [->|Ha]%elem_of_cons.
    + exists [], rest. split_and!; [done | done |].
      by intros earlier ?%elem_of_nil.
    + apply (Hlater _ Ha). set_solver.
Qed.

(** The first article of a key that was not seen before is in the
    result. *)
Lemma deduplicateByUrlFrom_keeps_first options before : ∀ seen article after,
  keyOf options article ∉ seen →
  (∀ earlier, earlier ∈ before →
              keyOf options earlier ≠ keyOf options article) →
  withNormalizedUrl article (keyOf options article)
  ∈ deduplicateByUrlFrom options seen (before ++ article :: after).
Proof.
  induction before as [|b before IH]; intros seen article after Hnew Hfirst.
  - simpl app. rewrite deduplicateByUrlFrom_cons, decide_False by done.
    apply list_elem_of_here.
  - simpl app. rewrite deduplicateByUrlFrom_cons.
    assert (keyOf options b ≠ keyOf options article) as Hb
      by (apply Hfirst, list_elem_of_here).
    assert (∀ earlier, earlier ∈ before →
                       keyOf options earlier ≠ keyOf options article) as Hrest
      by (intros earlier Hin; by apply Hfirst, list_elem_of_further).
    case_decide.
    + by apply IH.
    + apply list_elem_of_further, IH; [set_solver | done].
Qed.

(** X10. [deduplicateByUrl] keeps the first article under each normalised
    URL, and only that one: an article of the result stands in the input
    before every other article of its normalised URL, and the first
    article of each normalised URL is in the result. No two articles of
    the result share a normalised URL, the result is a selection of the
    input in its order, each article carries the normalised form of its
    own URL (the URL itself when it cannot be normalised), and every input
    article has its URL represented in the result. *)
Theorem deduplicateByUrl_spec options (articles : list RawArticle) :
  let result := deduplicateByUrl options articles in
  let key := λ article : RawArticle,
    default (Types.url article) (normalizeUrl (Types.url article) options) in
  NoDup (normalizedUrl <$> result)
  ∧ (raw <$> result) `sublist_of` articles
  ∧ (∀ a, a ∈ result →
          normalizedUrl a = key (raw a) ∧ similarityScore a = None)
  ∧ (∀ article, article ∈ articles →
       ∃ a, a ∈ result ∧ normalizedUrl a = key article)
  ∧ (∀ a, a ∈ result →
       ∃ before after,
         articles = before ++ raw a :: after
         ∧ ∀ earlier, earlier ∈ before → key earlier ≠ key (raw a))
  ∧ (∀ before article after,
       articles = before ++ article :: after →
       (∀ earlier, earlier ∈ before → key earlier ≠ key article) →
       withNormalizedUrl article (key article) ∈ result).
Proof.
  destruct (deduplicateByUrlFrom_spec options articles ∅)
    as (Hnd & Hkey & Hsub & Hcov).
  cbv zeta. fold (keyOf options). split_and!; [done | done | | | |].
  - intros a Ha. destruct (Hkey a Ha) as [_ Heq]. by rewrite Heq.
  - intros article Hin. destruct (Hcov article Hin) as [?|Hk]; [set_solver |].
    apply list_elem_of_fmap in Hk as (a & Hk & Ha). eauto.
  - intros a Ha.
    destruct (deduplicateByUrlFrom_first options articles ∅ a Ha)
      as (before & after & Heq & Hk & Hfirst).
    exists before, after. split; [done |]. by rewrite <- Hk.
  - intros before article after -> Hfirst.
    apply deduplicateByUrlFrom_keeps_first; [set_solver | done].
Qed.

Lemma filter_ext_in {A} (P Q : A → Prop) `{∀ x, Decision (P x)}
    `{∀ x, Decision (Q x)} (l : list A) :
  (∀ x, x ∈ l → P x ↔ Q x) → filter P l = filter Q l.
Proof.
  induction l as [|x l IH]; intros Hext; [done |].
  rewrite !filter_cons.
  assert (P x ↔ Q x) as Hx by apply Hext, list_elem_of_here.
  rewrite IH by (intros y Hy; by apply Hext, list_elem_of_further).
  destruct (decide (P x)), (decide (Q x)); tauto.
Qed.

Lemma filter_none {A} (l : list A) : filter (λ _, False) l = [].
Proof. induction l as [|x l IH]; [done |]. by rewrite filter_cons. Qed.

Lemma deduplicateByHistory_filter db (articles : list DedupArticle) :
  deduplicateByHistory db articles
  = filter (λ a, normalizedUrl a ∉ storedUrls db) articles.
Proof.
  unfold deduplicateByHistory. apply filter_ext_in. intros a Ha.
  rewrite findExistingUrls_in, find_is_Some.
  assert (normalizedUrl a ∈ normalizedUrl <$> articles)
    by by apply list_elem_of_fmap_2.
  tauto.
Qed.

(** X11. [deduplicateByHistory] keeps, in their order, exactly the articles
    whose normalised URL has no row in the history. *)
Theorem deduplicateByHistory_spec db (articles : list DedupArticle) :
  deduplicateByHistory db articles
  = filter (λ a, findByNormalizedUrl db (normalizedUrl a) = None) articles.
Proof.
  rewrite deduplicateByHistory_filter. apply list_filter_iff.
  intros a. by rewrite find_None.
Qed.

(** X12. Once [updateHistory] has recorded the articles of a run, the
    history stage of a later run lets through exactly the articles whose
    normalised URL was neither stored before nor among the recorded ones;
    of the recorded articles themselves it lets none through. *)
Theorem updateHistory_then_deduplicateByHistory db clock
    (recorded : list FilteredArticle) (articles : list DedupArticle) :
  let db' := updateHistory db clock recorded in
  (∀ a, a ∈ deduplicateByHistory db' articles
        ↔ a ∈ articles
          ∧ findByNormalizedUrl db (normalizedUrl a) = None
          ∧ normalizedUrl a ∉ (normalizedUrl ∘ fa_article) <$> recorded)
  ∧ deduplicateByHistory db' (fa_article <$> recorded) = [].
Proof.
  simpl.
  assert (storedUrls (updateHistory db clock recorded)
          = storedUrls db
            ∪ list_to_set ((normalizedUrl ∘ fa_article) <$> recorded))
    as Hstored.
  { unfold updateHistory. rewrite bulkUpsert_storedUrls.
    by rewrite <- list_fmap_compose. }
  split.
  - intros a. rewrite deduplicateByHistory_filter, list_elem_of_filter.
    rewrite Hstored, find_None. set_solver.
  - rewrite deduplicateByHistory_filter.
    rewrite (filter_ext_in _ (λ _, False)); [apply filter_none |].
    intros a Ha. rewrite Hstored.
    apply (list_elem_of_fmap_2 normalizedUrl) in Ha.
    rewrite <- list_fmap_compose in Ha. set_solver.
Qed.
End WithRuntime.

End DeduplicatorStagesSpec.

(** ** Date layers and the freshness window *)

Module DateParserSpec.
Import RegExp DateParser Deduplicator.

Section WithRuntime.
Context {dates : DateRuntime} {regexps : RegExpRuntime}.

(** The confidence of a result tells whether it carries a date and which
    layer gave it. *)
Definition wellLabelled (r : DateParseResult) : Prop :=
  match confidence r with
  | high => is_Some (date r) ∧ dsource r = published_at
  | medium => is_Some (date r) ∧ dsource r = url_date
  | low => is_Some (date r) ∧ dsource r = relative_time
  | unknown => date r = None
  end.

Lemma parseISODate_labelled v : wellLabelled (parseISODate v).
Proof.
  unfold parseISODate, wellLabelled.
  destruct (truthyOpt v); simpl; [|done].
  destruct (Date_parse _); simpl; eauto.
Qed.

Lemma parseDateFromPatterns_labelled u patterns :
  wellLabelled (parseDateFromPatterns u patterns).
Proof.
  induction patterns as [|re patterns IH]; [done |]. simpl.
  destruct (stringMatch u re) as [m|]; [|done].
  destruct (_ || _); [done |].
  destruct (Date_parse _); [|done]. unfold wellLabelled. simpl. eauto.
Qed.

Lemma parseDateFromUrl_labelled u pattern r :
  parseDateFromUrl u pattern = Some r → wellLabelled r.
Proof.
  unfold parseDateFromUrl. intros Hr.
  apply bind_Some in Hr as (patterns & _ & [= <-]).
  apply parseDateFromPatterns_labelled.
Qed.

Lemma parseRelativeLoop_labelled text reference patterns r :
  parseRelativeLoop text reference patterns = Some r → wellLabelled r.
Proof.
  induction patterns as [|[re unit] patterns IH]; simpl.
  - by intros [= <-].
  - destruct (stringMatch text re) as [m|]; [|done].
    intros Hr. apply bind_Some in Hr as (iso & _ & [= <-]).
    unfold wellLabelled. simpl. eauto.
Qed.

Lemma parseDateMultiLayer_labelled options r :
  parseDateMultiLayer options = Some r → wellLabelled r.
Proof.
  unfold parseDateMultiLayer.
  assert (∀ r',
    (if truthyOpt (ml_relativeTimeText options)
     then result ← parseRelativeTime
                      (nullish (ml_relativeTimeText options) [])
                      (ml_referenceDate options);
          Some (if hasDate result then result
                else {| date := None; confidence := unknown;
                        dsource := first_seen_at; rawText := None |})
     else Some {| date := None; confidence := unknown;
                  dsource := first_seen_at; rawText := None |}) = Some r' →
    wellLabelled r') as Hlayer3.
  { intros r'. destruct (truthyOpt (ml_relativeTimeText options));
      [|by intros [= <-]].
    intros Hr. apply bind_Some in Hr as (result & Hres & [= <-]).
    destruct (hasDate result); [|done].
    by apply parseRelativeLoop_labelled in Hres. }
  assert (∀ r',
    (if truthyOpt (ml_url options)
     then result ← parseDateFromUrl (nullish (ml_url options) [])
                      (ml_urlDatePattern options);
          if hasDate result then Some result
          else if truthyOpt (ml_relativeTimeText options)
               then result ← parseRelativeTime
                                (nullish (ml_relativeTimeText options) [])
                                (ml_referenceDate options);
                    Some (if hasDate result then result
                          else {| date := None; confidence := unknown;
                                  dsource := first_seen_at;
                                  rawText := None |})
               else Some {| date := None; confidence := unknown;
                            dsource := first_seen_at; rawText := None |}
     else if truthyOpt (ml_relativeTimeText options)
          then result ← parseRelativeTime
                           (nullish (ml_relativeTimeText options) [])
                           (ml_referenceDate options);
               Some (if hasDate result then result
                     else {| date := None; confidence := unknown;
                             dsource := first_seen_at; rawText := None |})
          else Some {| date := None; confidence := unknown;
                       dsource := first_seen_at; rawText := None |})
    = Some r' → wellLabelled r') as Hlayer2.
  { intros r'. destruct (truthyOpt (ml_url options)); [|apply Hlayer3].
    intros Hr. apply bind_Some in Hr as (result & Hres & Hr).
    destruct (hasDate result); [|by apply Hlayer3].
    injection Hr as <-. by apply parseDateFromUrl_labelled in Hres. }
  destruct (truthyOpt (ml_publishedAt options)); [|apply Hlayer2].
  destruct (hasDate _); [|apply Hlayer2].
  intros [= <-]. apply parseISODate_labelled.
Qed.

Lemma parseDateByMethod_labelled method options r :
  parseDateByMethod method options = Some r → wellLabelled r.
Proof.
  unfold parseDateByMethod. destruct method.
  - intros [= <-]. apply parseISODate_labelled.
  - destruct (truthyOpt _); [apply parseRelativeLoop_labelled |].
    by intros [= <-].
  - destruct (truthyOpt _); [apply parseDateFromUrl_labelled |].
    by intros [= <-].
  - destruct (truthyOpt _); [apply parseRelativeLoop_labelled |].
    by intros [= <-].
  - intros [= <-]. apply parseISODate_labelled.
  - by intros [= <-].
Qed.

(** X13. Whatever branch dates an article in the freshness stage, the
    result is labelled consistently: confidence [high] goes with a date
    from [publishedAt], [medium] with one from the URL, [low] with one from
    a relative time, and [unknown] with no date at all. So the articles the
    stage keeps as [unknown] are exactly those for which no date was
    found. *)
Theorem resolveDate_labelled article dateMethodMap now r :
  resolveDate article dateMethodMap now = Some r →
  match confidence r with
  | high => is_Some (date r) ∧ dsource r = published_at
  | medium => is_Some (date r) ∧ dsource r = url_date
  | low => is_Some (date r) ∧ dsource r = relative_time
  | unknown => date r = None
  end.
Proof.
  unfold resolveDate. destruct (truthyOpt _).
  - destruct (Date_parse _); intros [= <-]; simpl; eauto.
  - destruct (dateMethodMap ≫= _) as [methodConfig|].
    + apply parseDateByMethod_labelled.
    + apply parseDateMultiLayer_labelled.
Qed.

(** The options of [checkFreshness] with another window. *)
Definition withWindow (options : FreshnessOptions) (windowStart : Date)
    : FreshnessOptions :=
  {| fo_publishedAt := fo_publishedAt options;
     fo_urlDate := fo_urlDate options;
     fo_relativeTimeParsed := fo_relativeTimeParsed options;
     fo_firstSeenAt := fo_firstSeenAt options;
     fo_windowStart := windowStart |}.

(** Two answers that differ at most in that the second is fresh where the
    first is not. *)
Definition noStaler (r r' : FreshnessResult) : Prop :=
  priority r = priority r' ∧ dateSource r = dateSource r'
  ∧ (isFresh r = true → isFresh r' = true).

Lemma freshnessLevel_earlier value (w w' : Z) prio src label within before
    next next' :
  w' ≤ w → noStaler next next' →
  noStaler
    (freshnessLevel value (Some w) prio src label within before next)
    (freshnessLevel value (Some w') prio src label within before next').
Proof.
  intros Hw Hnext. unfold freshnessLevel.
  destruct (truthyOpt value); [|done].
  destruct (Date_parse _) as [t|]; [|done]. unfold ge.
  repeat case_bool_decide; unfold noStaler; simpl; split_and!; try done; lia.
Qed.

(** Fresh only for want of a date. *)
Definition freshIffUndated (r : FreshnessResult) : Prop :=
  isFresh r = true ↔ dateSource r = None.

Lemma freshnessLevel_invalid value prio src label within before next :
  freshIffUndated next →
  freshIffUndated
    (freshnessLevel value None prio src label within before next).
Proof.
  intros Hnext. unfold freshnessLevel.
  destruct (truthyOpt value); [|done].
  destruct (Date_parse _) as [t|]; [|done]. by unfold freshIffUndated.
Qed.

(** X14. The window only decides between fresh and stale: the priority and
    the date source of the answer of [checkFreshness] do not depend on it,
    an article that is fresh for a window is fresh for every earlier one,
    and for a window that is an Invalid Date an article is fresh exactly
    when none of its dates can be read. *)
Theorem checkFreshness_window (options : FreshnessOptions) (w w' : Z) :
  let answer x := checkFreshness (withWindow options x) in
  (w' ≤ w →
   priority (answer (Some w)) = priority (answer (Some w'))
   ∧ dateSource (answer (Some w)) = dateSource (answer (Some w'))
   ∧ (isFresh (answer (Some w)) = true → isFresh (answer (Some w')) = true))
  ∧ (isFresh (answer None) = true ↔ dateSource (answer None) = None).
Proof.
  simpl. split.
  - intros Hw. unfold checkFreshness, withWindow. simpl.
    by repeat apply freshnessLevel_earlier.
  - unfold checkFreshness, withWindow. simpl.
    by repeat apply freshnessLevel_invalid.
Qed.

(** X15. A [lastSuccessAt] that is not a date gives, on a Monday, the
    window of 72 hours; on any other day it gives an Invalid Date as the
    window start, and then [checkFreshness] calls an article fresh only if
    none of its dates can be read. *)
Theorem calculateWindowStart_unparseable lastSuccessAt now :
  truthy lastSuccessAt = true →
  Date_parse lastSuccessAt = None →
  (getDay now = Some 1 →
   calculateWindowStart (Some lastSuccessAt) now = hoursBefore 72 now)
  ∧ (getDay now ≠ Some 1 →
     calculateWindowStart (Some lastSuccessAt) now = None
     ∧ ∀ options,
         fo_windowStart options
         = calculateWindowStart (Some lastSuccessAt) now →
         (isFresh (checkFreshness options) = true
          ↔ dateSource (checkFreshness options) = None)).
Proof.
  intros Htruthy Hparse. unfold calculateWindowStart. simpl.
  rewrite Htruthy, Hparse. split.
  - intros Hmon. by rewrite bool_decide_eq_true_2.
  - intros Hday. rewrite bool_decide_eq_false_2 by done.
    split; [done |]. intros options Hws.
    unfold checkFreshness. rewrite Hws.
    by repeat apply freshnessLevel_invalid.
Qed.
End WithRuntime.

Import Reference.

Lemma resolveDate_labelled_witness :
  is_Some (Some (str "2023-12-01T00:00:00.000Z"))
  ∧ published_at = published_at.
Proof.
  apply (resolveDate_labelled Examples.staleArticle None
           (Some Examples.monday)
           {| date := Some (str "2023-12-01T00:00:00.000Z");
              confidence := high; dsource := published_at;
              rawText := None |}).
  by vm_compute.
Defined.

(** Tuesday 2024-01-16: the text is no date, so the window is invalid and
    an article published that very morning is stale. *)
Lemma calculateWindowStart_unparseable_witness :
  calculateWindowStart (Some (str "yesterday evening"))
    (Some (Examples.monday + 86400000)) = None
  ∧ isFresh
      (checkFreshness
         {| fo_publishedAt := Some (str "2024-01-16T08:00:00.000Z");
            fo_urlDate := None; fo_relativeTimeParsed := None;
            fo_firstSeenAt := None; fo_windowStart := None |}) = false.
Proof.
  destruct (calculateWindowStart_unparseable (str "yesterday evening")
              (Some (Examples.monday + 86400000)))
    as [_ Htuesday]; [by vm_compute.. |].
  destruct Htuesday as [Hwindow Hfresh]; [by vm_compute |].
  split; [exact Hwindow |]. by vm_compute.
Defined.

End DateParserSpec.

(** ** SDK executor: retries *)

Module SdkExecutorSpec.
Import Similarity UrlNormalizer Executor Orchestrator SdkExecutor.

Lemma startsWith_spec (p s : jsstring) :
  startsWith p s = true ↔ ∃ post, s = p ++ post.
Proof.
  revert s. induction p as [|c p IH]; intros s; simpl.
  - split; [eauto | done].
  - destruct s as [|d s]; [split; [done | by intros [? ?]] |].
    case_decide as Hcd.
    + subst d. rewrite IH. split; intros [post Hs]; exists post; congruence.
    + split; [done | intros [post [= ? _]]; congruence].
Qed.

(** [s.includes(p)]: [p] occurs in [s]. *)
Lemma includes_spec (s p : jsstring) :
  includes s p = true ↔ ∃ pre post, s = pre ++ p ++ post.
Proof.
  induction s as [|c s IH]; simpl; rewrite orb_true_iff, startsWith_spec.
  - split.
    + intros [[post Hs]|?]; [|done]. by exists [], post.
    + intros (pre & post & Hs). left.
      destruct pre; [by exists post | done].
  - rewrite IH. split.
    + intros [[post Hs]|(pre & post & Hs)];
        [by exists [], post | exists (c :: pre), post; by rewrite Hs].
    + intros ([|d pre] & post & Hs).
      * left. by exists post.
      * right. exists pre, post. by injection Hs.
Qed.

Lemma includes_trans (s p q : jsstring) :
  includes s p = true → includes p q = true → includes s q = true.
Proof.
  rewrite !includes_spec. intros (a & b & ->) (c & d & ->).
  exists (a ++ c), (d ++ b). by rewrite <- !app_assoc.
Qed.

Section WithRuntime.
Context {urls : UrlRuntime} {lower : TextRuntime} {dates : DateRuntime}
  {sdk : SdkRuntime}.

(** The error that [executeWithRetry] reports after the last failure. *)
Definition givenUp (sourceId : jsstring) (maxRetries clock : Z)
    (lastError : option jsstring) : ExecutionResult :=
  {| success := false; content := [];
     error :=
       Some {| ce_sourceId := sourceId;
               ce_errorType := classifyError lastError;
               ce_message := nullish lastError (str "Unknown error");
               ce_timestamp := Date_toISOString clock;
               ce_retryCount := maxRetries |} |}.

(** What a run of [executeWithRetry] over [total] passes amounts to. *)
Definition retried (fn : nat → jsstring + jsstring) (sourceId : jsstring)
    (maxRetries retryInterval clock : Z) (total : nat) (e : Execution)
    : Prop :=
  (calls e ≤ total)%nat
  ∧ sleeps e = replicate (calls e - 1) retryInterval
  ∧ if success (result e)
    then ∃ text,
           (0 < calls e)%nat
           ∧ fn (calls e - 1)%nat = inl text
           ∧ (∀ j, (j < calls e - 1)%nat → ∃ message, fn j = inr message)
           ∧ result e = {| success := true; content := text; error := None |}
    else calls e = total
         ∧ (∀ j, (j < total)%nat → ∃ message, fn j = inr message)
         ∧ result e
           = givenUp sourceId maxRetries clock
               (match total with
                | O => None
                | S last =>
                    match fn last with
                    | inr message => Some message
                    | inl _ => None
                    end
                end).

Lemma retryFrom_retried fn sourceId maxRetries retryInterval clock total :
  total = Z.to_nat (maxRetries + 1) →
  ∀ remaining attempt lastError,
    (attempt + remaining)%nat = total →
    (∀ j, (j < attempt)%nat → ∃ message, fn j = inr message) →
    lastError = match attempt with
                | O => None
                | S last =>
                    match fn last with
                    | inr message => Some message
                    | inl _ => None
                    end
                end →
    retried fn sourceId maxRetries retryInterval clock total
      (retryFrom remaining attempt fn sourceId maxRetries retryInterval
         clock lastError
         (replicate (attempt `min` (total - 1)) retryInterval)).
Proof.
  intros Htotal. induction remaining as [|remaining IH];
    intros attempt lastError Hsum Hfailed Hlast.
  - simpl. unfold retried. simpl.
    assert (attempt = total) as -> by lia.
    split_and!; [lia | f_equal; lia | done | done |].
    unfold givenUp. by rewrite Hlast.
  - simpl. destruct (fn attempt) as [text|message] eqn:Hfn.
    + unfold retried. simpl. rewrite Nat.sub_0_r.
      split_and!; [lia | f_equal; lia |].
      exists text. split_and!; [lia | done | done | done].
    + assert ((if decide (Z.of_nat attempt < maxRetries)
               then replicate (attempt `min` (total - 1)) retryInterval
                    ++ [retryInterval]
               else replicate (attempt `min` (total - 1)) retryInterval)
              = replicate (S attempt `min` (total - 1)) retryInterval)
        as ->.
      { case_decide.
        - replace (attempt `min` (total - 1))%nat with attempt by lia.
          replace (S attempt `min` (total - 1))%nat with (S attempt) by lia.
          by rewrite replicate_S_end.
        - f_equal. lia. }
      apply IH; [lia | | by rewrite Hfn].
      intros j Hj. destruct (decide (j = attempt)) as [->|Hne]; [eauto |].
      apply Hfailed. lia.
Qed.

(** X16. [executeWithRetry] calls [fn] until it succeeds, at most
    [maxRetries + 1] times, and sleeps [retryInterval] between two calls
    and never after the last one. On success it returns the text of the
    first call that succeeded; otherwise every call failed, and the error
    it returns carries the message of the last failure and [maxRetries]
    as its retry count. *)
Theorem executeWithRetry_spec (fn : nat → jsstring + jsstring)
    (sourceId : jsstring) (maxRetries retryInterval clock : Z) :
  let e := executeWithRetry fn sourceId maxRetries retryInterval clock in
  let total := Z.to_nat (maxRetries + 1) in
  (calls e ≤ total)%nat
  ∧ sleeps e = replicate (calls e - 1) retryInterval
  ∧ if success (result e)
    then ∃ text,
           (0 < calls e)%nat
           ∧ fn (calls e - 1)%nat = inl text
           ∧ (∀ j, (j < calls e - 1)%nat → ∃ message, fn j = inr message)
           ∧ result e = {| success := true; content := text; error := None |}
    else calls e = total
         ∧ (∀ j, (j < total)%nat → ∃ message, fn j = inr message)
         ∧ result e
           = {| success := false; content := [];
                error :=
                  let lastError :=
                    match total with
                    | O => None
                    | S last =>
                        match fn last with
                        | inr message => Some message
                        | inl _ => None
                        end
                    end in
                  Some {| ce_sourceId := sourceId;
                          ce_errorType := classifyError lastError;
                          ce_message :=
                            nullish lastError (str "Unknown error");
                          ce_timestamp := Date_toISOString clock;
                          ce_retryCount := maxRetries |} |}.
Proof.
  apply (retryFrom_retried fn sourceId maxRetries retryInterval clock
           _ eq_refl (Z.to_nat (maxRetries + 1)) 0%nat None);
    [done | intros j Hj; lia | done].
Qed.

Lemma executeWithRetry_retried fn sourceId maxRetries retryInterval clock :
  retried fn sourceId maxRetries retryInterval clock
    (Z.to_nat (maxRetries + 1))
    (executeWithRetry fn sourceId maxRetries retryInterval clock).
Proof.
  apply (retryFrom_retried fn sourceId maxRetries retryInterval clock
           _ eq_refl (Z.to_nat (maxRetries + 1)) 0%nat None);
    [done | intros j Hj; lia | done].
Qed.

(** The runs of the two entry points of the executor for a source. *)
Inductive executes (source : SourceConfig) (options : ExecutorOptions)
    (clock : Z) : Execution → Prop :=
  | executes_fetch url prompt :
      executes source options clock
        (executeWebFetch url prompt source options clock)
  | executes_search searchQuery prompt :
      executes source options clock
        (executeWebSearch searchQuery prompt source options clock).

(** A run either stops at the URL check or is a run of the retry loop
    with the retries of the tier. *)
Lemma executes_cases source options clock e :
  executes source options clock e →
  let retries :=
    effectiveMaxRetries (sc_id source) (sc_tier source)
      (eo_rateControl options) in
  (calls e = 0%nat ∧ sleeps e = []
   ∧ ∃ err, result e = {| success := false; content := [];
                          error := Some err |}
            ∧ ce_retryCount err = 0 ∧ ce_errorType err = err_parse)
  ∨ ∃ fn retryInterval,
      retried fn (sc_id source) retries retryInterval clock
        (Z.to_nat (retries + 1)) e.
Proof.
  intros [url prompt|searchQuery prompt]; simpl.
  - unfold executeWebFetch. destruct (validateUrl url); simpl.
    + right. eexists _, _. apply executeWithRetry_retried.
    + left. split_and!; [done | done |]. eexists. by split_and!.
  - right. eexists _, _. apply executeWithRetry_retried.
Qed.

Lemma effectiveMaxRetries_floor sourceId tier rateControl :
  tierFloor tier ≤ effectiveMaxRetries sourceId tier rateControl
  ∧ (tier = Tier3 → effectiveMaxRetries sourceId tier rateControl = 0).
Proof.
  unfold effectiveMaxRetries, getRetriesByTier, tierFloor.
  destruct tier; split; try done; lia.
Qed.

(** X17. However the retries are configured, the executor gives a source
    up only after a number of failed calls fixed by its tier from below:
    at least four for tier 1, at least two for tier 2, and exactly one for
    tier 3, which is never called again nor slept for. Unless the URL was
    refused before any call, the retry count of the error is the number of
    calls less one. *)
Theorem executor_attempts_by_tier source options clock e :
  executes source options clock e →
  success (result e) = false →
  ∃ err,
    error (result e) = Some err
    ∧ ((calls e = 0%nat ∧ ce_retryCount err = 0
        ∧ ce_errorType err = err_parse)
       ∨ (Z.of_nat (calls e) = ce_retryCount err + 1
          ∧ match sc_tier source with
            | Tier1 => (4 ≤ calls e)%nat
            | Tier2 => (2 ≤ calls e)%nat
            | Tier3 => calls e = 1%nat ∧ sleeps e = []
            end)).
Proof.
  intros Hrun Hfail.
  destruct (executes_cases _ _ _ _ Hrun)
    as [(Hcalls & _ & err & Hres & Hcount & Htype)
       |(fn & retryInterval & Hle & Hsleeps & Hres)].
  - exists err. rewrite Hres. split; [done | by left].
  - rewrite Hfail in Hres. destruct Hres as (Hcalls & _ & Hres).
    rewrite Hres. eexists. split; [done |]. right. simpl.
    destruct (effectiveMaxRetries_floor (sc_id source) (sc_tier source)
                (eo_rateControl options)) as [Hfloor Hthree].
    unfold tierFloor in Hfloor.
    destruct (sc_tier source); [split; lia | split; lia |].
    rewrite Hthree in Hcalls by done. rewrite Hthree by done.
    rewrite Hsleeps, Hcalls. by split_and!.
Qed.

(** X18. An error that the executor returns and that
    [findAbortHeavySourceIds] counts against its source is never one of a
    tier-3 source, whose retry count is always 0, and is always classified
    as a timeout: the abort phrases all contain [abort]. *)
Theorem executor_abort_heavy source options clock e err :
  executes source options clock e →
  error (result e) = Some err →
  isAbortHeavy err = true →
  sc_tier source ≠ Tier3
  ∧ ce_errorType err = err_timeout
  ∧ findAbortHeavySourceIds [err] = [sc_id source].
Proof.
  intros Hrun Herr Hheavy.
  unfold isAbortHeavy in Hheavy. case_bool_decide as Hcount; [done |].
  assert (includes (String_toLowerCase (ce_message err)) (str "abort")
          = true) as Habort.
  { apply orb_true_iff in Hheavy as [Hheavy|Hheavy];
      [apply orb_true_iff in Hheavy as [Hheavy|Hheavy] |];
      (eapply includes_trans; [exact Hheavy | by vm_compute]). }
  assert (findAbortHeavySourceIds [err] = [ce_sourceId err]) as Hfound.
  { unfold findAbortHeavySourceIds, isAbortHeavy. simpl.
    rewrite bool_decide_eq_false_2, Hheavy by done. done. }
  destruct (executes_cases _ _ _ _ Hrun)
    as [(_ & _ & err' & Hres & Hzero & _)
       |(fn & retryInterval & Hle & Hsleeps & Hres)].
  - rewrite Hres in Herr. injection Herr as ->. lia.
  - destruct (success (result e)).
    { destruct Hres as (? & _ & _ & _ & Hres). by rewrite Hres in Herr. }
    destruct Hres as (Hcalls & Hfailed & Hres).
    rewrite Hres in Herr. injection Herr as <-. simpl in *.
    destruct (effectiveMaxRetries_floor (sc_id source) (sc_tier source)
                (eo_rateControl options)) as [Hfloor Hthree].
    split_and!; [intros Htier; rewrite Hthree in Hcount by done; lia | |
                 done].
    destruct (Z.to_nat _) as [|last] eqn:Htotal; [lia |].
    destruct (Hfailed last) as [message Hlast]; [lia |].
    rewrite Hlast in *. simpl in Habort. unfold classifyError.
    by rewrite Habort, orb_true_r.
Qed.
End WithRuntime.

Import Reference.

(** An SDK whose every call is rejected as aborted. *)
Definition abortingSdk : SdkRuntime :=
  {| invokeSDK _ _ _ _ _ := inr (str "Claude Code process aborted by user") |}.

Definition feedSource : SourceConfig :=
  {| sc_id := str "example_blog"; sc_name := str "Example blog";
     sc_tier := Tier1; sc_enabled := true; sc_collectMethod := WebFetch;
     sc_url := Some (str "https://example.com/feed"); sc_query := None;
     sc_accounts := None; sc_dateMethod := html_meta;
     sc_dateSelector := None; sc_datePattern := None;
     sc_maxArticles := 10 |}.

Definition plainOptions : ExecutorOptions :=
  {| eo_rateControl := Examples.twoRetries; eo_model := None;
     eo_maxTurns := None; eo_permissionMode := None; eo_timeout := None |}.

Definition abortedRun : Execution :=
  @executeWebFetch webUrls asciiText utcDates abortingSdk
    (str "https://example.com/feed") (str "List the articles.")
    feedSource plainOptions 0.

Definition abortedError : CollectionError :=
  {| ce_sourceId := str "example_blog"; ce_errorType := err_timeout;
     ce_message := str "Claude Code process aborted by user";
     ce_timestamp := str "1970-01-01T00:00:00.000Z";
     ce_retryCount := 3 |}.

(** With two retries configured, the tier-1 source is called four times. *)
Lemma executor_attempts_by_tier_witness :
  ∃ err,
    error (result abortedRun) = Some err
    ∧ ((calls abortedRun = 0%nat ∧ ce_retryCount err = 0
        ∧ ce_errorType err = err_parse)
       ∨ (Z.of_nat (calls abortedRun) = ce_retryCount err + 1
          ∧ (4 ≤ calls abortedRun)%nat)).
Proof.
  apply (@executor_attempts_by_tier webUrls asciiText utcDates abortingSdk
           feedSource plainOptions 0 abortedRun);
    [apply executes_fetch | by vm_compute].
Defined.

Lemma executor_abort_heavy_witness :
  sc_tier feedSource ≠ Tier3
  ∧ ce_errorType abortedError = err_timeout
  ∧ findAbortHeavySourceIds [abortedError] = [sc_id feedSource].
Proof.
  apply (@executor_abort_heavy webUrls asciiText utcDates abortingSdk
           feedSource plainOptions 0 abortedRun abortedError);
    [apply executes_fetch | by vm_compute | by vm_compute].
Defined.

End SdkExecutorSpec.

(** ** URL normaliser: what a normalised URL looks like *)

Module UrlNormalizerResult.
Import Similarity UrlNormalizer UrlNormalizerSpec.

Section WithLaws.
Context {runtime : UrlRuntime} {lower : TextRuntime} {laws : UrlLaws}.

(** X19. The result of [normalizeUrl] on a valid http or https URL is
    itself such a URL, in the serialised form of the URL object it parses
    to: its scheme is https, it has no fragment, none of its query
    parameters is one of the removed ones, and its parameters are in
    sorted order. *)
Theorem normalizeUrl_result options url normalized :
  isValidUrl url = true →
  normalizeUrl url options = Some normalized →
  ∃ u,
    URL_parse normalized = Some u
    ∧ href u = normalized
    ∧ isValidUrl normalized = true
    ∧ protocol u = str "https:"
    ∧ fragment u = None
    ∧ (∀ kv, kv ∈ URLSearchParams_parse (search u) →
             kv.1 ∉ removeParams options)
    ∧ ordered (URLSearchParams_parse (search u)).
Proof.
  intros (parsed & Hparse & Hwf)%isValidUrl_wf Hnorm.
  unfold normalizeUrl in Hnorm. rewrite Hparse in Hnorm. simpl in Hnorm.
  pose proof (normalizeParsed_settled options parsed Hwf) as Hsettled.
  rewrite (settled_href options) in Hnorm by done.
  injection Hnorm as <-. set (u := normalizeParsed options parsed) in *.
  destruct Hsettled
    as (Hwfu & Hs & Hf & src & entries & Hsrc & Hsub & Hsorted & Hq).
  assert (URL_parse (href u) = Some u) as Hback by by apply parse_href.
  assert (protocol u = str "https:") as Hprotocol
    by (unfold protocol; by rewrite Hs).
  exists u. split_and!; try done.
  - unfold isValidUrl. rewrite Hback, Hprotocol. done.
  - rewrite (search_queryOf u src entries) by done.
    intros kv Hkv. rewrite <- Hsorted in Hkv.
    apply sortEntries_elem, deleteParams_elem in Hkv. tauto.
  - rewrite (search_queryOf u src entries), <- Hsorted by done.
    apply sortEntries_ordered.
Qed.
End WithLaws.

Import Reference ReferenceUrlSpec.

Lemma normalizeUrl_result_witness :
  ∃ u,
    URL_parse (str "https://example.com/a/b?a=1&b=2") = Some u
    ∧ href u = str "https://example.com/a/b?a=1&b=2"
    ∧ isValidUrl (str "https://example.com/a/b?a=1&b=2") = true
    ∧ protocol u = str "https:"
    ∧ fragment u = None
    ∧ (∀ kv, kv ∈ URLSearchParams_parse (search u) →
             kv.1 ∉ removeParams DEFAULT_NORMALIZATION_OPTIONS)
    ∧ ordered (URLSearchParams_parse (search u)).
Proof.
  apply (normalizeUrl_result DEFAULT_NORMALIZATION_OPTIONS
           (str "HTTP://WWW.Example.com/a//b/?utm_source=x&b=2&a=1#frag"));
    by vm_compute.
Defined.

End UrlNormalizerResult.

(** ** Collection prompts: the candidates of a response *)

Module CandidatesSpec.
Import RegExp Prompts.

Lemma trimStart_head (s : jsstring) c :
  head (trimStart s) = Some c → isSpace c = false.
Proof.
  induction s as [|d s IH]; [done |]. simpl.
  destruct (isSpace d) eqn:Hd; [done |]. by intros [= <-].
Qed.

Lemma trimStart_fixed (s : jsstring) :
  (∀ c, head s = Some c → isSpace c = false) → trimStart s = s.
Proof.
  destruct s as [|d s]; [done |]. simpl. intros Hhead.
  by rewrite (Hhead d).
Qed.

Lemma trimStart_idempotent (s : jsstring) :
  trimStart (trimStart s) = trimStart s.
Proof. apply trimStart_fixed, trimStart_head. Qed.

(** Stripping the front leaves a last code unit that is no white space in
    its place. *)
Lemma trimStart_last (s : jsstring) c :
  last s = Some c → isSpace c = false → last (trimStart s) = Some c.
Proof.
  induction s as [|d s IH]; [done |]. intros Hlast Hc. simpl.
  destruct (isSpace d) eqn:Hd; [|done].
  destruct s as [|e s]; [simpl in Hlast; congruence |]. by apply IH.
Qed.

Lemma trimEnd_head (s : jsstring) c :
  head s = Some c → isSpace c = false → head (trimEnd s) = Some c.
Proof.
  intros Hhead Hc. unfold trimEnd. rewrite head_reverse.
  apply trimStart_last; [by rewrite last_reverse | done].
Qed.

Lemma trim_idempotent (s : jsstring) : trim (trim s) = trim s.
Proof.
  unfold trim. set (t := trimStart s).
  assert (trimStart (trimEnd t) = trimEnd t) as ->.
  { apply trimStart_fixed. intros c Hc.
    destruct t as [|d t'] eqn:Ht; [done |].
    assert (isSpace d = false) as Hd
      by (apply (trimStart_head s); fold t; by rewrite Ht).
    rewrite (trimEnd_head (d :: t') d) in Hc by done. congruence. }
  unfold trimEnd. by rewrite reverse_involutive, trimStart_idempotent.
Qed.

(** What [pushCandidate] lets in: a text that is not empty and has no
    white space at either end. *)
Definition trimmedText (c : jsstring) : Prop := c ≠ [] ∧ trim c = c.

Definition tidy (candidates : list jsstring) : Prop :=
  NoDup candidates ∧ Forall trimmedText candidates.

Lemma pushCandidate_tidy candidates value :
  tidy candidates → tidy (pushCandidate candidates value).
Proof.
  intros [Hnd Hall]. unfold pushCandidate. destruct value as [v|]; [|done].
  simpl. destruct (trim v) as [|c t] eqn:Htrim; [done |]. simpl.
  case_bool_decide as Hin; [done |]. split.
  - apply NoDup_app. split_and!; [done | | apply NoDup_singleton].
    intros x Hx ->%list_elem_of_singleton. done.
  - apply Forall_app. split; [done |]. apply Forall_singleton.
    split; [done |]. by rewrite <- Htrim, trim_idempotent.
Qed.

(** A candidate stays once it is in, and a text pushed is in afterwards. *)
Lemma pushCandidate_keeps candidates value c :
  c ∈ candidates → c ∈ pushCandidate candidates value.
Proof.
  intros Hc. unfold pushCandidate. destruct value as [v|]; [|done].
  simpl. destruct (_ || _); [done |]. apply elem_of_app. by left.
Qed.

Lemma pushCandidate_pushed candidates v :
  trim v ≠ [] → trim v ∈ pushCandidate candidates (Some v).
Proof.
  intros Hne. unfold pushCandidate. simpl.
  destruct (trim v) as [|c t] eqn:Htrim; [done |]. simpl.
  case_bool_decide as Hin; [done |].
  apply elem_of_app. right. apply list_elem_of_here.
Qed.

Lemma foldl_tidy {A} (f : list jsstring → A → list jsstring) (l : list A)
    candidates :
  (∀ cs x, tidy cs → tidy (f cs x)) →
  tidy candidates → tidy (foldl f candidates l).
Proof.
  intros Hf. revert candidates.
  induction l as [|x l IH]; intros candidates Hc; [done |].
  simpl. by apply IH, Hf.
Qed.

(** X20. The candidates that [extractJsonCandidates] hands to [JSON.parse]
    are pairwise different, none is empty, and none has white space at
    either end. *)
Theorem extractJsonCandidates_tidy (result : jsstring) :
  NoDup (extractJsonCandidates result)
  ∧ Forall (λ c, c ≠ [] ∧ trim c = c) (extractJsonCandidates result).
Proof.
  unfold extractJsonCandidates.
  assert (tidy (foldl (λ cs m, pushCandidate cs (group m 1)) []
                  (matchAll result jsonFence))) as H1.
  { apply foldl_tidy; [intros; by apply pushCandidate_tidy |].
    split; constructor. }
  assert (tidy (foldl (λ cs m,
                  let block := trim <$> group m 1 in
                  if from_option looksLikeJson false block
                  then pushCandidate cs block else cs)
                  (foldl (λ cs m, pushCandidate cs (group m 1)) []
                     (matchAll result jsonFence))
                  (matchAll result anyFence))) as H2.
  { apply foldl_tidy; [|done]. intros cs m Hcs. simpl.
    destruct (from_option _ _ _); [by apply pushCandidate_tidy | done]. }
  set (c2 := foldl _ (foldl _ _ _) _) in *.
  assert (tidy (if looksLikeJson (trim result)
                then pushCandidate c2 (Some (trim result)) else c2)) as H3.
  { destruct (looksLikeJson _); [by apply pushCandidate_tidy | done]. }
  simpl. set (c3 := if looksLikeJson _ then _ else _) in *.
  assert (tidy (match indexOf 123 result, lastIndexOf 125 result with
                | Some firstBrace, Some lastBrace =>
                    if decide (firstBrace < lastBrace)%nat
                    then pushCandidate c3
                           (Some (take (S lastBrace - firstBrace)
                                    (drop firstBrace result)))
                    else c3
                | _, _ => c3
                end)) as H4.
  { destruct (indexOf _ _); [|done]. destruct (lastIndexOf _ _); [|done].
    case_decide; [by apply pushCandidate_tidy | done]. }
  exact H4.
Qed.

End CandidatesSpec.

(** ** Collector: chunks of sources and queries of a source *)

Module CollectionSpec.
Import Collection.

Section Chunks.
Context {T : Type}.
Implicit Types (array : list T) (chunks : list (list T)).

(** Inside the array, with a size of one or more, [slice] cuts the next
    [size] elements, or what is left of them. *)
Lemma slice_chunk array (n : nat) size :
  (n < length array)%nat → 1 ≤ size →
  slice array (Z.of_nat n) (Z.of_nat n + size)
  = take (Z.to_nat size) (drop n array).
Proof.
  intros Hn Hsize. unfold slice, sliceIndex.
  rewrite !decide_False by lia.
  rewrite (Z.min_l (Z.of_nat n)) by lia. rewrite Nat2Z.id.
  destruct (decide (Z.of_nat n + size ≤ Z.of_nat (length array))) as [Hle|Hgt].
  - rewrite Z.min_l by lia. f_equal. lia.
  - rewrite Z.min_r by lia.
    rewrite !take_ge; [done | rewrite length_drop; lia..].
Qed.

Definition wellCut (size : Z) chunks : Prop :=
  Forall (λ c, 1 ≤ Z.of_nat (length c) ≤ size) chunks
  ∧ ∀ k c, chunks !! k = Some c → (S k < length chunks)%nat →
           Z.of_nat (length c) = size.

Lemma chunkLoop_spec fuel array size (n : nat) chunks :
  1 ≤ size → (length array - n ≤ fuel)%nat →
  ∃ added,
    chunkLoop fuel array size (Z.of_nat n) chunks = Some (chunks ++ added)
    ∧ concat added = drop n array
    ∧ wellCut size added
    ∧ (added = [] ↔ (length array ≤ n)%nat).
Proof.
  intros Hsize. revert n chunks.
  induction fuel as [|fuel IH]; intros n chunks Hfuel.
  - exists []. simpl. rewrite decide_False by lia.
    rewrite app_nil_r, drop_ge by lia.
    split_and!; [done.. | | split; [lia | done]].
    split; [constructor | by intros k c [=]].
  - simpl. case_decide as Hn.
    + destruct (IH (n + Z.to_nat size)%nat
                  (chunks ++ [slice array (Z.of_nat n) (Z.of_nat n + size)]))
        as (added & Hloop & Hconcat & [Hall Hfull] & Hnil); [lia |].
      replace (Z.of_nat (n + Z.to_nat size)) with (Z.of_nat n + size)
        in Hloop by lia.
      rewrite slice_chunk in * by lia.
      set (chunk := take (Z.to_nat size) (drop n array)) in *.
      exists (chunk :: added).
      split; [by rewrite Hloop, <- app_assoc |].
      split.
      { simpl. rewrite Hconcat. unfold chunk.
        by rewrite <- drop_drop, take_drop. }
      split; [|split; [done | lia]].
      split.
      * constructor; [|done]. unfold chunk.
        rewrite length_take, length_drop. lia.
      * intros [|k] c; simpl.
        -- intros [= <-] Hk. unfold chunk.
           rewrite length_take, length_drop.
           destruct added as [|c' added']; [simpl in Hk; lia |].
           assert (¬ (length array ≤ n + Z.to_nat size)%nat)
             by (intros ?%Hnil; done).
           lia.
        -- intros Hc Hk. apply (Hfull k c Hc). lia.
    + exists []. rewrite app_nil_r, drop_ge by lia.
      split_and!; [done.. | | split; [lia | done]].
      split; [constructor | by intros k c [=]].
Qed.

Lemma chunkLoop_runs fuel array size i chunks :
  size ≤ 0 → i ≤ 0 → array ≠ [] → chunkLoop fuel array size i chunks = None.
Proof.
  intros Hsize. revert i chunks.
  induction fuel as [|fuel IH]; intros i chunks Hi Harray;
    assert (0 < length array)%nat by (destruct array; [done | simpl; lia]);
    simpl; rewrite decide_True by lia; [done |].
  apply IH; [lia | done].
Qed.

(** X21. With a size of one or more, [chunkArray] returns chunks that put
    together give back the array, in order: every chunk holds between one
    and [size] elements, and every chunk but the last holds [size]. *)
Theorem chunkArray_spec array size :
  1 ≤ size →
  ∃ chunks,
    chunkArray array size = Some chunks
    ∧ concat chunks = array
    ∧ Forall (λ c, 1 ≤ Z.of_nat (length c) ≤ size) chunks
    ∧ ∀ k c, chunks !! k = Some c → (S k < length chunks)%nat →
             Z.of_nat (length c) = size.
Proof.
  intros Hsize.
  destruct (chunkLoop_spec (length array) array size 0 [] Hsize)
    as (added & Hloop & Hconcat & [Hall Hfull] & _); [lia |].
  exists added. by split_and!.
Qed.

(** X22. With a size of zero or less and an array that is not empty, the
    loop of [chunkArray] never ends: whatever number of passes it is given,
    it is still running after them. *)
Theorem chunkArray_hangs array size :
  size ≤ 0 → array ≠ [] →
  chunkArray array size = None
  ∧ ∀ fuel, chunkLoop fuel array size 0 [] = None.
Proof.
  intros Hsize Harray.
  split; [|intros fuel]; by apply chunkLoop_runs.
Qed.
End Chunks.

Lemma chunkArray_spec_witness :
  ∃ chunks,
    chunkArray [1; 2; 3; 4; 5] 2 = Some chunks
    ∧ concat chunks = [1; 2; 3; 4; 5]
    ∧ Forall (λ c, 1 ≤ Z.of_nat (length c) ≤ 2) chunks
    ∧ ∀ k c, chunks !! k = Some c → (S k < length chunks)%nat →
             Z.of_nat (length c) = 2.
Proof. apply (chunkArray_spec [1; 2; 3; 4; 5] 2). lia. Defined.

Lemma chunkArray_hangs_witness :
  chunkArray [1; 2; 3] 0 = None
  ∧ ∀ fuel, chunkLoop fuel [1; 2; 3] 0 0 [] = None.
Proof. apply (chunkArray_hangs [1; 2; 3] 0); [lia | done]. Defined.

Example chunkArray_five_by_two :
  chunkArray [1; 2; 3; 4; 5] 2 = Some [[1; 2]; [3; 4]; [5]].
Proof. reflexivity. Qed.

End CollectionSpec.

(** ** Queries of a source: one per group *)

Module QuerySelectionSpec.
Import Collection.

(** [query] stands first of its group in [queries]. *)
Definition firstOfGroup (queries : list GeneratedQuery)
    (query : GeneratedQuery) : Prop :=
  ∃ before after,
    queries = before ++ query :: after
    ∧ groupId query ∉ (groupId <$> before).

Lemma selectQueries_spec maxPerSource queries selectedGroups result :
  ∃ added,
    selectQueries maxPerSource queries selectedGroups result = result ++ added
    ∧ added `sublist_of` queries
    ∧ NoDup (groupId <$> added)
    ∧ (∀ q, q ∈ added →
            (groupId q ∉ selectedGroups) ∧ firstOfGroup queries q)
    ∧ (added ≠ [] → Z.of_nat (length (result ++ added)) ≤ maxPerSource)
    ∧ (Z.of_nat (length (result ++ added)) < maxPerSource →
       ∀ q, q ∈ queries →
            groupId q ∈ selectedGroups ∨ groupId q ∈ (groupId <$> added)).
Proof.
  revert selectedGroups result.
  induction queries as [|query rest IH]; intros seen result.
  { exists []. simpl. rewrite app_nil_r.
    split_and!; [done | done | constructor | | done |].
    - by intros q ?%elem_of_nil.
    - by intros _ q ?%elem_of_nil. }
  simpl. case_decide as Hfull.
  { exists []. rewrite app_nil_r.
    split_and!; [done | apply sublist_nil_l | constructor | | done | lia].
    by intros q ?%elem_of_nil. }
  case_decide as Hseen.
  - destruct (IH seen result)
      as (added & -> & Hsub & Hnd & Hnew & Hlen & Hall).
    exists added. split_and!; [done | by apply sublist_cons | done | | done |].
    + intros q Hq. destruct (Hnew q Hq) as [Hq' (pre & post & -> & Hpre)].
      split; [done |]. exists (query :: pre), post. split; [done |].
      rewrite fmap_cons, not_elem_of_cons. split; [congruence | done].
    + intros Hroom q [->|Hq]%elem_of_cons; [by left | by apply Hall].
  - destruct (IH ({[groupId query]} ∪ seen) (result ++ [query]))
      as (added & -> & Hsub & Hnd & Hnew & Hlen & Hall).
    exists (query :: added).
    assert ((result ++ [query]) ++ added = result ++ query :: added) as Happ
      by (by rewrite <- app_assoc).
    rewrite Happ in *.
    split_and!; [done | by apply sublist_skip | | | |].
    + rewrite fmap_cons. apply NoDup_cons. split; [|done].
      intros (q & Hg & Hq)%list_elem_of_fmap.
      destruct (Hnew q Hq) as [Hq' _]. set_solver.
    + intros q [->|Hq]%elem_of_cons.
      * split; [done |]. exists [], rest. split; [done |].
        simpl. apply not_elem_of_nil.
      * destruct (Hnew q Hq) as [Hq' (pre & post & -> & Hpre)].
        split; [set_solver |]. exists (query :: pre), post. split; [done |].
        rewrite fmap_cons, not_elem_of_cons. split; [set_solver | done].
    + intros _. destruct added as [|q' added']; [|by apply Hlen].
      rewrite length_app. simpl. lia.
    + intros Hroom q [->|Hq]%elem_of_cons.
      * right. rewrite fmap_cons. apply list_elem_of_here.
      * destruct (Hall Hroom q Hq) as [Hin|Hin].
        -- apply elem_of_union in Hin as [->%elem_of_singleton|Hin];
             [right; rewrite fmap_cons; apply list_elem_of_here | by left].
        -- right. rewrite fmap_cons. by apply list_elem_of_further.
Qed.

(** X23. [getQueriesForSource] keeps, in order, queries that stand first of
    their group in the given list, no two of one group, and no more than
    [maxPerSource] of them; when it returns fewer than [maxPerSource],
    every group of the list has its query in the result. The collector's
    copy is the one with [maxPerSource] 5. *)
Theorem getQueriesForSource_spec maxPerSource sourceId queries :
  let result := getQueriesForSourceOf maxPerSource sourceId queries in
  getQueriesForSource queries = getQueriesForSourceOf 5 sourceId queries
  ∧ result `sublist_of` queries
  ∧ NoDup (groupId <$> result)
  ∧ (∀ q, q ∈ result → firstOfGroup queries q)
  ∧ Z.of_nat (length result) ≤ Z.max maxPerSource 0
  ∧ (Z.of_nat (length result) < maxPerSource →
     ∀ q, q ∈ queries → groupId q ∈ (groupId <$> result)).
Proof.
  unfold getQueriesForSourceOf, getQueriesForSource.
  destruct (selectQueries_spec maxPerSource queries ∅ [])
    as (added & -> & Hsub & Hnd & Hnew & Hlen & Hall).
  simpl. split_and!; [done.. | | |].
  - intros q Hq. by destruct (Hnew q Hq).
  - destruct added as [|q added']; [simpl; lia |].
    etrans; [by apply Hlen | lia].
  - intros Hroom q Hq. destruct (Hall Hroom q Hq) as [Hin|Hin]; [|done].
    set_solver.
Qed.

End QuerySelectionSpec.

(** ** URL normalizer: domains *)

Module UrlDomainSpec.
Import Similarity UrlNormalizer.

Section WithRuntime.
Context {runtime : UrlRuntime} {lower : TextRuntime}.

Lemma extractDomain_is_Some url :
  is_Some (extractDomain url) ↔ is_Some (URL_parse url).
Proof.
  unfold extractDomain. destruct (URL_parse url); simpl; [|done].
  split; by eauto.
Qed.

Lemma isSameDomain_true url1 url2 :
  isSameDomain url1 url2 = true ↔
  ∃ domain, extractDomain url1 = Some domain
            ∧ extractDomain url2 = Some domain.
Proof.
  unfold isSameDomain.
  destruct (extractDomain url1) as [d1|], (extractDomain url2) as [d2|].
  - rewrite bool_decide_eq_true. split; [intros ->; by eauto |].
    intros (d & ? & ?). congruence.
  - split; [done | by intros (d & ? & ?)].
  - split; [done | by intros (d & ? & ?)].
  - split; [done | by intros (d & ? & ?)].
Qed.

(** X24. [isSameDomain] is symmetric and transitive, holds between a URL
    and itself exactly when the URL parses, and is false as soon as one of
    the two does not parse: it never throws. Two URLs it relates have the
    same [extractDomain]. *)
Theorem isSameDomain_equivalence url1 url2 url3 :
  isSameDomain url1 url2 = isSameDomain url2 url1
  ∧ (isSameDomain url1 url2 = true → isSameDomain url2 url3 = true →
     isSameDomain url1 url3 = true)
  ∧ (isSameDomain url1 url1 = true ↔ is_Some (URL_parse url1))
  ∧ (URL_parse url1 = None ∨ URL_parse url2 = None →
     isSameDomain url1 url2 = false)
  ∧ (isSameDomain url1 url2 = true ↔
     ∃ domain, extractDomain url1 = Some domain
               ∧ extractDomain url2 = Some domain).
Proof.
  split_and!.
  - apply eq_true_iff_eq. rewrite !isSameDomain_true. naive_solver.
  - rewrite !isSameDomain_true. intros (d & H1 & H2) (d' & H2' & H3).
    exists d. split; [done | congruence].
  - rewrite isSameDomain_true, <- extractDomain_is_Some.
    split; [intros (d & ? & _); by eauto | intros [d ?]; by eauto].
  - intros Hnone. apply not_true_is_false. rewrite isSameDomain_true.
    intros (d & H1 & H2).
    assert (is_Some (URL_parse url1)) as [u1 Hu1]
      by (apply extractDomain_is_Some; by eauto).
    assert (is_Some (URL_parse url2)) as [u2 Hu2]
      by (apply extractDomain_is_Some; by eauto).
    destruct Hnone; congruence.
  - apply isSameDomain_true.
Qed.
End WithRuntime.

End UrlDomainSpec.

(** ** Similarity: the normal form of a title *)

Module NormalizeTextSpec.
Import Similarity TitleMetrics CandidatesSpec.

(** No white space but single U+0020; [afterSpace] says that the text
    follows a white space. *)
Fixpoint spaced (afterSpace : bool) (s : jsstring) : Prop :=
  match s with
  | [] => True
  | c :: s' =>
      if isSpace c then c = 32%N ∧ afterSpace = false ∧ spaced true s'
      else spaced false s'
  end.

Lemma collapseFrom_spaced inRun s : spaced inRun (collapseFrom inRun s).
Proof.
  revert inRun. induction s as [|c s IH]; intros inRun; [done |].
  simpl. destruct (isSpace c) eqn:Hc.
  - destruct inRun; [apply IH |]. simpl.
    change (isSpace 32) with true. cbv iota. split_and!; [done.. | apply IH].
  - simpl. rewrite Hc. apply IH.
Qed.

Lemma collapseFrom_fixed inRun s : spaced inRun s → collapseFrom inRun s = s.
Proof.
  revert inRun. induction s as [|c s IH]; intros inRun; [done |].
  simpl. destruct (isSpace c) eqn:Hc.
  - intros (-> & -> & Hs). by rewrite IH.
  - intros Hs. by rewrite IH.
Qed.

Lemma spaced_weaken s : spaced true s → spaced false s.
Proof. destruct s as [|c s]; [done |]. simpl. destruct (isSpace c); tauto. Qed.

Lemma spaced_trimStart afterSpace s :
  spaced afterSpace s → spaced afterSpace (trimStart s).
Proof.
  revert afterSpace. induction s as [|c s IH]; intros b; [done |].
  intros Hs. simpl. destruct (isSpace c) eqn:Hc; [|done].
  simpl in Hs. rewrite Hc in Hs. destruct Hs as (_ & -> & Hs).
  by apply spaced_weaken, IH.
Qed.

Lemma trimStart_suffix (s : jsstring) : ∃ dropped, s = dropped ++ trimStart s.
Proof.
  induction s as [|c s [dropped IH]]; [by exists [] |]. simpl.
  destruct (isSpace c); [|by exists []].
  exists (c :: dropped). simpl. by f_equal.
Qed.

Lemma trimEnd_prefix (s : jsstring) : ∃ dropped, s = trimEnd s ++ dropped.
Proof.
  destruct (trimStart_suffix (reverse s)) as [dropped Hs].
  exists (reverse dropped). unfold trimEnd.
  by rewrite <- reverse_app, <- Hs, reverse_involutive.
Qed.

Lemma spaced_app_l afterSpace s1 s2 :
  spaced afterSpace (s1 ++ s2) → spaced afterSpace s1.
Proof.
  revert afterSpace. induction s1 as [|c s1 IH]; intros b; [done |].
  simpl. destruct (isSpace c); [|apply IH].
  intros (? & ? & ?). split_and!; [done.. |]. by apply IH.
Qed.

Lemma spaced_trim afterSpace s :
  spaced afterSpace s → spaced afterSpace (trim s).
Proof.
  intros Hs%spaced_trimStart. unfold trim.
  destruct (trimEnd_prefix (trimStart s)) as [dropped Heq].
  rewrite Heq in Hs. by apply spaced_app_l in Hs.
Qed.

(** What [spaced] says of the code units, and of two neighbours. *)
Lemma spaced_elem afterSpace s c :
  spaced afterSpace s → c ∈ s → isSpace c = true → c = 32%N.
Proof.
  revert afterSpace. induction s as [|d s IH]; intros b Hs Hc Hspace.
  { by apply elem_of_nil in Hc. }
  simpl in Hs. apply elem_of_cons in Hc as [->|Hc].
  - rewrite Hspace in Hs. tauto.
  - destruct (isSpace d); [destruct Hs as (_ & _ & Hs) |]; by eapply IH.
Qed.

Lemma spaced_no_run afterSpace s s1 s2 :
  spaced afterSpace s → s ≠ s1 ++ 32%N :: 32%N :: s2.
Proof.
  revert afterSpace s. induction s1 as [|c s1 IH]; intros b s Hs ->.
  - simpl in Hs. change (isSpace 32) with true in Hs. cbv iota in Hs.
    destruct Hs as (_ & _ & _ & [=] & _).
  - simpl in Hs.
    destruct (isSpace c); [destruct Hs as (_ & _ & Hs) |]; by eapply IH.
Qed.

Lemma trim_elem (s : jsstring) c : c ∈ trim s → c ∈ s.
Proof.
  intros Hc. destruct (trimStart_suffix s) as [d1 H1].
  destruct (trimEnd_prefix (trimStart s)) as [d2 H2].
  rewrite H1, H2. fold (trim s). set_solver.
Qed.

Lemma collapseFrom_elem inRun s c :
  c ∈ collapseFrom inRun s → c = 32%N ∨ c ∈ s.
Proof.
  revert inRun. induction s as [|d s IH]; intros b; simpl.
  { by intros ?%elem_of_nil. }
  destruct (isSpace d); [destruct b |].
  - intros [?|?]%IH; [by left | right; by apply list_elem_of_further].
  - intros [->|[?|?]%IH]%elem_of_cons;
      [by left | by left | right; by apply list_elem_of_further].
  - intros [->|[?|?]%IH]%elem_of_cons;
      [right; apply list_elem_of_here | by left
      | right; by apply list_elem_of_further].
Qed.

(** The two replacements leave no full-width letter or digit and no
    ideographic space. *)
Lemma halfWidth_done c :
  halfWidth (ideographicSpace (halfWidth c)) = ideographicSpace (halfWidth c)
  ∧ ideographicSpace (ideographicSpace (halfWidth c))
    = ideographicSpace (halfWidth c).
Proof.
  unfold ideographicSpace, halfWidth.
  repeat (case_bool_decide; simpl in *); split; try done; lia.
Qed.

Section WithRuntime.
Context {lower : TextRuntime}.

Lemma normalizeText_spaced text : spaced false (normalizeText text).
Proof. apply spaced_trim, collapseFrom_spaced. Qed.

Lemma normalizeText_elem text c :
  c ∈ normalizeText text → halfWidth c = c ∧ ideographicSpace c = c.
Proof.
  unfold normalizeText, collapseSpaces.
  intros [->|Hc]%trim_elem%collapseFrom_elem; [done |].
  apply list_elem_of_fmap in Hc as (d & -> & Hd).
  apply list_elem_of_fmap in Hd as (e & -> & _).
  apply halfWidth_done.
Qed.

(** X25. The text [normalizeText] returns is in normal form whatever the
    input: its only white space is the single U+0020, never twice in a row
    and never at either end, and it holds no full-width letter or digit
    and no ideographic space. *)
Theorem normalizeText_canonical text :
  let normalized := normalizeText text in
  (∀ c, c ∈ normalized → isSpace c = true → c = 32%N)
  ∧ (∀ s1 s2, normalized ≠ s1 ++ 32%N :: 32%N :: s2)
  ∧ trim normalized = normalized
  ∧ (∀ c, c ∈ normalized → halfWidth c = c ∧ c ≠ 12288%N).
Proof.
  simpl. split_and!.
  - intros c. apply spaced_elem with false, normalizeText_spaced.
  - intros s1 s2. apply spaced_no_run with false, normalizeText_spaced.
  - apply trim_idempotent.
  - intros c [Hhalf Hideo]%normalizeText_elem. split; [done |].
    intros ->. by vm_compute in Hideo.
Qed.

(** X26. [normalizeText] leaves its own result alone once lower-casing
    does: a title and its normalized form then have the same normalized
    form, the same [calculateTitleHash] and the same tokens. *)
Theorem normalizeText_idempotent text :
  String_toLowerCase (normalizeText text) = normalizeText text →
  normalizeText (normalizeText text) = normalizeText text
  ∧ calculateTitleHash (normalizeText text) = calculateTitleHash text
  ∧ tokenize (normalizeText text) = tokenize text.
Proof.
  intros Hlower.
  assert (normalizeText (normalizeText text) = normalizeText text) as Hfix.
  { unfold normalizeText at 1. rewrite Hlower.
    rewrite <- list_fmap_compose.
    rewrite (list_fmap_ext _ id (normalizeText text)), list_fmap_id.
    - unfold collapseSpaces.
      rewrite collapseFrom_fixed by apply normalizeText_spaced.
      apply trim_idempotent.
    - intros i c Hc. simpl.
      apply list_elem_of_lookup_2, normalizeText_elem in Hc as [Hhalf Hideo].
      by rewrite Hhalf, Hideo. }
  split; [done |]. unfold calculateTitleHash, tokenize. by rewrite Hfix.
Qed.
End WithRuntime.

Import Reference.

Lemma normalizeText_idempotent_witness :
  normalizeText (normalizeText (str "  Hello   World "))
  = normalizeText (str "  Hello   World ")
  ∧ calculateTitleHash (normalizeText (str "  Hello   World "))
    = calculateTitleHash (str "  Hello   World ")
  ∧ tokenize (normalizeText (str "  Hello   World "))
    = tokenize (str "  Hello   World ").
Proof. apply (normalizeText_idempotent (str "  Hello   World ")). done. Defined.

Example normalizeText_hello :
  normalizeText (str "  Hello   World ") = str "hello world".
Proof. reflexivity. Qed.

End NormalizeTextSpec.

(** ** Configuration loader: switching sources off *)

Module ConfigLoaderSpec.
Import Executor Orchestrator SdkExecutor ConfigLoader.

(** The source is one that the call switches off. *)
Definition hit (sourceIds : list jsstring) (source : SourceConfig) : Prop :=
  sc_id source ∈ sourceIds ∧ sc_enabled source = true.

#[local] Instance hit_dec sourceIds source : Decision (hit sourceIds source).
Proof. unfold hit. apply _. Defined.

Definition offIn (sourceIds : list jsstring) (source : SourceConfig)
    : SourceConfig :=
  if decide (sc_id source ∈ sourceIds) then switchOff source else source.

Definition disabledOf (sourceIds : list jsstring) (config : SourcesConfig)
    : list jsstring :=
  sc_id <$> filter (hit sourceIds) (sources config).

Definition afterOf (sourceIds : list jsstring) (config : SourcesConfig)
    : SourcesConfig :=
  {| sources := offIn sourceIds <$> sources config;
     rateControl := rateControl config |}.

Lemma switchOff_off source : sc_enabled source = false → switchOff source = source.
Proof. destruct source. simpl. by intros ->. Qed.

Lemma uniqueIds_elem (sourceIds acc : list jsstring) x :
  x ∈ foldl setAdd acc sourceIds ↔ x ∈ acc ∨ x ∈ sourceIds.
Proof.
  revert acc. induction sourceIds as [|y l IH]; intros acc; simpl.
  - split; [auto | by intros [?|?%elem_of_nil]].
  - rewrite IH. unfold setAdd. case_bool_decide.
    + rewrite elem_of_cons. split; [tauto | intros [?|[->|?]]; auto].
    + rewrite elem_of_app, list_elem_of_singleton, elem_of_cons. tauto.
Qed.

Lemma disableLoop_spec targetIds sourceIds sources disabled :
  (∀ x, x ∈ targetIds ↔ x ∈ sourceIds) →
  disableLoop targetIds sources disabled
  = (offIn sourceIds <$> sources,
     disabled ++ (sc_id <$> filter (hit sourceIds) sources)).
Proof.
  intros Hsame. revert disabled.
  induction sources as [|s rest IH]; intros disabled; simpl.
  { by rewrite app_nil_r. }
  unfold offIn at 1. rewrite filter_cons.
  destruct (decide (sc_id s ∈ sourceIds)) as [Hin|Hout].
  - rewrite bool_decide_eq_true_2 by by apply Hsame. simpl.
    destruct (sc_enabled s) eqn:Hon.
    + rewrite IH, decide_True by done. by rewrite <- app_assoc.
    + rewrite IH, decide_False by (unfold hit; intros [_ ?]; congruence).
      by rewrite switchOff_off.
  - rewrite bool_decide_eq_false_2 by (by rewrite Hsame). simpl.
    rewrite IH, decide_False by (unfold hit; tauto). done.
Qed.

Lemma offIn_fixed sourceIds sources :
  filter (hit sourceIds) sources = [] → offIn sourceIds <$> sources = sources.
Proof.
  induction sources as [|s rest IH]; [done |].
  rewrite filter_cons. case_decide as Hhit; [done |]. intros Hnil.
  rewrite fmap_cons, IH by done. f_equal. unfold offIn.
  case_decide as Hin; [|done]. apply switchOff_off.
  destruct (sc_enabled s) eqn:Hon; [|done]. by destruct Hhit.
Qed.

Lemma afterOf_fixed sourceIds config :
  disabledOf sourceIds config = [] → afterOf sourceIds config = config.
Proof.
  unfold disabledOf, afterOf. intros Hnil%fmap_nil_inv.
  rewrite offIn_fixed by done. by destruct config.
Qed.

Lemma disabledOf_after sourceIds config :
  disabledOf sourceIds (afterOf sourceIds config) = [].
Proof.
  unfold disabledOf, afterOf. simpl.
  induction (sources config) as [|s rest IH]; [done |].
  rewrite fmap_cons, filter_cons, decide_False; [done |].
  unfold hit, offIn. case_decide; [by intros [_ [=]] | tauto].
Qed.

Lemma disableSources_form sourceIds config :
  disableSources sourceIds (Some config)
  = Some (disabledOf sourceIds config, Some (afterOf sourceIds config)).
Proof.
  unfold disableSources.
  assert (∀ x, x ∈ foldl setAdd [] sourceIds ↔ x ∈ sourceIds) as Hsame.
  { intros x. rewrite uniqueIds_elem. split; [by intros [?%elem_of_nil|?] | auto]. }
  case_decide as Hempty.
  - assert (disabledOf sourceIds config = []) as Hnone.
    { unfold disabledOf.
      induction (sources config) as [|s rest IH]; [done |].
      rewrite filter_cons, decide_False; [done |].
      intros [Hin%Hsame _]. apply nil_length_inv in Hempty.
      rewrite Hempty in Hin. by apply elem_of_nil in Hin. }
    by rewrite Hnone, afterOf_fixed.
  - simpl. rewrite (disableLoop_spec _ sourceIds) by done. simpl.
    fold (disabledOf sourceIds config). case_decide as Hsome; [done |].
    assert (disabledOf sourceIds config = []) as Hnone
      by (destruct (disabledOf _ _); [done | simpl in Hsome; lia]).
    by rewrite Hnone, afterOf_fixed.
Qed.

(** X27. [disableSources] returns the ids of the enabled sources named in
    [sourceIds], in the order of the file, and leaves a file in which
    these sources are switched off and nothing else differs; the file is
    left as it was when there is none. A second call with the same ids
    returns no id and changes nothing. With no id the file is not read;
    with one, a file that cannot be read makes the call throw. *)
Theorem disableSources_spec sourceIds config file :
  let disabled :=
    sc_id <$> filter (λ s, sc_id s ∈ sourceIds ∧ sc_enabled s = true)
                (sources config) in
  let after :=
    {| sources := (λ s, if decide (sc_id s ∈ sourceIds) then switchOff s
                        else s) <$> sources config;
       rateControl := rateControl config |} in
  disableSources sourceIds (Some config) = Some (disabled, Some after)
  ∧ (disabled = [] → after = config)
  ∧ (∀ s, s ∈ sources after → sc_id s ∈ sourceIds → sc_enabled s = false)
  ∧ disableSources sourceIds (Some after) = Some ([], Some after)
  ∧ disableSources [] file = Some ([], file)
  ∧ (sourceIds ≠ [] → disableSources sourceIds None = None).
Proof.
  simpl. fold (hit sourceIds) (offIn sourceIds).
  fold (disabledOf sourceIds config) (afterOf sourceIds config).
  split_and!.
  - apply disableSources_form.
  - apply afterOf_fixed.
  - unfold afterOf. simpl. intros s (s0 & -> & _)%list_elem_of_fmap.
    unfold offIn. case_decide; [done | tauto].
  - rewrite disableSources_form, disabledOf_after.
    by rewrite afterOf_fixed by apply disabledOf_after.
  - done.
  - intros Hids. unfold disableSources. rewrite decide_False; [done |].
    destruct sourceIds as [|x l]; [done |]. intros Hnil%nil_length_inv.
    assert (x ∈ foldl setAdd [] (x :: l)) as Hx
      by (apply uniqueIds_elem; right; apply list_elem_of_here).
    rewrite Hnil in Hx. by apply elem_of_nil in Hx.
Qed.

End ConfigLoaderSpec.

(** ** The similarity stage *)

Module SimilarityStageSpec.
Import Similarity TitleMetrics UrlNormalizer HistoryStore DateParser.
Import Deduplicator DeduplicatorStages SimilarityStage Pipeline.

(** [{ ...article, similarityScore: undefined }] *)
Definition unscored (article : DedupArticle) : DedupArticle :=
  {| raw := raw article; normalizedUrl := normalizedUrl article;
     similarityScore := None |}.

Section WithRuntime.
Context `{UrlRuntime} `{TextRuntime}.

(** A title of [existingTitles] that either test of the stage holds
    against the article. *)
Definition judgedSimilar (thresholds : DedupThresholds)
    (article : DedupArticle) (existingTitles : list jsstring) : Prop :=
  ∃ existingTitle,
    existingTitle ∈ existingTitles
    ∧ ((∃ sameDomain,
          checkLayer2Similarity (Types.title (raw article)) existingTitle
            sameDomain thresholds (Types.source (raw article)) = true)
       ∨ isDuplicate
           (checkSimilarity (Types.title (raw article)) existingTitle
              thresholds (Types.source (raw article))
              (Types.url (raw article))) = true).

Lemma findMostSimilar_duplicate targetTitle existingTitles thresholds source
    url similar :
  findMostSimilar targetTitle existingTitles thresholds source url
  = Some similar →
  similar.1 ∈ existingTitles
  ∧ similar.2 = checkSimilarity targetTitle similar.1 thresholds source url
  ∧ isDuplicate similar.2 = true.
Proof.
  unfold findMostSimilar.
  set (step := λ '(mostSimilar, highestScore) existingTitle, _).
  assert (∀ titles state,
            (∀ s, state.1 = Some s →
                  s.2 = checkSimilarity targetTitle s.1 thresholds source url
                  ∧ isDuplicate s.2 = true) →
            (foldl step state titles).1 = Some similar →
            (state.1 = Some similar ∨ similar.1 ∈ titles)
            ∧ similar.2
              = checkSimilarity targetTitle similar.1 thresholds source url
            ∧ isDuplicate similar.2 = true) as Hfold.
  { induction titles as [|t titles IH]; intros [most score] Hstate;
      cbn [foldl].
    - intros Hs. split; [by left | by apply Hstate].
    - set (r := checkSimilarity targetTitle t thresholds source url).
      destruct (step (most, score) t) as [most' score'] eqn:Hstep.
      assert (most' = most ∨ most' = Some (t, r) ∧ isDuplicate r = true)
        as Hmost.
      { unfold step in Hstep. cbv zeta in Hstep. fold r in Hstep.
        destruct (isDuplicate r) eqn:Hdup;
          [destruct (_ <? _)%float |]; injection Hstep as <- <-; auto. }
      intros Hs. apply IH in Hs as ([Hs|Hin] & Hrest).
      + split; [|done]. simpl in Hs.
        destruct Hmost as [->|[-> _]]; [by left |].
        injection Hs as <-. right. apply list_elem_of_here.
      + split; [|done]. right. by apply list_elem_of_further.
      + simpl. intros s Hsome.
        destruct Hmost as [->|[-> Hdup]]; [by apply Hstate |].
        by injection Hsome as <-. }
  intros Hs. apply Hfold in Hs as ([[=]|Hin] & Hrest); [done |].
  by intros s [=].
Qed.

Lemma similarityStep_spec thresholds result processedTitles article :
  similarityStep thresholds (result, processedTitles) article
  = (result ++ [unscored article],
     processedTitles ++ [Types.title (raw article)])
  ∨ (similarityStep thresholds (result, processedTitles) article
     = (result, processedTitles)
     ∧ judgedSimilar thresholds article processedTitles).
Proof.
  unfold similarityStep.
  destruct (existsb _ processedTitles) eqn:Hlayer2.
  - right. split; [done |].
    apply existsb_exists in Hlayer2 as (t & Hin%list_elem_of_In & Ht).
    exists t. split; [done |]. left. by eexists.
  - destruct (findMostSimilar _ _ _ _ _) as [similar|] eqn:Hsimilar.
    + right. split; [done |].
      apply findMostSimilar_duplicate in Hsimilar as (Hin & Heq & Hdup).
      exists similar.1. split; [done |]. right. by rewrite <- Heq.
    + by left.
Qed.

Lemma similarityFold_spec thresholds articles result processedTitles :
  processedTitles = (Types.title ∘ raw) <$> result →
  ∃ kept,
    foldl (similarityStep thresholds) (result, processedTitles) articles
    = (result ++ (unscored <$> kept),
       (Types.title ∘ raw) <$> (result ++ (unscored <$> kept)))
    ∧ kept `sublist_of` articles
    ∧ (result = [] → head kept = head articles)
    ∧ ∀ article, article ∈ articles →
        unscored article ∈ unscored <$> kept
        ∨ judgedSimilar thresholds article
            ((Types.title ∘ raw) <$> (result ++ (unscored <$> kept))).
Proof.
  revert result processedTitles.
  induction articles as [|a rest IH]; intros result titles ->.
  { exists []. simpl. rewrite app_nil_r.
    split_and!; [done.. |]. by intros article ?%elem_of_nil. }
  cbn [foldl].
  destruct (similarityStep_spec thresholds result
              ((Types.title ∘ raw) <$> result) a) as [->|[-> Hdup]].
  - destruct (IH (result ++ [unscored a])
                (((Types.title ∘ raw) <$> result) ++ [Types.title (raw a)]))
      as (kept & -> & Hsub & _ & Hwhy).
    { by rewrite fmap_app. }
    exists (a :: kept). rewrite fmap_cons.
    assert ((result ++ [unscored a]) ++ (unscored <$> kept)
            = result ++ unscored a :: (unscored <$> kept)) as ->
      by (by rewrite <- app_assoc).
    split_and!; [done | by apply sublist_skip | done |].
    intros article [->|Hin]%elem_of_cons.
    + left. apply list_elem_of_here.
    + destruct (Hwhy article Hin) as [Hkept|Hwhy'].
      * left. by apply list_elem_of_further.
      * right. by rewrite <- app_assoc in Hwhy'.
  - destruct (IH result ((Types.title ∘ raw) <$> result))
      as (kept & -> & Hsub & _ & Hwhy); [done |].
    exists kept. split_and!; [done | by apply sublist_cons | |].
    + intros ->. simpl in Hdup.
      destruct Hdup as (t & Ht%elem_of_nil & _). done.
    + intros article [->|Hin]%elem_of_cons; [|by apply Hwhy].
      right. destruct Hdup as (t & Ht & Hdup). exists t. split; [|done].
      rewrite fmap_app. apply elem_of_app. by left.
Qed.

Lemma deduplicateBySimilarity_kept thresholds articles :
  ∃ kept,
    deduplicateBySimilarity thresholds articles = unscored <$> kept
    ∧ kept `sublist_of` articles.
Proof.
  unfold deduplicateBySimilarity.
  destruct (similarityFold_spec thresholds articles [] [] eq_refl)
    as (kept & -> & Hsub & _).
  by exists kept.
Qed.




End WithRuntime.

End SimilarityStageSpec.

(** ** The pipeline of a run *)

Module PipelineSpec.
Import Similarity TitleMetrics UrlNormalizer HistoryStore DateParser.
Import Deduplicator DeduplicatorStages SimilarityStage Pipeline.
Import HistoryStoreLaws DeduplicatorStagesSpec SimilarityStageSpec.

Section WithRuntime.
Context `{UrlRuntime} `{TextRuntime} `{DateRuntime} `{RegExpRuntime}.

Lemma classify_article windowStart dateMethodMap now article filtered :
  classify windowStart dateMethodMap now article = Some filtered →
  fa_article filtered = article.
Proof.
  unfold classify. destruct (resolveDate _ _ _); simpl; [|done].
  by intros [= <-].
Qed.

Lemma filterByFreshness_articles articles windowStart dateMethodMap now
    filtered :
  filterByFreshness articles windowStart dateMethodMap now = Some filtered →
  (fa_article <$> filtered) `sublist_of` articles
  ∧ ∀ a, a ∈ filtered → fa_isNew a = true ∨ fa_dateConfidence a = unknown.
Proof.
  unfold filterByFreshness.
  destruct (mapM _ articles) as [classified|] eqn:Hmap; simpl; [|done].
  intros [= <-]. apply mapM_Some in Hmap.
  assert (fa_article <$> classified = articles) as Harticles.
  { induction Hmap as [|a f l k Hf _ IH]; [done |].
    rewrite fmap_cons, IH. f_equal. by eapply classify_article. }
  split.
  - rewrite <- Harticles. apply fmap_sublist, sublist_filter.
  - intros a [Hkeep _]%list_elem_of_filter. unfold keep in Hkeep.
    apply orb_true_iff in Hkeep as [?|?%bool_decide_eq_true]; auto.
Qed.

Lemma unscored_urls (kept : list DedupArticle) :
  normalizedUrl <$> (unscored <$> kept) = normalizedUrl <$> kept.
Proof. by rewrite <- list_fmap_compose. Qed.

Lemma unscored_raw (kept : list DedupArticle) :
  raw <$> (unscored <$> kept) = raw <$> kept.
Proof. by rewrite <- list_fmap_compose. Qed.

(** What a run that returns has done, stage by stage. *)
Lemma deduplicate_stages thresholds urlNormalization lastSuccessAt db clock
    articles dateMethod r db' :
  deduplicate thresholds urlNormalization lastSuccessAt db clock articles
    dateMethod = Some (r, db') →
  ∃ urlDeduped historyDeduped similarityDeduped,
    dr_stats r
    = {| totalInput := length articles;
         afterUrlDedup := length urlDeduped;
         afterHistoryDedup := length historyDeduped;
         afterSimilarityDedup := length similarityDeduped;
         freshArticles :=
           length (filter (λ a, fa_isNew a = true) (dr_articles r)) |}
    ∧ (raw <$> urlDeduped) `sublist_of` articles
    ∧ NoDup (normalizedUrl <$> urlDeduped)
    ∧ historyDeduped
      = filter (λ a, normalizedUrl a ∉ storedUrls db) urlDeduped
    ∧ (raw <$> similarityDeduped) `sublist_of` (raw <$> historyDeduped)
    ∧ (normalizedUrl <$> similarityDeduped)
        `sublist_of` (normalizedUrl <$> historyDeduped)
    ∧ (fa_article <$> dr_articles r) `sublist_of` similarityDeduped
    ∧ (∀ a, a ∈ dr_articles r →
            fa_isNew a = true ∨ fa_dateConfidence a = unknown)
    ∧ storedUrls db'
      = storedUrls db
        ∪ list_to_set ((normalizedUrl ∘ fa_article) <$> dr_articles r).
Proof.
  unfold deduplicate.
  destruct (filterByFreshness _ _ _ _) as [filtered|] eqn:Hfresh;
    simpl; [|done].
  intros [= <- <-]. simpl.
  apply filterByFreshness_articles in Hfresh as [Hsub Hkeep].
  destruct (deduplicateByUrlFrom_spec urlNormalization articles ∅)
    as (Hnd & _ & Hraw & _).
  destruct (deduplicateBySimilarity_kept thresholds
              (deduplicateByHistory db
                 (deduplicateByUrl urlNormalization articles)))
    as (kept & Hkept & Hsubk).
  eexists _, _, _. split_and!; [done | exact Hraw | exact Hnd
    | apply deduplicateByHistory_filter | | | exact Hsub | exact Hkeep |].
  - rewrite Hkept, unscored_raw. by apply fmap_sublist.
  - rewrite Hkept, unscored_urls. by apply fmap_sublist.
  - unfold updateHistory. rewrite bulkUpsert_storedUrls.
    by rewrite <- list_fmap_compose.
Qed.

Lemma deduplicate_urls thresholds urlNormalization lastSuccessAt db clock
    articles dateMethod r db' :
  deduplicate thresholds urlNormalization lastSuccessAt db clock articles
    dateMethod = Some (r, db') →
  NoDup ((normalizedUrl ∘ fa_article) <$> dr_articles r)
  ∧ (∀ a, a ∈ dr_articles r → normalizedUrl (fa_article a) ∉ storedUrls db)
  ∧ storedUrls db'
    = storedUrls db
      ∪ list_to_set ((normalizedUrl ∘ fa_article) <$> dr_articles r).
Proof.
  intros (u & h & s & _ & _ & Hnd & -> & _ & Hurls & Hsub & _ & Hstored)
    %deduplicate_stages.
  assert (((normalizedUrl ∘ fa_article) <$> dr_articles r)
            `sublist_of` (normalizedUrl
                            <$> filter (λ a, normalizedUrl a ∉ storedUrls db) u))
    as Hchain.
  { rewrite list_fmap_compose. etrans; [|exact Hurls]. by apply fmap_sublist. }
  split_and!; [| | done].
  - eapply sublist_NoDup; [exact Hnd |].
    etrans; [exact Hchain |]. apply fmap_sublist, sublist_filter.
  - intros a Ha.
    assert (normalizedUrl (fa_article a)
              ∈ (normalizedUrl ∘ fa_article) <$> dr_articles r) as Hin
      by (by apply (list_elem_of_fmap_2 (normalizedUrl ∘ fa_article))).
    eapply sublist_submseteq, elem_of_submseteq in Hchain; [|exact Hin].
    apply list_elem_of_fmap in Hchain as (b & -> & Hb).
    by apply list_elem_of_filter in Hb as [Hb _].
Qed.

(** X29. A run of [deduplicate] that returns gives counts that never grow
    from one stage to the next, down to the articles it returns; these
    are articles of the input, in their order, no two with the same
    normalized URL, none with a URL the history held before the run, and
    each one fresh or of unknown date. After the run the history holds
    the URLs it held before and those of the returned articles. *)
Theorem deduplicate_spec thresholds urlNormalization lastSuccessAt db clock
    articles dateMethod r db' :
  deduplicate thresholds urlNormalization lastSuccessAt db clock articles
    dateMethod = Some (r, db') →
  let s := dr_stats r in
  (totalInput s = length articles
   ∧ afterUrlDedup s ≤ totalInput s
   ∧ afterHistoryDedup s ≤ afterUrlDedup s
   ∧ afterSimilarityDedup s ≤ afterHistoryDedup s
   ∧ length (dr_articles r) ≤ afterSimilarityDedup s
   ∧ freshArticles s ≤ length (dr_articles r))%nat
  ∧ ((raw ∘ fa_article) <$> dr_articles r) `sublist_of` articles
  ∧ NoDup ((normalizedUrl ∘ fa_article) <$> dr_articles r)
  ∧ (∀ a, a ∈ dr_articles r →
          findByNormalizedUrl db (normalizedUrl (fa_article a)) = None
          ∧ (fa_isNew a = true ∨ fa_dateConfidence a = unknown))
  ∧ (∀ u, is_Some (findByNormalizedUrl db' u)
          ↔ is_Some (findByNormalizedUrl db u)
            ∨ u ∈ (normalizedUrl ∘ fa_article) <$> dr_articles r).
Proof.
  intros Hrun. destruct (deduplicate_urls _ _ _ _ _ _ _ _ _ Hrun)
    as (Hnd & Hnew & Hstored).
  apply deduplicate_stages in Hrun
    as (u & h & s & -> & Hraw & _ & -> & Hraws & _ & Hsub & Hkeep & _).
  simpl. split_and!; try done.
  - apply sublist_length in Hraw. by rewrite length_fmap in Hraw.
  - apply length_filter.
  - apply sublist_length in Hraws. by rewrite !length_fmap in Hraws.
  - apply sublist_length in Hsub. by rewrite length_fmap in Hsub.
  - apply length_filter.
  - rewrite list_fmap_compose.
    etrans; [by apply fmap_sublist |]. etrans; [exact Hraws |].
    etrans; [|exact Hraw]. apply fmap_sublist, sublist_filter.
  - intros a Ha. split; [by apply find_None, Hnew | by apply Hkeep].
  - intros url. rewrite !find_is_Some, Hstored. set_solver.
Qed.



End WithRuntime.

Import Reference Examples HistoryMaintenance.

(** No threshold configured: the built-in ones apply. *)
Definition noThresholds : DedupThresholds :=
  {| thresholds := ∅; layer2_fallback := ∅ |}.

(** A first run on an empty history, on a Monday: one article twice and a
    stale one. *)
Definition firstArticles : list RawArticle :=
  [raw undatedArticle; raw staleArticle; raw undatedArticle].

Definition laterArticle : RawArticle :=
  {| Types.url := str "http://www.example.com/blog/another/?utm_source=feed";
     Types.title := str "Something else entirely";
     summary := None;
     Types.source := str "example_blog";
     fetchedAt := None;
     collectedAt := None;
     publishedAt := None;
     rawContent := None;
     dateMetaContent := None |}.

Example deduplicate_first_run :
  (λ run, (dr_stats run.1, length (dr_articles run.1), length (rows run.2)))
    <$> deduplicate noThresholds DEFAULT_NORMALIZATION_OPTIONS None
          emptyDatabase (λ _, monday) firstArticles None
  = Some ({| totalInput := 3; afterUrlDedup := 2; afterHistoryDedup := 2;
             afterSimilarityDedup := 2; freshArticles := 1 |},
          1%nat, 1%nat).
Proof. by vm_compute. Qed.

Lemma deduplicate_spec_witness :
  ∃ r db',
    deduplicate noThresholds DEFAULT_NORMALIZATION_OPTIONS None emptyDatabase
      (λ _, monday) firstArticles None = Some (r, db')
    ∧ (totalInput (dr_stats r) = length firstArticles
       ∧ afterUrlDedup (dr_stats r) ≤ totalInput (dr_stats r)
       ∧ afterHistoryDedup (dr_stats r) ≤ afterUrlDedup (dr_stats r)
       ∧ afterSimilarityDedup (dr_stats r) ≤ afterHistoryDedup (dr_stats r)
       ∧ length (dr_articles r) ≤ afterSimilarityDedup (dr_stats r)
       ∧ freshArticles (dr_stats r) ≤ length (dr_articles r))%nat
    ∧ ((raw ∘ fa_article) <$> dr_articles r) `sublist_of` firstArticles
    ∧ NoDup ((normalizedUrl ∘ fa_article) <$> dr_articles r)
    ∧ (∀ a, a ∈ dr_articles r →
            findByNormalizedUrl emptyDatabase (normalizedUrl (fa_article a))
            = None
            ∧ (fa_isNew a = true ∨ fa_dateConfidence a = unknown))
    ∧ (∀ u, is_Some (findByNormalizedUrl db' u)
            ↔ is_Some (findByNormalizedUrl emptyDatabase u)
              ∨ u ∈ (normalizedUrl ∘ fa_article) <$> dr_articles r).
Proof.
  destruct (deduplicate noThresholds DEFAULT_NORMALIZATION_OPTIONS None
              emptyDatabase (λ _, monday) firstArticles None)
    as [[r db']|] eqn:Hrun; [|by vm_compute in Hrun].
  exists r, db'. split; [reflexivity |].
  exact (deduplicate_spec noThresholds DEFAULT_NORMALIZATION_OPTIONS None
           emptyDatabase (λ _, monday) firstArticles None r db' Hrun).
Defined.


(** A later run on the history the first one left returns the new article
    only; once [cleanup] has deleted the row of the first run, after the
    retention period, the article of the first run is returned again. *)
Example deduplicate_later_run :
  (λ run, (normalizedUrl ∘ fa_article) <$> dr_articles run.1)
    <$> (run ← deduplicate noThresholds DEFAULT_NORMALIZATION_OPTIONS None
                 emptyDatabase (λ _, monday) firstArticles None;
         deduplicate noThresholds DEFAULT_NORMALIZATION_OPTIONS None run.2
           (λ _, monday + 86400000) (laterArticle :: firstArticles) None)
  = Some [str "https://example.com/blog/another"].
Proof. by vm_compute. Qed.

Example deduplicate_after_cleanup :
  (run ← deduplicate noThresholds DEFAULT_NORMALIZATION_OPTIONS None
           emptyDatabase (λ _, monday) firstArticles None;
   cleaned ← cleanup run.2 90 (monday + 100 * 86400000) None;
   later ← deduplicate noThresholds DEFAULT_NORMALIZATION_OPTIONS None
             cleaned.1 (λ _, monday + 100 * 86400000) firstArticles None;
   Some ((normalizedUrl ∘ fa_article) <$> dr_articles run.1, cleaned.2,
         (normalizedUrl ∘ fa_article) <$> dr_articles later.1))
  = Some ([str "https://example.com/blog/new-model"], 1,
          [str "https://example.com/blog/new-model"]).
Proof. by vm_compute. Qed.

End PipelineSpec.
